(** * wemd.work_managers: futures, watchers and the waiting idioms

    A shallow embedding of [src/wemd/work_managers/__init__.py]: the
    single-assignment [WMFuture], the threshold-triggered [FutureWatcher],
    the [all_acquired] locking scope and the [WEMDWorkManager] waiting
    idioms [as_completed], [wait_any] and [wait_all].

    Python objects live in a store (the [world]) and are referred to by
    their identity, so that a watcher shared by several futures is one
    object.  Every method is a computation over the world which returns,
    raises, or suspends its thread in a blocking primitive.  A method body
    runs under the lock of the object it belongs to, so one method call of
    a thread is one step of the system; the steps of different threads
    interleave.

    A thread suspended in [Condition.wait] or [Event.wait] is among the
    waiters of that object; [notify_all] and [Event.set] empty the waiters,
    and the thread goes on from the return of its [wait].  The code that
    follows a [wait] is given as a computation of its own
    ([get_result_resumed], [wait_all_resumed], [wait_any_resumed], the
    frames of the generator [as_completed]).

    The calls a callback receives and the records the logger receives are
    kept in the world, in order.  [submit], [startup], [shutdown] and
    [parse_aux_args] are not part of the development. *)

From Stdlib Require Import ZArith String.
From stdpp Require Import base option list gmap sets strings.

Open Scope string_scope.
Open Scope list_scope.

#[local] Set Primitive Projections.

(** ** Python values and exceptions *)

Inductive pyval :=
  | PyNone
  | PyBool (b : bool)
  | PyInt (z : Z)
  | PyStr (s : string).

(** Truth testing, as [x or y] and [if x:] do it. *)
Definition truthy (v : pyval) : bool :=
  match v with
  | PyNone => false
  | PyBool b => b
  | PyInt z => negb (z =? 0)%Z
  | PyStr s => negb (String.eqb s "")
  end.

(** Where an exception class sits in the hierarchy: under [Exception], or
    under [BaseException] only (KeyboardInterrupt, SystemExit,
    GeneratorExit).  [except Exception] catches the former only. *)
Inductive exn_base := FromException | FromBaseException.

(** An exception instance.  [exn_truth] is what the instance is worth
    under [if]: true by default, false when its class defines
    [__nonzero__] or [__len__] so. *)
Record exn := MkExn {
  exn_class : string;
  exn_base_of : exn_base;
  exn_message : string;
  exn_truth : bool
}.

(** An instance of a class that keeps the default truth value. *)
Definition Exn (class : string) (base : exn_base) (message : string) : exn :=
  MkExn class base message true.

Definition isinstance_Exception (e : exn) : bool :=
  match exn_base_of e with FromException => true | FromBaseException => false end.

Definition AssertionError : exn := Exn "AssertionError" FromException "".
Definition AttributeError (attr : string) : exn := Exn "AttributeError" FromException attr.
Definition KeyError : exn := Exn "KeyError" FromException "".
Definition IndexError : exn := Exn "IndexError" FromException "pop from empty list".
Definition KeyboardInterrupt : exn := Exn "KeyboardInterrupt" FromBaseException "".

(** An instance attribute that [__init__] may or may not have bound. *)
Inductive attribute (A : Type) := Unbound | Bound (a : A).
Arguments Unbound {A}.
Arguments Bound {A} a.

(** A callback is called with the future; it returns or raises.  It
    observes and does not call back into the futures. *)
Record callback := { cb_name : string; cb_body : positive -> option exn }.

(** ** threading.Condition and threading.Event *)

Module Condition.
(** A condition variable over its own RLock.  [depth] counts the holds of
    the running thread; [waiters] are the threads suspended in [wait]. *)
Record t := { depth : nat; waiters : list nat }.

Definition new : t := {| depth := 0; waiters := [] |}.
Definition acquire (c : t) : t := {| depth := S (depth c); waiters := waiters c |}.
Definition release (c : t) : t := {| depth := Nat.pred (depth c); waiters := waiters c |}.
(** [wait]: give the lock up entirely and join the waiters. *)
Definition enqueue (tid : nat) (c : t) : t := {| depth := 0; waiters := waiters c ++ [tid] |}.
(** A notified thread takes the lock back at the depth it had. *)
Definition acquire_restore (saved : nat) (c : t) : t := {| depth := saved; waiters := waiters c |}.
Definition notify_all (c : t) : t := {| depth := depth c; waiters := [] |}.
End Condition.

Module Event.
Record t := { flag : bool; waiters : list nat }.

Definition new : t := {| flag := false; waiters := [] |}.
(** [set] raises the flag and wakes every waiter. *)
Definition set (e : t) : t := {| flag := true; waiters := [] |}.
Definition clear (e : t) : t := {| flag := false; waiters := waiters e |}.
Definition enqueue (tid : nat) (e : t) : t := {| flag := flag e; waiters := waiters e ++ [tid] |}.
End Event.

(** ** The objects and the store *)

Record future_obj := {
  task_id : pyval;
  _condition : Condition.t;
  _done : bool;
  _result : pyval;
  _exception : option exn;
  _watchers : gset positive;
  _update_callbacks : list callback;
  _returned : attribute pyval
}.

Record watcher_obj := {
  event : Event.t;
  lock : nat;
  threshold : Z;
  completed : list positive
}.

Record world := {
  futures : gmap positive future_obj;
  watchers : gmap positive watcher_obj;
  invoked : list (string * positive);
  logged : list (string * exn)
}.

Definition empty_world : world :=
  {| futures := ∅; watchers := ∅; invoked := []; logged := [] |}.

#[global] Instance future_obj_inhabited : Inhabited future_obj :=
  populate {| task_id := PyNone; _condition := Condition.new; _done := false;
              _result := PyNone; _exception := None; _watchers := ∅;
              _update_callbacks := []; _returned := Unbound |}.

#[global] Instance watcher_obj_inhabited : Inhabited watcher_obj :=
  populate {| event := Event.new; lock := 0; threshold := 1; completed := [] |}.

(** Field assignments. *)
Definition set_condition (g : Condition.t -> Condition.t) (F : future_obj) : future_obj :=
  {| task_id := task_id F; _condition := g (_condition F); _done := _done F;
     _result := _result F; _exception := _exception F; _watchers := _watchers F;
     _update_callbacks := _update_callbacks F; _returned := _returned F |}.
Definition set_done (b : bool) (F : future_obj) : future_obj :=
  {| task_id := task_id F; _condition := _condition F; _done := b;
     _result := _result F; _exception := _exception F; _watchers := _watchers F;
     _update_callbacks := _update_callbacks F; _returned := _returned F |}.
Definition set_result (v : pyval) (F : future_obj) : future_obj :=
  {| task_id := task_id F; _condition := _condition F; _done := _done F;
     _result := v; _exception := _exception F; _watchers := _watchers F;
     _update_callbacks := _update_callbacks F; _returned := _returned F |}.
Definition set_exception (e : option exn) (F : future_obj) : future_obj :=
  {| task_id := task_id F; _condition := _condition F; _done := _done F;
     _result := _result F; _exception := e; _watchers := _watchers F;
     _update_callbacks := _update_callbacks F; _returned := _returned F |}.
Definition set_watchers (ws : gset positive) (F : future_obj) : future_obj :=
  {| task_id := task_id F; _condition := _condition F; _done := _done F;
     _result := _result F; _exception := _exception F; _watchers := ws;
     _update_callbacks := _update_callbacks F; _returned := _returned F |}.
Definition set_update_callbacks (cbs : list callback) (F : future_obj) : future_obj :=
  {| task_id := task_id F; _condition := _condition F; _done := _done F;
     _result := _result F; _exception := _exception F; _watchers := _watchers F;
     _update_callbacks := cbs; _returned := _returned F |}.

Definition set_event (g : Event.t -> Event.t) (W : watcher_obj) : watcher_obj :=
  {| event := g (event W); lock := lock W; threshold := threshold W; completed := completed W |}.
Definition set_lock (g : nat -> nat) (W : watcher_obj) : watcher_obj :=
  {| event := event W; lock := g (lock W); threshold := threshold W; completed := completed W |}.
Definition set_completed (l : list positive) (W : watcher_obj) : watcher_obj :=
  {| event := event W; lock := lock W; threshold := threshold W; completed := l |}.

(** ** Computations *)

(** What a suspended thread waits for: a notification of a future's
    condition (it held the lock [saved] times), or a watcher's event. *)
Inductive suspension :=
  | OnCondition (f : positive) (tid : nat) (saved : nat)
  | OnEvent (wid : positive) (tid : nat).

Inductive result (A : Type) :=
  | Return (a : A) (w : world)
  | Raise (e : exn) (w : world)
  | Block (s : suspension) (w : world).
Arguments Return {A} a w.
Arguments Raise {A} e w.
Arguments Block {A} s w.

Definition M (A : Type) : Type := world -> result A.

#[global] Instance M_ret : MRet M := fun A a w => Return a w.
#[global] Instance M_bind : MBind M := fun A B k m w =>
  match m w with
  | Return a w' => k a w'
  | Raise e w' => Raise e w'
  | Block s w' => Block s w'
  end.

Definition raise {A} (e : exn) : M A := fun w => Raise e w.

(** [for x in l: body(x)] *)
Fixpoint for_each {A} (l : list A) (body : A -> M unit) : M unit :=
  match l with
  | [] => mret tt
  | x :: l' => body x ;; for_each l' body
  end.

(** [assert b] *)
Definition assert (b : bool) : M unit :=
  if b then mret tt else raise AssertionError.

(** [try: body / except Exception: handler] *)
Definition try_except_Exception (body : M unit) (handler : exn -> M unit) : M unit :=
  fun w =>
    match body w with
    | Raise e w' => if isinstance_Exception e then handler e w' else Raise e w'
    | r => r
    end.

Definition upd_future (f : positive) (g : future_obj -> future_obj) (w : world) : world :=
  {| futures := alter g f (futures w); watchers := watchers w;
     invoked := invoked w; logged := logged w |}.
Definition upd_watcher (wid : positive) (g : watcher_obj -> watcher_obj) (w : world) : world :=
  {| futures := futures w; watchers := alter g wid (watchers w);
     invoked := invoked w; logged := logged w |}.

Definition read_future (f : positive) : M future_obj :=
  fun w => Return (futures w !!! f) w.
Definition modify_future (f : positive) (g : future_obj -> future_obj) : M unit :=
  fun w => Return tt (upd_future f g w).
Definition read_watcher (wid : positive) : M watcher_obj :=
  fun w => Return (watchers w !!! wid) w.
Definition modify_watcher (wid : positive) (g : watcher_obj -> watcher_obj) : M unit :=
  fun w => Return tt (upd_watcher wid g w).

(** [callback(future)] *)
Definition call (cb : callback) (f : positive) : M unit :=
  fun w =>
    let w' := {| futures := futures w; watchers := watchers w;
                 invoked := invoked w ++ [(cb_name cb, f)]; logged := logged w |} in
    match cb_body cb f with
    | None => Return tt w'
    | Some e => Raise e w'
    end.

(** [log.exception(msg)] inside a handler of [e] *)
Definition log_exception (msg : string) (e : exn) : M unit :=
  fun w => Return tt {| futures := futures w; watchers := watchers w;
                        invoked := invoked w; logged := logged w ++ [(msg, e)] |}.

(** The exit half of [with future._condition:]: the lock is released when
    the body returns or raises; a body suspended in [wait] gave it up. *)
Definition with_exit {A} (f : positive) (body : M A) : M A :=
  fun w =>
    match body w with
    | Return a w' => Return a (upd_future f (set_condition Condition.release) w')
    | Raise e w' => Raise e (upd_future f (set_condition Condition.release) w')
    | Block s w' => Block s w'
    end.

(** [with future._condition: body] *)
Definition with_condition {A} (f : positive) (body : M A) : M A :=
  modify_future f (set_condition Condition.acquire) ;; with_exit f body.

(** [self._condition.wait()]: the thread [tid] gives the lock up, joins the
    waiters and is suspended; what follows runs once it is notified. *)
Definition condition_wait (tid : nat) (f : positive) : M unit :=
  fun w =>
    Block (OnCondition f tid (Condition.depth (_condition (futures w !!! f))))
          (upd_future f (set_condition (Condition.enqueue tid)) w).

(** [with watcher.lock: body] *)
Definition with_lock {A} (wid : positive) (body : M A) : M A :=
  fun w =>
    match body (upd_watcher wid (set_lock S) w) with
    | Return a w' => Return a (upd_watcher wid (set_lock Nat.pred) w')
    | Raise e w' => Raise e (upd_watcher wid (set_lock Nat.pred) w')
    | Block s w' => Block s w'
    end.

(** ** class FutureWatcher *)

Module FutureWatcher.

Definition signal (wid f : positive) : M unit :=
  with_lock wid (
    modify_watcher wid (fun W => set_completed (completed W ++ [f]) W) ;;
    W ← read_watcher wid;
    if (Z.of_nat (length (completed W)) >=? threshold W)%Z
    then modify_watcher wid (set_event Event.set)
    else mret tt).

(** [self.event.wait()]: at once when the flag is up; otherwise the thread
    joins the event's waiters until a [set] wakes it. *)
Definition wait (tid : nat) (wid : positive) : M unit :=
  W ← read_watcher wid;
  if Event.flag (event W) then mret tt
  else fun w => Block (OnEvent wid tid) (upd_watcher wid (set_event (Event.enqueue tid)) w).

Definition reset (wid : positive) : M (list positive) :=
  with_lock wid (
    modify_watcher wid (set_event Event.clear) ;;
    W ← read_watcher wid;
    let completed := completed W in
    modify_watcher wid (set_completed []) ;;
    mret completed).

End FutureWatcher.

(** ** class WMFuture *)

Module WMFuture.

Definition acquire_all (futures : list positive) : M unit :=
  for_each futures (fun future => modify_future future (set_condition Condition.acquire)).
Definition release_all (futures : list positive) : M unit :=
  for_each futures (fun future => modify_future future (set_condition Condition.release)).

(** [with WMFuture.all_acquired(futures): body].  [all_acquired] is a
    generator under [@contextmanager]: entering the scope runs it up to
    its [yield]; leaving the scope normally resumes it after the [yield];
    when the body raises, the exception is thrown into the generator at
    the [yield], and as no [try] encloses the [yield] the generator is
    left at once and the exception goes on to the caller. *)
Definition all_acquired {A} (futures : list positive) (body : M A) : M A :=
  fun w =>
    match acquire_all futures w with
    | Return _ w1 =>
        match body w1 with
        | Return a w2 =>
            match release_all futures w2 with
            | Return _ w3 => Return a w3
            | Raise e w3 => Raise e w3
            | Block s w3 => Block s w3
            end
        | Raise e w2 => Raise e w2
        | Block s w2 => Block s w2
        end
    | Raise e w1 => Raise e w1
    | Block s w1 => Block s w1
    end.

(** [WMFuture(task_id)]: a new object, whose identity is returned;
    [uuid4] is the value [uuid.uuid4()] draws. *)
Definition __init__ (task_id0 uuid4 : pyval) : M positive :=
  fun w =>
    let self := fresh (dom (futures w)) in
    Return self
      {| futures := <[self := {| task_id := if truthy task_id0 then task_id0 else uuid4;
                                 _condition := Condition.new;
                                 _done := false;
                                 _result := PyNone;
                                 _exception := None;
                                 _watchers := ∅;
                                 _update_callbacks := [];
                                 _returned := Unbound |}]> (futures w);
         watchers := watchers w; invoked := invoked w; logged := logged w |}.

Definition _notify_watchers (self : positive) : M unit :=
  with_condition self (
    F ← read_future self;
    assert (_done F) ;;
    for_each (elements (_watchers F)) (fun watcher => FutureWatcher.signal watcher self) ;;
    modify_future self (set_watchers ∅)).

Definition _invoke_callbacks (self : positive) : M unit :=
  with_condition self (
    F ← read_future self;
    for_each (_update_callbacks F) (fun callback =>
      try_except_Exception (call callback self)
        (log_exception "ignoring exception in result callback")) ;;
    modify_future self (set_update_callbacks [])).

Definition _add_watcher (self watcher : positive) : M unit :=
  with_condition self (
    F ← read_future self;
    if _done F then FutureWatcher.signal watcher self
    else modify_future self (set_watchers ({[watcher]} ∪ _watchers F))).

Definition _add_callback (self : positive) (callback : callback) : M unit :=
  with_condition self (
    F ← read_future self;
    if _done F then
      try_except_Exception (call callback self)
        (log_exception "ignoring exception in result callback")
    else modify_future self (set_update_callbacks (_update_callbacks F ++ [callback]))).

Definition _set_result (self : positive) (result : pyval) : M unit :=
  with_condition self (
    modify_future self (set_result result) ;;
    modify_future self (set_done true) ;;
    modify_future self (set_condition Condition.notify_all) ;;
    _invoke_callbacks self ;;
    _notify_watchers self).

Definition _set_exception (self : positive) (exception : exn) : M unit :=
  with_condition self (
    modify_future self (set_exception (Some exception)) ;;
    modify_future self (set_done true) ;;
    modify_future self (set_condition Condition.notify_all) ;;
    _invoke_callbacks self ;;
    _notify_watchers self).

(** [if self._exception: raise self._exception / else: return self._result] *)
Definition payload (F : future_obj) : M pyval :=
  match _exception F with
  | Some e => if exn_truth e then raise e else mret (_result F)
  | None => mret (_result F)
  end.

(** The calling thread is [tid]. *)
Definition get_result (tid : nat) (self : positive) : M pyval :=
  with_condition self (
    F ← read_future self;
    if _done F then payload F
    else
      condition_wait tid self ;;
      F ← read_future self;
      assert (_done F) ;;
      payload F).

(** [get_result] from the return of its [self._condition.wait()] on,
    which takes the lock back at the depth [saved]. *)
Definition get_result_resumed (saved : nat) (self : positive) : M pyval :=
  with_exit self (
    modify_future self (set_condition (Condition.acquire_restore saved)) ;;
    F ← read_future self;
    assert (_done F) ;;
    payload F).

Definition wait (tid : nat) (self : positive) : M pyval :=
  get_result tid self ;; mret PyNone.

(** Reading an attribute that was never bound raises AttributeError. *)
Definition getattr_returned (F : future_obj) : M pyval :=
  match _returned F with
  | Bound v => mret v
  | Unbound => raise (AttributeError "_returned")
  end.

Definition get_exception (tid : nat) (self : positive) : M (option exn) :=
  with_condition self (
    F ← read_future self;
    returned ← getattr_returned F;
    if truthy returned then mret (_exception F)
    else
      assert (_done F) ;;
      condition_wait tid self ;;
      F ← read_future self;
      mret (_exception F)).

Definition is_done (self : positive) : M bool :=
  with_condition self (
    F ← read_future self;
    mret (_done F)).

End WMFuture.

(** The first lines of [FutureWatcher.__init__]: a new object with its
    event, lock, threshold and empty [completed] list. *)
Definition new_watcher (threshold : Z) (w : world) : positive * world :=
  let self := fresh (dom (watchers w)) in
  (self,
   {| futures := futures w;
      watchers := <[self := {| event := Event.new; lock := 0;
                               threshold := threshold; completed := [] |}]> (watchers w);
      invoked := invoked w; logged := logged w |}).

(** [FutureWatcher(futures, threshold)]: a new watcher, registered with
    each of the futures; its identity is returned. *)
Definition FutureWatcher__init__ (futures : list positive) (threshold : Z) : M positive :=
  fun w =>
    let '(self, w0) := new_watcher threshold w in
    (for_each futures (fun future => WMFuture._add_watcher future self) ;; mret self) w0.

(** ** class WEMDWorkManager *)

Module WEMDWorkManager.

(** [{future for future in futures if future.done}] *)
Fixpoint done_set (futures : list positive) : M (gset positive) :=
  match futures with
  | [] => mret ∅
  | future :: rest =>
      d ← WMFuture.is_done future;
      s ← done_set rest;
      mret (if d : bool then {[future]} ∪ s else s)
  end.

(** The generator [as_completed], as the frames it can be in between two
    steps: not started; in the first [for] loop with [rest] still to
    yield; at the head of the [while] loop; suspended in
    [watcher.wait()]; back from it and about to [reset]; in the second
    [for] loop; resumed after its [yield]; exhausted. *)
Inductive as_completed_frame :=
  | AC_start (futures : list positive)
  | AC_for_completed (rest : list positive) (pending : gset positive) (watcher : positive)
  | AC_while (pending : gset positive) (watcher : positive)
  | AC_in_wait (pending : gset positive) (watcher : positive)
  | AC_reset (pending : gset positive) (watcher : positive)
  | AC_for_batch (rest : list positive) (pending : gset positive) (watcher : positive)
  | AC_after_yield (future : positive) (rest : list positive)
                   (pending : gset positive) (watcher : positive)
  | AC_exhausted.

Inductive generator_step :=
  | Yield (future : positive) (k : as_completed_frame) (w : world)
  | Tau (k : as_completed_frame) (w : world)
  | Stop (w : world)
  | Fail (e : exn) (w : world)
  | Wait (k : as_completed_frame) (w : world).

(** The body of the [with WMFuture.all_acquired(pending):] block. *)
Definition as_completed_snapshot (futures : list positive) (pending : gset positive)
  : M (gset positive * gset positive * positive) :=
  completed ← done_set futures;
  let pending := pending ∖ completed in
  watcher ← FutureWatcher__init__ (elements pending) 1;
  mret (completed, pending, watcher).

(** One step of the generator, run by the thread [tid].  The block under
    [all_acquired] is one step: the locks of all the futures are held
    from its first statement to its last, so that no completion of one
    of them falls inside it. *)
Definition as_completed_step (tid : nat) (k : as_completed_frame) (w : world)
  : generator_step :=
  match k with
  | AC_start futures =>
      let pending : gset positive := list_to_set futures in
      match WMFuture.all_acquired (elements pending)
              (as_completed_snapshot futures pending) w with
      | Return (completed, pending, watcher) w' =>
          Tau (AC_for_completed (elements completed) pending watcher) w'
      | Raise e w' => Fail e w'
      | Block _ w' => Wait k w'
      end
  | AC_for_completed (future :: rest) pending watcher =>
      Yield future (AC_for_completed rest pending watcher) w
  | AC_for_completed [] pending watcher =>
      Tau (AC_while pending watcher) w
  | AC_while pending watcher =>
      if decide (pending = ∅) then Stop w
      else
        match FutureWatcher.wait tid watcher w with
        | Return _ w' => Tau (AC_reset pending watcher) w'
        | Raise e w' => Fail e w'
        | Block _ w' => Wait (AC_in_wait pending watcher) w'
        end
  | AC_in_wait pending watcher =>
      if decide (tid ∈ Event.waiters (event (watchers w !!! watcher)))
      then Wait k w
      else Tau (AC_reset pending watcher) w
  | AC_reset pending watcher =>
      match FutureWatcher.reset watcher w with
      | Return completed w' => Tau (AC_for_batch completed pending watcher) w'
      | Raise e w' => Fail e w'
      | Block _ w' => Wait k w'
      end
  | AC_for_batch (future :: rest) pending watcher =>
      Yield future (AC_after_yield future rest pending watcher) w
  | AC_for_batch [] pending watcher =>
      Tau (AC_while pending watcher) w
  | AC_after_yield future rest pending watcher =>
      (* pending.remove(future) *)
      if decide (future ∈ pending)
      then Tau (AC_for_batch rest (pending ∖ {[future]}) watcher) w
      else Fail KeyError w
  | AC_exhausted => Stop w
  end.

(** [wait_all]: the loop from [futures] on, with the [results] so far. *)
Fixpoint wait_all_loop (tid : nat) (futures : list positive) (results : list pyval)
  : M (list pyval) :=
  match futures with
  | [] => mret results
  | future :: rest =>
      r ← WMFuture.get_result tid future;
      wait_all_loop tid rest (results ++ [r])
  end.

Definition wait_all (tid : nat) (futures : list positive) : M (list pyval) :=
  wait_all_loop tid futures [].

(** [wait_all] from the wake-up of its thread on, which was suspended in
    [future.result] with [rest] still to read. *)
Definition wait_all_resumed (tid : nat) (saved : nat) (future : positive)
    (rest : list positive) (results : list pyval) : M (list pyval) :=
  r ← WMFuture.get_result_resumed saved future;
  wait_all_loop tid rest (results ++ [r]).

(** [wait_any]: the block under [all_acquired].  It leaves the function
    with a future found Done ([return completed.pop()], which takes an
    element of the set), or it goes on with the watcher it installed on
    [futures]. *)
Definition wait_any_locked (futures : list positive) : M (positive + positive) :=
  completed ← done_set futures;
  match elements completed with
  | future :: _ => mret (inl future)
  | [] =>
      watcher ← FutureWatcher__init__ futures 1;
      mret (inr watcher)
  end.

(** [l.pop()] on a list: its last element; IndexError on the empty list. *)
Definition list_pop (l : list positive) : M positive :=
  match last l with
  | Some x => mret x
  | None => raise IndexError
  end.

(** [wait_any] from the return of [watcher.wait()] on. *)
Definition wait_any_resumed (watcher : positive) : M positive :=
  completed ← FutureWatcher.reset watcher;
  list_pop completed.

Definition wait_any (tid : nat) (futures : list positive) : M positive :=
  let pending : gset positive := list_to_set futures in
  r ← WMFuture.all_acquired (elements pending) (wait_any_locked futures);
  match r with
  | inl future => mret future
  | inr watcher =>
      FutureWatcher.wait tid watcher ;;
      wait_any_resumed watcher
  end.

End WEMDWorkManager.

(** ** What the loops and the completion do, as functions *)

Definition callback_msg : string := "ignoring exception in result callback".

(** The loop of [_invoke_callbacks] over [cbs]: the calls made, the
    exceptions logged, and the exception that ended the loop if one got
    past [except Exception]. *)
Fixpoint run_callbacks (f : positive) (cbs : list callback)
    (inv : list (string * positive)) (log : list (string * exn))
  : list (string * positive) * list (string * exn) * option exn :=
  match cbs with
  | [] => (inv, log, None)
  | cb :: rest =>
      let inv' := inv ++ [(cb_name cb, f)] in
      match cb_body cb f with
      | None => run_callbacks f rest inv' log
      | Some e =>
          if isinstance_Exception e
          then run_callbacks f rest inv' (log ++ [(callback_msg, e)])
          else (inv', log, Some e)
      end
  end.

(** A watcher after [signal(f)]. *)
Definition signalled (f : positive) (W : watcher_obj) : watcher_obj :=
  {| event := if (Z.of_nat (length (completed W ++ [f])) >=? threshold W)%Z
              then Event.set (event W) else event W;
     lock := lock W;
     threshold := threshold W;
     completed := completed W ++ [f] |}.

(** A watcher after [reset()]. *)
Definition cleared (W : watcher_obj) : watcher_obj :=
  {| event := Event.clear (event W); lock := lock W;
     threshold := threshold W; completed := [] |}.

(** The watchers after each one in [l], then in [ws], was signalled with [f]. *)
Definition signal_list (l : list positive) (f : positive)
    (m : gmap positive watcher_obj) : gmap positive watcher_obj :=
  foldl (fun m wid => alter (signalled f) wid m) m l.

Definition signal_all (ws : gset positive) (f : positive)
    (m : gmap positive watcher_obj) : gmap positive watcher_obj :=
  signal_list (elements ws) f m.

(** The two payloads of a completion, and the assignment each one makes. *)
Inductive outcome := Result (v : pyval) | Failure (e : exn).

Definition store (o : outcome) : future_obj -> future_obj :=
  match o with
  | Result v => set_result v
  | Failure e => set_exception (Some e)
  end.

(** A future after a completion that ran to its end. *)
Definition completed_future (o : outcome) (F : future_obj) : future_obj :=
  set_update_callbacks [] (set_watchers ∅
    (set_condition Condition.notify_all (set_done true (store o F)))).

(** A future after a completion which a callback's exception ended. *)
Definition aborted_future (o : outcome) (F : future_obj) : future_obj :=
  set_condition Condition.notify_all (set_done true (store o F)).

(** The common shape of [_set_result] and [_set_exception]. *)
Definition complete (o : outcome) (self : positive) : M unit :=
  with_condition self (
    modify_future self (store o) ;;
    modify_future self (set_done true) ;;
    modify_future self (set_condition Condition.notify_all) ;;
    WMFuture._invoke_callbacks self ;;
    WMFuture._notify_watchers self).

(** Callbacks that raise nothing but instances of [Exception]. *)
Definition raises_only_Exception (f : positive) (cb : callback) : Prop :=
  ∀ e, cb_body cb f = Some e → isinstance_Exception e = true.

(** The world after the call [cb(f)]. *)
Definition called (cb : callback) (f : positive) (w : world) : world :=
  {| futures := futures w; watchers := watchers w;
     invoked := invoked w ++ [(cb_name cb, f)]; logged := logged w |}.

Definition with_log (e : exn) (w : world) : world :=
  {| futures := futures w; watchers := watchers w;
     invoked := invoked w; logged := logged w ++ [(callback_msg, e)] |}.

(** The world a computation ends in, whatever its outcome. *)
Definition world_of {A} (r : result A) : world :=
  match r with Return _ w | Raise _ w | Block _ w => w end.

(** The state of a future between two method calls that ran to their end:
    nothing is stored before completion, and completion empties the
    watcher set and the callback list. *)
Definition future_ok (F : future_obj) : Prop :=
  if _done F then _watchers F = ∅ ∧ _update_callbacks F = []
  else _result F = PyNone ∧ _exception F = None.

Definition world_ok (w : world) : Prop :=
  ∀ f F, futures w !! f = Some F → future_ok F.

(** Worlds for examples: one future, pending; then completed with 5. *)
Definition w_one : world :=
  world_of (WMFuture.__init__ PyNone (PyStr "task-1") empty_world).
Definition w_one_done : world :=
  world_of (WMFuture._set_result 1 (PyInt 5) w_one).

(** The calls and the log records the callbacks [cbs] of [f] make when
    each of them is invoked once, in order. *)
Definition calls_of (f : positive) (cbs : list callback) : list (string * positive) :=
  map (fun cb => (cb_name cb, f)) cbs.
Definition records_of (f : positive) (cbs : list callback) : list (string * exn) :=
  omap (fun cb => (fun e => (callback_msg, e)) <$> cb_body cb f) cbs.

(** A completion of [self] that delivered every notification: it returned,
    every callback of [F] was called once, in registration order, the
    exceptions they raised were logged, and every watcher of [F] was
    signalled once. *)
Definition delivered (self : positive) (F : future_obj) (w : world) (r : result unit) : Prop :=
  ∃ w', r = Return tt w'
    ∧ invoked w' = invoked w ++ calls_of self (_update_callbacks F)
    ∧ logged w' = logged w ++ records_of self (_update_callbacks F)
    ∧ ∀ watcher, watcher ∈ _watchers F →
        watchers w' !! watcher = signalled self <$> watchers w !! watcher.

(** Callbacks for examples. *)
Definition cb_quiet : callback := {| cb_name := "quiet"; cb_body := fun _ => None |}.
Definition cb_boom : callback :=
  {| cb_name := "boom"; cb_body := fun _ => Some (Exn "ValueError" FromException "boom") |}.
Definition cb_interrupt : callback :=
  {| cb_name := "interrupt"; cb_body := fun _ => Some KeyboardInterrupt |}.

(** A world for examples: one pending future with the callbacks
    [cb_boom] and [cb_quiet] and one watcher of threshold 1. *)
Definition w_observed : world :=
  world_of (FutureWatcher__init__ [1%positive] 1
    (world_of (WMFuture._add_callback 1 cb_quiet
      (world_of (WMFuture._add_callback 1 cb_boom w_one))))).

(** The operations on futures and watchers, and the world after one of
    them was performed, whatever its outcome. *)
Inductive operation :=
  | OpInit (task_id0 uuid4 : pyval)
  | OpSetResult (f : positive) (v : pyval)
  | OpSetException (f : positive) (e : exn)
  | OpGetResult (tid : nat) (f : positive)
  | OpGetResultResumed (saved : nat) (f : positive)
  | OpAddWatcher (f watcher : positive)
  | OpAddCallback (f : positive) (cb : callback)
  | OpIsDone (f : positive)
  | OpGetException (tid : nat) (f : positive)
  | OpWatcherInit (fs : list positive) (threshold : Z)
  | OpWatcherReset (watcher : positive).

Definition perform (op : operation) (w : world) : world :=
  match op with
  | OpInit t u => world_of (WMFuture.__init__ t u w)
  | OpSetResult f v => world_of (WMFuture._set_result f v w)
  | OpSetException f e => world_of (WMFuture._set_exception f e w)
  | OpGetResult tid f => world_of (WMFuture.get_result tid f w)
  | OpGetResultResumed saved f => world_of (WMFuture.get_result_resumed saved f w)
  | OpAddWatcher f watcher => world_of (WMFuture._add_watcher f watcher w)
  | OpAddCallback f cb => world_of (WMFuture._add_callback f cb w)
  | OpIsDone f => world_of (WMFuture.is_done f w)
  | OpGetException tid f => world_of (WMFuture.get_exception tid f w)
  | OpWatcherInit fs t => world_of (FutureWatcher__init__ fs t w)
  | OpWatcherReset watcher => world_of (FutureWatcher.reset watcher w)
  end.

Definition perform_all (ops : list operation) (w : world) : world :=
  foldl (fun w op => perform op w) w ops.

(** No future has the attribute [_returned]. *)
Definition no_returned (w : world) : Prop :=
  ∀ f F, futures w !! f = Some F → _returned F = Unbound.

(** A computation that keeps [P], whatever its outcome. *)
Definition preserves {A} (P : world → Prop) (m : M A) : Prop :=
  ∀ w, P w → P (world_of (m w)).

(** A step of the producers: a thread completes the pending future [f]
    by a [_set_result] or [_set_exception] that runs to its end. *)
Inductive env_step : world → world → Prop :=
  | env_complete (f : positive) (F : future_obj) (o : outcome) (w w' : world) :
      futures w !! f = Some F → _done F = false →
      complete o f w = Return tt w' →
      env_step w w'.

(** The thread [tid] is suspended in [wait] on the condition of [f]. *)
Definition suspended_on (tid : nat) (f : positive) (w : world) : Prop :=
  tid ∈ Condition.waiters (_condition (futures w !!! f)).

#[global] Instance suspended_on_dec tid f w : Decision (suspended_on tid f w).
Proof. unfold suspended_on. apply _. Defined.

(** The world after a woken thread took back, then released, the lock of
    [f] it held [saved] times. *)
Definition resumed (saved : nat) (f : positive) (w : world) : world :=
  upd_future f (set_condition (Condition.release ∘ Condition.acquire_restore saved)) w.

(** The exception [get_result] raises on [F]: the stored one, when it
    tests true. *)
Definition raised (F : future_obj) : option exn :=
  match _exception F with
  | Some e => if exn_truth e then Some e else None
  | None => None
  end.

(** How [get_result] resolves on a future that held nothing and was
    completed with [o]: an exception that tests false is passed over and
    the result, still [None], is returned. *)
Definition resolution (o : outcome) (w : world) : result pyval :=
  match o with
  | Result v => Return v w
  | Failure e => if exn_truth e then Raise e w else Return PyNone w
  end.

(** The recursive lock of the future [f] is held [n] times. *)
Definition held (f : positive) (w : world) : nat :=
  Condition.depth (_condition (futures w !!! f)).

Definition is_pending (f : positive) (w : world) : Prop :=
  ∃ F, futures w !! f = Some F ∧ _done F = false.

Definition is_done (f : positive) (w : world) : Prop :=
  ∃ F, futures w !! f = Some F ∧ _done F = true.

(** ** A thread in [wait_all], step by step *)

(** The thread is at the head of the loop with [rest] still to read, or
    suspended in [future.result], or it has returned or raised. *)
Inductive wait_all_thread :=
  | WA_loop (rest : list positive) (results : list pyval)
  | WA_suspended (saved : nat) (future : positive) (rest : list positive)
                 (results : list pyval)
  | WA_returned (results : list pyval)
  | WA_raised (e : exn).

(** One step of the thread [tid]: one iteration of the loop, or the
    wake-up from [wait], which needs the thread to have been notified. *)
Definition wait_all_step (tid : nat) (t : wait_all_thread) (w : world)
  : wait_all_thread * world :=
  match t with
  | WA_loop [] results => (WA_returned results, w)
  | WA_loop (future :: rest) results =>
      match WMFuture.get_result tid future w with
      | Return r w' => (WA_loop rest (results ++ [r]), w')
      | Raise e w' => (WA_raised e, w')
      | Block (OnCondition _ _ saved) w' => (WA_suspended saved future rest results, w')
      | Block (OnEvent _ _) w' => (t, w')
      end
  | WA_suspended saved future rest results =>
      if decide (suspended_on tid future w) then (t, w)
      else
        match WMFuture.get_result_resumed saved future w with
        | Return r w' => (WA_loop rest (results ++ [r]), w')
        | Raise e w' => (WA_raised e, w')
        | Block _ w' => (t, w')
        end
  | WA_returned _ | WA_raised _ => (t, w)
  end.

Definition wait_all_finished (t : wait_all_thread) : Prop :=
  match t with
  | WA_returned _ | WA_raised _ => True
  | _ => False
  end.

(** The system of the thread and the producers. *)
Inductive wait_all_system (tid : nat)
  : wait_all_thread * world → wait_all_thread * world → Prop :=
  | wa_producer t w w' :
      env_step w w' → wait_all_system tid (t, w) (t, w')
  | wa_thread t w :
      wait_all_system tid (t, w) (wait_all_step tid t w).

(** The thread running alone for [n] steps. *)
Fixpoint wait_all_run (n : nat) (tid : nat) (c : wait_all_thread * world)
  : wait_all_thread * world :=
  match n with
  | 0 => c
  | S n => wait_all_run n tid (wait_all_step tid (fst c) (snd c))
  end.

(** What [wait_all] is to give on futures that are all Done: the stored
    results in the order of [fs], or the error of the first future of [fs]
    that holds one which tests true. *)
Fixpoint gather (w : world) (fs : list positive) (results : list pyval)
  : result (list pyval) :=
  match fs with
  | [] => Return results w
  | f :: rest =>
      match raised (futures w !!! f) with
      | Some e => Raise e w
      | None => gather w rest (results ++ [_result (futures w !!! f)])
      end
  end.

(** The future [f] is Done and [get_result] returns [r] on it: it holds
    no exception that tests true, and [r] is its [_result].  Resp. the
    future is Done and holds the exception [e], which tests true. *)
Definition holds_result (w : world) (f : positive) (r : pyval) : Prop :=
  ∃ F, futures w !! f = Some F ∧ _done F = true ∧ raised F = None ∧ _result F = r.

Definition holds_failure (w : world) (f : positive) (e : exn) : Prop :=
  ∃ F, futures w !! f = Some F ∧ _done F = true ∧ raised F = Some e.

(** What holds of the thread and the world along every run of
    [wait_all] over [fs]: the results read so far are those of a prefix
    of [fs], whose futures are Done without error; a suspended thread is
    among the waiters of its future exactly while that future is pending. *)
Definition wait_all_inv (tid : nat) (fs : list positive)
    (c : wait_all_thread * world) : Prop :=
  (∀ f, f ∈ fs → is_Some (futures (snd c) !! f))
  ∧ match fst c with
    | WA_loop rest results =>
        ∃ pre, fs = pre ++ rest ∧ Forall2 (holds_result (snd c)) pre results
    | WA_suspended saved f rest results =>
        ∃ pre, fs = pre ++ f :: rest ∧ Forall2 (holds_result (snd c)) pre results
          ∧ ∃ F, futures (snd c) !! f = Some F
              ∧ (_done F = false → suspended_on tid f (snd c))
              ∧ (_done F = true → ¬ suspended_on tid f (snd c))
    | WA_returned results => Forall2 (holds_result (snd c)) fs results
    | WA_raised e =>
        ∃ pre f post, fs = pre ++ f :: post
          ∧ Forall (fun g => ∃ r, holds_result (snd c) g r) pre
          ∧ holds_failure (snd c) f e
    end.

(** Worlds for examples: two pending futures; then the second completed
    with 20 and the first with 10 while thread 0 is suspended in
    [wait_all] on the first; then the thread resumed. *)
Definition w_two : world :=
  world_of (WMFuture.__init__ (PyStr "task-2") PyNone
    (world_of (WMFuture.__init__ (PyStr "task-1") PyNone empty_world))).

Definition w_two_done : world :=
  world_of (WMFuture._set_result 1 (PyInt 10)
    (world_of (WMFuture._set_result 2 (PyInt 20)
      (world_of (WMFuture.get_result 0 1 w_two))))).

Definition w_two_read : world := resumed 1 1 w_two_done.

(** ** A watcher and the futures it observes *)

(** Every watcher a future refers to is an object of the store. *)
Definition no_dangling (w : world) : Prop :=
  map_Forall (fun _ F => _watchers F ⊆ dom (watchers w)) (futures w).

(** The watcher [wid] of threshold [t] registered with the futures [R],
    after its resets handed out the futures [H]: its event is set exactly
    when [completed] has reached the threshold; [H] and [completed]
    together hold the Done futures among [R], each once; and the pending
    futures among [R] are the ones that have it in their watcher set. *)
Definition watch_inv (wid : positive) (t : Z) (R H : list positive) (w : world) : Prop :=
  ∃ W, watchers w !! wid = Some W
    ∧ threshold W = t
    ∧ Event.flag (event W) = (Z.of_nat (length (completed W)) >=? t)%Z
    ∧ (Event.flag (event W) = true → Event.waiters (event W) = [])
    ∧ NoDup (H ++ completed W)
    ∧ (∀ f, f ∈ H ++ completed W ↔ f ∈ R ∧ is_done f w)
    ∧ (∀ f F, futures w !! f = Some F → (wid ∈ _watchers F ↔ f ∈ R ∧ _done F = false))
    ∧ (∀ f, f ∈ R → is_Some (futures w !! f)).

(** The system of one watcher, its consumer, which resets it and keeps
    what the resets returned, and the producers. *)
Inductive watcher_system (wid : positive)
  : list positive * world → list positive * world → Prop :=
  | ws_producer H w w' :
      env_step w w' → watcher_system wid (H, w) (H, w')
  | ws_reset H w batch w' :
      FutureWatcher.reset wid w = Return batch w' →
      watcher_system wid (H, w) (H ++ batch, w').

(** Whether the future [f] is Done in [w]. *)
Definition done_in (w : world) (f : positive) : bool := _done (futures w !!! f).

(** What the invariants look at in the future [f]: whether it is there,
    whether it is Done, and its watcher set. *)
Definition view (w : world) (f : positive) : option (bool * gset positive) :=
  (fun F => (_done F, _watchers F)) <$> futures w !! f.

(** ** The generator [as_completed] and the producers *)

(** A configuration: the frame of the generator, the world, and the
    futures yielded so far. *)
Definition ac_config : Type := WEMDWorkManager.as_completed_frame * world * list positive.

(** The consumer drives the generator one step further. *)
Definition ac_next (tid : nat) (c : ac_config) : ac_config :=
  let '(k, w, Y) := c in
  match WEMDWorkManager.as_completed_step tid k w with
  | WEMDWorkManager.Yield f k' w' => (k', w', Y ++ [f])
  | WEMDWorkManager.Tau k' w' => (k', w', Y)
  | WEMDWorkManager.Wait k' w' => (k', w', Y)
  | WEMDWorkManager.Stop w' => (WEMDWorkManager.AC_exhausted, w', Y)
  | WEMDWorkManager.Fail e w' => (k, w', Y)
  end.

Fixpoint ac_run (n : nat) (tid : nat) (c : ac_config) : ac_config :=
  match n with
  | 0 => c
  | S n => ac_run n tid (ac_next tid c)
  end.

Inductive as_completed_system (tid : nat) : ac_config → ac_config → Prop :=
  | ac_producer k w w' Y :
      env_step w w' → as_completed_system tid (k, w, Y) (k, w', Y)
  | ac_consumer c :
      as_completed_system tid c (ac_next tid c).

(** The generator has left its first loop: it is at the [while] loop or
    further, where [watcher.wait()] is. *)
Definition past_first_loop (k : WEMDWorkManager.as_completed_frame) : Prop :=
  match k with
  | WEMDWorkManager.AC_start _ | WEMDWorkManager.AC_for_completed _ _ _ => False
  | _ => True
  end.

(** What holds along every run of [as_completed] over [fs] started in
    [w0].  [D] is the set of the members found Done by the snapshot, [Y2]
    are the futures yielded by the second loop. *)
Definition ac_inv (tid : nat) (fs : list positive) (w0 : world) (c : ac_config) : Prop :=
  let '(k, w, Y) := c in
  let M : gset positive := list_to_set fs in
  (∀ f, f ∈ fs → is_Some (futures w !! f))
  ∧ match k with
    | WEMDWorkManager.AC_start fs' =>
        fs' = fs ∧ Y = [] ∧ no_dangling w ∧ (∀ f, is_done f w0 → is_done f w)
    | WEMDWorkManager.AC_for_completed rest pending wid =>
        ∃ D : gset positive,
          elements D = Y ++ rest ∧ D ⊆ M ∧ (∀ f, f ∈ fs → is_done f w0 → f ∈ D)
          ∧ (∀ f, f ∈ D → is_done f w)
          ∧ pending = M ∖ D ∧ watch_inv wid 1 (elements (M ∖ D)) [] w
    | WEMDWorkManager.AC_while pending wid
    | WEMDWorkManager.AC_reset pending wid =>
        ∃ (D : gset positive) Y2,
          Y = elements D ++ Y2 ∧ D ⊆ M ∧ (∀ f, f ∈ fs → is_done f w0 → f ∈ D)
          ∧ (∀ f, f ∈ D → is_done f w)
          ∧ pending = (M ∖ D) ∖ list_to_set Y2
          ∧ watch_inv wid 1 (elements (M ∖ D)) Y2 w
    | WEMDWorkManager.AC_in_wait pending wid =>
        ∃ (D : gset positive) Y2,
          Y = elements D ++ Y2 ∧ D ⊆ M ∧ (∀ f, f ∈ fs → is_done f w0 → f ∈ D)
          ∧ (∀ f, f ∈ D → is_done f w)
          ∧ pending = (M ∖ D) ∖ list_to_set Y2
          ∧ watch_inv wid 1 (elements (M ∖ D)) Y2 w
          ∧ pending ≠ ∅
    | WEMDWorkManager.AC_for_batch rest pending wid =>
        ∃ (D : gset positive) Y2,
          Y = elements D ++ Y2 ∧ D ⊆ M ∧ (∀ f, f ∈ fs → is_done f w0 → f ∈ D)
          ∧ (∀ f, f ∈ D → is_done f w)
          ∧ pending = (M ∖ D) ∖ list_to_set Y2
          ∧ watch_inv wid 1 (elements (M ∖ D)) (Y2 ++ rest) w
    | WEMDWorkManager.AC_after_yield f rest pending wid =>
        ∃ (D : gset positive) Y2,
          Y = elements D ++ Y2 ++ [f] ∧ D ⊆ M ∧ (∀ f, f ∈ fs → is_done f w0 → f ∈ D)
          ∧ (∀ f, f ∈ D → is_done f w)
          ∧ pending = (M ∖ D) ∖ list_to_set Y2
          ∧ watch_inv wid 1 (elements (M ∖ D)) (Y2 ++ f :: rest) w
    | WEMDWorkManager.AC_exhausted =>
        ∃ D : gset positive,
          Y ≡ₚ elements M ∧ (∀ f, f ∈ fs → is_done f w0 → f ∈ D)
          ∧ ∃ Y2, Y = elements D ++ Y2
    end.

(** The number of steps the generator needs at most, running alone, once
    every member is Done; [recorded] counts the futures in the
    [completed] list of its watcher. *)
Definition recorded (wid : positive) (w : world) : nat :=
  length (completed (watchers w !!! wid)).

Definition while_cost (c : nat) : nat :=
  match c with 0 => 1 | _ => 2 * c + 4 end.

Definition ac_measure (c : ac_config) : nat :=
  let '(k, w, _) := c in
  match k with
  | WEMDWorkManager.AC_start fs => size (list_to_set fs : gset positive) + 3
  | WEMDWorkManager.AC_for_completed rest _ wid =>
      length rest + 1 + while_cost (recorded wid w)
  | WEMDWorkManager.AC_while _ wid => while_cost (recorded wid w)
  | WEMDWorkManager.AC_in_wait _ wid => 2 * recorded wid w + 4
  | WEMDWorkManager.AC_reset _ wid => 2 * recorded wid w + 3
  | WEMDWorkManager.AC_for_batch rest _ wid =>
      2 * length rest + 1 + while_cost (recorded wid w)
  | WEMDWorkManager.AC_after_yield _ rest _ wid =>
      2 * length rest + 2 + while_cost (recorded wid w)
  | WEMDWorkManager.AC_exhausted => 0
  end.

(** A world for examples: three futures, the first Done with 10; and a
    run of [as_completed] over them by thread 0, in which future 3 is
    completed while the generator waits, then future 2. *)
Definition w_three : world :=
  world_of (WMFuture._set_result 1 (PyInt 10)
    (world_of (WMFuture.__init__ (PyStr "task-3") PyNone
      (world_of (WMFuture.__init__ (PyStr "task-2") PyNone
        (world_of (WMFuture.__init__ (PyStr "task-1") PyNone empty_world))))))).

Definition ac_example_start : ac_config :=
  (WEMDWorkManager.AC_start [1; 2; 3]%positive, w_three, []).

Definition after_completion (f : positive) (v : pyval) (c : ac_config) : ac_config :=
  (fst (fst c), world_of (WMFuture._set_result f v (snd (fst c))), snd c).

Definition ac_example_waiting : ac_config := ac_run 4 0 ac_example_start.

Definition ac_example_waiting_again : ac_config :=
  ac_run 6 0 (after_completion 3 (PyInt 30) ac_example_waiting).

Definition ac_example_end : ac_config :=
  ac_run 7 0 (after_completion 2 (PyInt 20) ac_example_waiting_again).

(** [P] looks at the futures only, and no assignment to a field of a
    future breaks it. *)
Record field_invariant (P : world → Prop) : Prop := {
  fi_futures : ∀ w w', futures w = futures w' → P w → P w';
  fi_condition : ∀ f g w, P w → P (upd_future f (set_condition g) w);
  fi_done : ∀ f b w, P w → P (upd_future f (set_done b) w);
  fi_result : ∀ f v w, P w → P (upd_future f (set_result v) w);
  fi_exception : ∀ f e w, P w → P (upd_future f (set_exception e) w);
  fi_watchers : ∀ f ws w, P w → P (upd_future f (set_watchers ws) w);
  fi_callbacks : ∀ f cbs w, P w → P (upd_future f (set_update_callbacks cbs) w)
}.

(** The world after the threads [tids] called [get_result] on [self], one
    after the other. *)
Definition readers (self : positive) (tids : list nat) (w : world) : world :=
  foldl (fun w tid => world_of (WMFuture.get_result tid self w)) w tids.

(** How often [g] occurs in [l]. *)
Definition occurrences (g : positive) (l : list positive) : nat :=
  length (filter (fun x => x = g) l).

(** The call that completes [self] with the payload [o], and the world
    after the calls for the payloads [os], one after the other. *)
Definition completion_call (self : positive) (o : outcome) : M unit :=
  match o with
  | Result v => WMFuture._set_result self v
  | Failure e => WMFuture._set_exception self e
  end.

Definition completions (self : positive) (os : list outcome) (w : world) : world :=
  foldl (fun w o => world_of (completion_call self o w)) w os.

(** What the attributes [_result] and [_exception] hold after the
    assignments of the payloads [os], starting from [r] and [e]. *)
Fixpoint stored (r : pyval) (e : option exn) (os : list outcome) : pyval * option exn :=
  match os with
  | [] => (r, e)
  | Result v :: os => stored v e os
  | Failure x :: os => stored r (Some x) os
  end.

(** Properties of the store kept by every assignment the methods make:
    unlike [field_invariant], [_done] is only ever assigned [True]. *)
Record assignment_invariant (P : world → Prop) : Prop := {
  ai_futures : ∀ w w', futures w = futures w' → P w → P w';
  ai_condition : ∀ f g w, P w → P (upd_future f (set_condition g) w);
  ai_done : ∀ f w, P w → P (upd_future f (set_done true) w);
  ai_result : ∀ f v w, P w → P (upd_future f (set_result v) w);
  ai_exception : ∀ f e w, P w → P (upd_future f (set_exception e) w);
  ai_watchers : ∀ f ws w, P w → P (upd_future f (set_watchers ws) w);
  ai_callbacks : ∀ f cbs w, P w → P (upd_future f (set_update_callbacks cbs) w)
}.

(** The future [f] is in the store with the task id [t] and the attribute
    [_returned] in the state [r], and it is Done if [d] holds. *)
Definition future_kept (f : positive) (t : pyval) (r : attribute pyval) (d : bool)
    (w : world) : Prop :=
  ∃ F, futures w !! f = Some F ∧ task_id F = t ∧ _returned F = r
       ∧ (d = true → _done F = true).

(** The thread [tid] is suspended in [wait] on the event of the watcher
    [wid]. *)
Definition waiting_on (tid : nat) (wid : positive) (w : world) : Prop :=
  tid ∈ Event.waiters (event (watchers w !!! wid)).

(** The thread [tid] in [wait_any] over the futures [fs], suspended on
    its watcher [wid] or about to be resumed: the watcher, of threshold 1,
    is registered with [fs] and was never reset, and the thread is among
    the waiters of the event as long as the event is not set. *)
Definition wait_any_inv (tid : nat) (wid : positive) (fs : list positive) (w : world) : Prop :=
  watch_inv wid 1 fs [] w
  ∧ ∃ W, watchers w !! wid = Some W
      ∧ (Event.flag (event W) = false → tid ∈ Event.waiters (event W)).

(** An instance of an exception class whose instances test false, as
    of [class EmptyError(Exception)] with [__len__] returning 0. *)
Definition EmptyError : exn := MkExn "EmptyError" FromException "" false.

(** Worlds for examples: the future of [w_one] failed with [EmptyError];
    of the two futures of [w_two], the first failed with [EmptyError] and
    the second completed with 20; one pending future with the callbacks
    [cb_interrupt] and [cb_quiet] and one watcher of threshold 1. *)
Definition w_one_empty : world :=
  world_of (WMFuture._set_exception 1 EmptyError w_one).

Definition w_two_empty : world :=
  world_of (WMFuture._set_result 2 (PyInt 20)
    (world_of (WMFuture._set_exception 1 EmptyError w_two))).

Definition w_interrupted : world :=
  world_of (FutureWatcher__init__ [1%positive] 1
    (world_of (WMFuture._add_callback 1 cb_quiet
      (world_of (WMFuture._add_callback 1 cb_interrupt w_one))))).

(** ** Lemmas on the store and the monad *)

Lemma world_eq (w w' : world) :
  futures w = futures w' → watchers w = watchers w' →
  invoked w = invoked w' → logged w = logged w' → w = w'.
Proof. destruct w, w'; simpl; intros; subst; reflexivity. Qed.

Lemma upd_future_upd_future f g h w :
  upd_future f g (upd_future f h w) = upd_future f (g ∘ h) w.
Proof. unfold upd_future; simpl. f_equal. apply alter_alter_eq. Qed.

Lemma upd_watcher_upd_watcher wid g h w :
  upd_watcher wid g (upd_watcher wid h w) = upd_watcher wid (g ∘ h) w.
Proof. unfold upd_watcher; simpl. f_equal. apply alter_alter_eq. Qed.

Lemma upd_future_ext f g h w :
  (∀ F, futures w !! f = Some F → g F = h F) → upd_future f g w = upd_future f h w.
Proof. intros H. unfold upd_future. f_equal. apply alter_ext. auto. Qed.

Lemma upd_watcher_ext wid g h w :
  (∀ W, watchers w !! wid = Some W → g W = h W) → upd_watcher wid g w = upd_watcher wid h w.
Proof. intros H. unfold upd_watcher. f_equal. apply alter_ext. auto. Qed.

Lemma alter_absent {A} (g : A → A) (m : gmap positive A) i :
  m !! i = None → alter g i m = m.
Proof.
  intros H. apply map_eq. intros j. rewrite lookup_alter.
  case_decide; subst; rewrite ?H; reflexivity.
Qed.

Lemma upd_future_absent f g w : futures w !! f = None → upd_future f g w = w.
Proof. intros H. apply world_eq; simpl; auto using alter_absent. Qed.

Lemma upd_watcher_absent wid g w : watchers w !! wid = None → upd_watcher wid g w = w.
Proof. intros H. apply world_eq; simpl; auto using alter_absent. Qed.

Lemma upd_future_total f g w F :
  futures w !! f = Some F → futures (upd_future f g w) !!! f = g F.
Proof. intros H. simpl. rewrite lookup_total_alter_eq, H. reflexivity. Qed.

Lemma upd_watcher_total wid g w W :
  watchers w !! wid = Some W → watchers (upd_watcher wid g w) !!! wid = g W.
Proof. intros H. simpl. rewrite lookup_total_alter_eq, H. reflexivity. Qed.

Lemma upd_future_lookup f g w : futures (upd_future f g w) !! f = g <$> futures w !! f.
Proof. simpl. apply lookup_alter_eq. Qed.

Lemma upd_watcher_lookup wid g w :
  watchers (upd_watcher wid g w) !! wid = g <$> watchers w !! wid.
Proof. simpl. apply lookup_alter_eq. Qed.

Lemma signal_eq wid f w :
  FutureWatcher.signal wid f w = Return tt (upd_watcher wid (signalled f) w).
Proof.
  unfold FutureWatcher.signal, with_lock, mbind, M_bind, modify_watcher, read_watcher, mret, M_ret.
  destruct (watchers w !! wid) as [W|] eqn:HW.
  - rewrite upd_watcher_upd_watcher.
    erewrite upd_watcher_total by exact HW.
    destruct W as [ev lk th cs]; unfold compose; simpl.
    destruct (Z.of_nat (length (cs ++ [f])) >=? th)%Z eqn:E;
      rewrite ?upd_watcher_upd_watcher; f_equal; apply upd_watcher_ext;
      intros W'; rewrite HW; intros [= <-]; unfold signalled, compose; simpl; rewrite E; reflexivity.
  - rewrite !(upd_watcher_absent wid _ w) by exact HW.
    unfold lookup_total, map_lookup_total. rewrite HW. simpl.
    rewrite !(upd_watcher_absent wid _ w) by exact HW. reflexivity.
Qed.

Lemma reset_eq wid w W :
  watchers w !! wid = Some W →
  FutureWatcher.reset wid w = Return (completed W) (upd_watcher wid cleared w).
Proof.
  intros HW.
  unfold FutureWatcher.reset, with_lock, mbind, M_bind, modify_watcher, read_watcher, mret, M_ret.
  rewrite !upd_watcher_upd_watcher.
  erewrite upd_watcher_total by exact HW.
  reflexivity.
Qed.

Lemma signal_loop_eq l f w :
  for_each l (fun watcher => FutureWatcher.signal watcher f) w
  = Return tt {| futures := futures w; watchers := signal_list l f (watchers w);
                 invoked := invoked w; logged := logged w |}.
Proof.
  revert w. induction l as [|wid l IH]; intros w; simpl.
  - reflexivity.
  - unfold mbind, M_bind. rewrite signal_eq. rewrite IH. reflexivity.
Qed.

Lemma callbacks_loop_eq f cbs w :
  for_each cbs (fun callback =>
      try_except_Exception (call callback f) (log_exception callback_msg)) w
  = let '(inv, log, r) := run_callbacks f cbs (invoked w) (logged w) in
    let w' := {| futures := futures w; watchers := watchers w;
                 invoked := inv; logged := log |} in
    match r with None => Return tt w' | Some e => Raise e w' end.
Proof.
  revert w. induction cbs as [|cb cbs IH]; intros w; simpl.
  - reflexivity.
  - unfold mbind, M_bind, try_except_Exception, call, log_exception.
    destruct (cb_body cb f) as [e|]; simpl.
    + destruct (isinstance_Exception e); simpl.
      * rewrite IH. reflexivity.
      * reflexivity.
    + rewrite IH. reflexivity.
Qed.

Ltac unfold_M :=
  unfold with_condition, with_exit, mbind, M_bind, mret, M_ret, modify_future,
    read_future, modify_watcher, read_watcher, raise, assert.

Lemma upd_future_id f w : upd_future f (fun F => F) w = w.
Proof. apply world_eq; simpl; auto. apply alter_id. auto. Qed.

Lemma invoke_callbacks_eq self F w :
  futures w !! self = Some F →
  WMFuture._invoke_callbacks self w
  = let '(inv, log, r) := run_callbacks self (_update_callbacks F) (invoked w) (logged w) in
    match r with
    | None => Return tt {| futures := alter (set_update_callbacks []) self (futures w);
                           watchers := watchers w; invoked := inv; logged := log |}
    | Some e => Raise e {| futures := futures w; watchers := watchers w;
                           invoked := inv; logged := log |}
    end.
Proof.
  intros HF. unfold WMFuture._invoke_callbacks. unfold_M.
  erewrite upd_future_total by exact HF. simpl.
  rewrite callbacks_loop_eq. simpl.
  destruct (run_callbacks _ _ _ _) as [[inv log] [e|]]; simpl.
  - f_equal. apply world_eq; simpl; auto.
    rewrite alter_alter_eq. apply alter_id. auto.
  - f_equal. apply world_eq; simpl; auto.
    rewrite !alter_alter_eq. reflexivity.
Qed.

Lemma notify_watchers_eq self F w :
  futures w !! self = Some F →
  WMFuture._notify_watchers self w
  = if _done F
    then Return tt {| futures := alter (set_watchers ∅) self (futures w);
                      watchers := signal_all (_watchers F) self (watchers w);
                      invoked := invoked w; logged := logged w |}
    else Raise AssertionError w.
Proof.
  intros HF. unfold WMFuture._notify_watchers. unfold_M.
  erewrite upd_future_total by exact HF. simpl.
  destruct (_done F); simpl.
  - rewrite signal_loop_eq. simpl. f_equal. apply world_eq; simpl; auto.
    rewrite !alter_alter_eq. reflexivity.
  - f_equal. apply world_eq; simpl; auto.
    rewrite alter_alter_eq. apply alter_id. auto.
Qed.

Lemma complete_eq o self F w :
  futures w !! self = Some F →
  complete o self w
  = let '(inv, log, r) := run_callbacks self (_update_callbacks F) (invoked w) (logged w) in
    match r with
    | None => Return tt {| futures := <[self := completed_future o F]> (futures w);
                           watchers := signal_all (_watchers F) self (watchers w);
                           invoked := inv; logged := log |}
    | Some e => Raise e {| futures := <[self := aborted_future o F]> (futures w);
                           watchers := watchers w; invoked := inv; logged := log |}
    end.
Proof.
  intros HF. unfold complete. unfold_M. rewrite !upd_future_upd_future.
  erewrite invoke_callbacks_eq
    by (rewrite upd_future_lookup, HF; reflexivity).
  unfold compose; simpl.
  replace (_update_callbacks (store o (set_condition Condition.acquire F)))
    with (_update_callbacks F) by (destruct o; reflexivity).
  destruct (run_callbacks _ _ _ _) as [[inv log] [e|]]; simpl.
  - f_equal. apply world_eq; simpl; auto.
    rewrite alter_alter_eq. apply map_eq. intros j.
    rewrite lookup_alter, lookup_insert. case_decide; subst; auto.
    rewrite HF. destruct o; reflexivity.
  - erewrite notify_watchers_eq
      by (simpl; rewrite lookup_alter_eq, lookup_alter_eq, HF; reflexivity).
    simpl.
    replace (_watchers (store o (set_condition Condition.acquire F)))
      with (_watchers F) by (destruct o; reflexivity).
    f_equal. apply world_eq; simpl; auto.
    rewrite !alter_alter_eq. apply map_eq. intros j.
    rewrite lookup_alter, lookup_insert. case_decide; subst; auto.
    rewrite HF. destruct o; reflexivity.
Qed.

Lemma set_result_complete self v : WMFuture._set_result self v = complete (Result v) self.
Proof. reflexivity. Qed.

Lemma set_exception_complete self e :
  WMFuture._set_exception self e = complete (Failure e) self.
Proof. reflexivity. Qed.

Lemma upd_future_same f g w F :
  futures w !! f = Some F → g F = F → upd_future f g w = w.
Proof.
  intros HF Hg. apply world_eq; simpl; auto.
  apply alter_id. intros G HG. rewrite HF in HG. congruence.
Qed.

Lemma add_watcher_eq self watcher F w :
  futures w !! self = Some F →
  WMFuture._add_watcher self watcher w
  = Return tt (if _done F then upd_watcher watcher (signalled self) w
               else upd_future self (set_watchers ({[watcher]} ∪ _watchers F)) w).
Proof.
  intros HF. unfold WMFuture._add_watcher. unfold_M.
  erewrite upd_future_total by exact HF. simpl.
  destruct (_done F); simpl.
  - rewrite signal_eq. f_equal. apply world_eq; simpl; auto.
    rewrite alter_alter_eq. apply alter_id. auto.
  - f_equal. apply world_eq; simpl; auto.
    rewrite !alter_alter_eq. apply alter_ext. intros G HG.
    rewrite HF in HG. injection HG as <-. reflexivity.
Qed.

Lemma add_callback_eq self cb F w :
  futures w !! self = Some F →
  WMFuture._add_callback self cb w
  = if _done F then
      match cb_body cb self with
      | None => Return tt (called cb self w)
      | Some e => if isinstance_Exception e
                  then Return tt (with_log e (called cb self w))
                  else Raise e (called cb self w)
      end
    else Return tt (upd_future self (set_update_callbacks (_update_callbacks F ++ [cb])) w).
Proof.
  intros HF. unfold WMFuture._add_callback. unfold_M.
  erewrite upd_future_total by exact HF. simpl.
  destruct (_done F); simpl.
  - unfold try_except_Exception, call, log_exception. simpl.
    destruct (cb_body cb self) as [e|]; [destruct (isinstance_Exception e)|];
      simpl; f_equal; apply world_eq; simpl; auto;
      rewrite alter_alter_eq; apply alter_id; auto.
  - f_equal. apply world_eq; simpl; auto.
    rewrite !alter_alter_eq. apply alter_ext. intros G HG.
    rewrite HF in HG. injection HG as <-. reflexivity.
Qed.


Lemma get_result_eq tid self F w :
  futures w !! self = Some F →
  WMFuture.get_result tid self w
  = if _done F then
      match raised F with Some e => Raise e w | None => Return (_result F) w end
    else Block (OnCondition self tid (S (Condition.depth (_condition F))))
               (upd_future self (set_condition (Condition.enqueue tid)) w).
Proof.
  intros HF. unfold WMFuture.get_result, condition_wait. unfold_M.
  erewrite upd_future_total by exact HF. simpl.
  destruct (_done F); simpl.
  - unfold WMFuture.payload, raised, raise, mret, M_ret.
    destruct (_exception F) as [e|]; [destruct (exn_truth e)|];
      simpl; f_equal; apply world_eq; simpl; auto;
      rewrite alter_alter_eq; apply alter_id; auto.
  - rewrite lookup_total_alter_eq, HF. simpl.
    f_equal. apply world_eq; simpl; auto.
    rewrite !alter_alter_eq. reflexivity.
Qed.

Lemma get_result_resumed_eq saved self F w :
  futures w !! self = Some F →
  WMFuture.get_result_resumed saved self w
  = let w' := upd_future self
                (set_condition (Condition.release ∘ Condition.acquire_restore saved)) w in
    if _done F then
      match raised F with Some e => Raise e w' | None => Return (_result F) w' end
    else Raise AssertionError w'.
Proof.
  intros HF. unfold WMFuture.get_result_resumed. unfold_M.
  erewrite upd_future_total by exact HF. simpl.
  destruct (_done F); simpl.
  - unfold WMFuture.payload, raised, raise, mret, M_ret.
    destruct (_exception F) as [e|]; [destruct (exn_truth e)|];
      simpl; f_equal; apply world_eq; simpl; auto;
      rewrite alter_alter_eq; reflexivity.
  - f_equal. apply world_eq; simpl; auto. rewrite alter_alter_eq. reflexivity.
Qed.

Lemma is_done_eq self F w :
  futures w !! self = Some F → WMFuture.is_done self w = Return (_done F) w.
Proof.
  intros HF. unfold WMFuture.is_done. unfold_M.
  erewrite upd_future_total by exact HF. simpl.
  f_equal. apply world_eq; simpl; auto.
  rewrite alter_alter_eq. apply alter_id. auto.
Qed.

Lemma get_exception_eq tid self F w :
  futures w !! self = Some F → _returned F = Unbound →
  WMFuture.get_exception tid self w = Raise (AttributeError "_returned") w.
Proof.
  intros HF HR. unfold WMFuture.get_exception, WMFuture.getattr_returned. unfold_M.
  erewrite upd_future_total by exact HF. simpl. rewrite HR.
  f_equal. apply world_eq; simpl; auto.
  rewrite alter_alter_eq. apply alter_id. auto.
Qed.

Lemma signal_list_lookup_notin l f m wid :
  wid ∉ l → signal_list l f m !! wid = m !! wid.
Proof.
  revert m. induction l as [|x l IH]; intros m Hn; simpl; [reflexivity|].
  apply not_elem_of_cons in Hn as [Hne Hn].
  unfold signal_list in *. simpl. rewrite IH by exact Hn.
  apply lookup_alter_ne. congruence.
Qed.

Lemma signal_list_lookup_in l f m wid :
  NoDup l → wid ∈ l → signal_list l f m !! wid = signalled f <$> m !! wid.
Proof.
  revert m. induction l as [|x l IH]; intros m Hnd Hin; [inversion Hin|].
  apply NoDup_cons in Hnd as [Hx Hnd].
  unfold signal_list in *. simpl.
  destruct (decide (wid = x)) as [->|Hne].
  - fold (signal_list l f (alter (signalled f) x m)).
    rewrite signal_list_lookup_notin by exact Hx. apply lookup_alter_eq.
  - apply elem_of_cons in Hin as [?|Hin]; [congruence|].
    rewrite IH by assumption. rewrite lookup_alter_ne by congruence. reflexivity.
Qed.

Lemma signal_all_lookup ws f m wid :
  signal_all ws f m !! wid
  = if decide (wid ∈ ws) then signalled f <$> m !! wid else m !! wid.
Proof.
  unfold signal_all. case_decide as H.
  - apply signal_list_lookup_in; [apply NoDup_elements|]. set_solver.
  - apply signal_list_lookup_notin. set_solver.
Qed.

Lemma signal_all_empty f m : signal_all ∅ f m = m.
Proof. unfold signal_all. rewrite elements_empty. reflexivity. Qed.

(** What the well-behaved callbacks log. *)
Lemma run_callbacks_all f cbs inv log :
  Forall (raises_only_Exception f) cbs →
  run_callbacks f cbs inv log
  = (inv ++ calls_of f cbs, log ++ records_of f cbs, None).
Proof.
  intros H. revert inv log. induction H as [|cb cbs Hcb _ IH]; intros inv log; simpl.
  - rewrite !app_nil_r. reflexivity.
  - destruct (cb_body cb f) as [e|] eqn:E; simpl.
    + rewrite (Hcb e E). rewrite IH. rewrite <- !app_assoc. reflexivity.
    + rewrite IH. rewrite <- !app_assoc. reflexivity.
Qed.


(** ** Completing a future twice *)

Lemma complete_done_eq o self F w :
  futures w !! self = Some F → _done F = true → future_ok F →
  complete o self w
  = Return tt (upd_future self (set_condition Condition.notify_all ∘ store o) w).
Proof.
  intros HF Hd Hok. unfold future_ok in Hok. rewrite Hd in Hok. destruct Hok as [Hw Hc].
  rewrite (complete_eq o self F w HF). rewrite Hc, Hw. simpl.
  rewrite signal_all_empty. f_equal. apply world_eq; simpl; auto.
  apply map_eq. intros j. rewrite lookup_alter, lookup_insert.
  case_decide; subst; auto. rewrite HF. simpl. f_equal.
  unfold completed_future, compose.
  destruct o; simpl; rewrite <- Hd, <- Hw, <- Hc; reflexivity.
Qed.

Lemma run_callbacks_raised f cbs : ∀ inv log inv' log' e,
  run_callbacks f cbs inv log = (inv', log', Some e) →
  ∃ cb, cb ∈ cbs ∧ cb_body cb f = Some e ∧ isinstance_Exception e = false.
Proof.
  induction cbs as [|cb cbs IH]; intros inv log inv' log' e; simpl; [discriminate|].
  destruct (cb_body cb f) as [x|] eqn:E.
  - destruct (isinstance_Exception x) eqn:Ex.
    + intros H. destruct (IH _ _ _ _ _ H) as (cb' & Hin & Hb & Hi).
      exists cb'. split; [right; exact Hin|auto].
    + intros [= <- <- <-]. exists cb. split; [left|auto].
  - intros H. destruct (IH _ _ _ _ _ H) as (cb' & Hin & Hb & Hi).
    exists cb'. split; [right; exact Hin|auto].
Qed.

(** C1, as amended: on a future that is already Done, a second
    [_set_result] or [_set_exception] does not fail as a misuse: it runs
    the body of a first completion.  It never suspends; the only exception
    it can raise is one raised by a callback the future still holds which
    is not an instance of [Exception]; when the callbacks the future still
    holds raise only instances of [Exception], it returns normally, having
    assigned its payload over the stored one, left the future Done, woken
    the waiters of its condition, called each callback the future still
    held, signalled each watcher it still held, and emptied both
    collections.  After a completion that ran to its end the future holds
    no callback and no watcher, and the second call returns normally
    having called and signalled nothing. *)
Theorem second_completion_returns (w : world) (self : positive) (F : future_obj)
    (o : outcome) :
  futures w !! self = Some F → _done F = true →
  (∀ s w', completion_call self o w ≠ Block s w')
  ∧ (∀ e w', completion_call self o w = Raise e w' →
       ∃ cb, cb ∈ _update_callbacks F ∧ cb_body cb self = Some e
             ∧ isinstance_Exception e = false)
  ∧ (Forall (raises_only_Exception self) (_update_callbacks F) →
       completion_call self o w
       = Return tt {| futures := <[self := completed_future o F]> (futures w);
                      watchers := signal_all (_watchers F) self (watchers w);
                      invoked := invoked w ++ calls_of self (_update_callbacks F);
                      logged := logged w ++ records_of self (_update_callbacks F) |}
       ∧ _done (completed_future o F) = true)
  ∧ (future_ok F →
       completion_call self o w
       = Return tt (upd_future self (set_condition Condition.notify_all ∘ store o) w)).
Proof.
  intros HF Hd.
  assert (completion_call self o = complete o self) as ->
    by (destruct o; reflexivity).
  split; [|split; [|split]].
  - intros s w'. rewrite (complete_eq o self F w HF).
    destruct (run_callbacks _ _ _ _) as [[inv log] [e|]]; discriminate.
  - intros e w'. rewrite (complete_eq o self F w HF).
    destruct (run_callbacks _ _ _ _) as [[inv log] [x|]] eqn:E; [|discriminate].
    intros [= <- _]. exact (run_callbacks_raised _ _ _ _ _ _ _ E).
  - intros Hcbs. rewrite (complete_eq o self F w HF).
    rewrite run_callbacks_all by exact Hcbs. split; [reflexivity|].
    destruct o; reflexivity.
  - intros Hok. apply (complete_done_eq o self F w HF Hd Hok).
Qed.

Lemma second_completion_returns_witness :
  WMFuture._set_result 1 (PyInt 6) w_one_done
  = Return tt (upd_future 1 (set_condition Condition.notify_all ∘ set_result (PyInt 6))
                 w_one_done).
Proof.
  refine (proj2 (proj2 (proj2 (second_completion_returns w_one_done 1
                   (futures w_one_done !!! 1%positive) (Result (PyInt 6)) _ _))) _).
  - vm_compute. reflexivity.
  - vm_compute. reflexivity.
  - vm_compute. split; reflexivity.
Defined.

(** C1 as stated fails: the future 1 of [w_one_done] was completed by
    [_set_result(5)]; [_set_result(6)] and [_set_exception] on it return
    normally, and the stored result is then 6. *)
Lemma second_set_result_does_not_fail :
  _done (futures w_one_done !!! 1%positive) = true
  ∧ WMFuture._set_result 1 (PyInt 6) w_one_done
    = Return tt (upd_future 1 (set_result (PyInt 6)) w_one_done)
  ∧ WMFuture._set_exception 1 (Exn "ValueError" FromException "boom") w_one_done
    = Return tt (upd_future 1
                   (set_exception (Some (Exn "ValueError" FromException "boom")))
                   w_one_done).
Proof. vm_compute. repeat split; reflexivity. Qed.

(** ** Registration and notification *)

Lemma run_callbacks_returned f cbs inv log inv' log' :
  run_callbacks f cbs inv log = (inv', log', None) →
  inv' = inv ++ calls_of f cbs ∧ log' = log ++ records_of f cbs.
Proof.
  revert inv log. induction cbs as [|cb cbs IH]; intros inv log; simpl.
  - intros [= <- <-]. rewrite !app_nil_r. auto.
  - unfold records_of. simpl. destruct (cb_body cb f) as [e|]; simpl.
    + destruct (isinstance_Exception e); [|discriminate].
      intros H. apply IH in H as [-> ->]. rewrite <- !app_assoc. auto.
    + intros H. apply IH in H as [-> ->]. rewrite <- !app_assoc. auto.
Qed.

Lemma complete_returned o self F w w' :
  futures w !! self = Some F →
  complete o self w = Return tt w' →
  futures w' = <[self := completed_future o F]> (futures w)
  ∧ watchers w' = signal_all (_watchers F) self (watchers w)
  ∧ invoked w' = invoked w ++ calls_of self (_update_callbacks F)
  ∧ logged w' = logged w ++ records_of self (_update_callbacks F).
Proof.
  intros HF. rewrite (complete_eq o self F w HF).
  destruct (run_callbacks _ _ _ _) as [[inv log] [e|]] eqn:E; [discriminate|].
  intros [= <-]. simpl. apply run_callbacks_returned in E as [-> ->]. auto.
Qed.

Lemma complete_delivered o self F w :
  futures w !! self = Some F →
  Forall (raises_only_Exception self) (_update_callbacks F) →
  delivered self F w (complete o self w).
Proof.
  intros HF Hcbs. rewrite (complete_eq o self F w HF).
  rewrite run_callbacks_all by exact Hcbs.
  eexists. split; [reflexivity|]. simpl. repeat split.
  intros watcher Hin. rewrite signal_all_lookup. rewrite decide_True by exact Hin.
  reflexivity.
Qed.

(** C3: on a future that is already Done, [_add_watcher] signals the
    watcher at once, exactly once, and returns without storing it, and
    [_add_callback] calls the callback at once and does not store it; on a
    future still Pending both store the registrant, and a completion that
    runs to its end signals every stored watcher once and calls every
    stored callback once. *)
Theorem registration_never_misses (w : world) (self : positive) (F : future_obj) :
  futures w !! self = Some F →
  (_done F = true →
     (∀ watcher, WMFuture._add_watcher self watcher w
                 = Return tt (upd_watcher watcher (signalled self) w))
     ∧ (∀ cb, invoked (world_of (WMFuture._add_callback self cb w))
              = invoked w ++ [(cb_name cb, self)]
              ∧ futures (world_of (WMFuture._add_callback self cb w)) = futures w))
  ∧ (_done F = false →
     (∀ watcher, WMFuture._add_watcher self watcher w
                 = Return tt (upd_future self
                                (set_watchers ({[watcher]} ∪ _watchers F)) w))
     ∧ (∀ cb, WMFuture._add_callback self cb w
              = Return tt (upd_future self
                             (set_update_callbacks (_update_callbacks F ++ [cb])) w))
     ∧ (∀ w', (∃ v, WMFuture._set_result self v w = Return tt w')
              ∨ (∃ e, WMFuture._set_exception self e w = Return tt w') →
          invoked w' = invoked w ++ calls_of self (_update_callbacks F)
          ∧ ∀ watcher, watcher ∈ _watchers F →
              watchers w' !! watcher = signalled self <$> watchers w !! watcher)).
Proof.
  intros HF. split; intros Hd.
  - split.
    + intros watcher. rewrite (add_watcher_eq self watcher F w HF), Hd. reflexivity.
    + intros cb. rewrite (add_callback_eq self cb F w HF), Hd.
      destruct (cb_body cb self) as [e|]; [destruct (isinstance_Exception e)|];
        simpl; auto.
  - split; [|split].
    + intros watcher. rewrite (add_watcher_eq self watcher F w HF), Hd. reflexivity.
    + intros cb. rewrite (add_callback_eq self cb F w HF), Hd. reflexivity.
    + intros w' H.
      assert (∃ o, complete o self w = Return tt w') as [o Ho].
      { destruct H as [[v H]|[e H]]; [exists (Result v)|exists (Failure e)]; exact H. }
      destruct (complete_returned o self F w w' HF Ho) as (_ & Hws & Hinv & _).
      split; [exact Hinv|]. intros watcher Hin.
      rewrite Hws, signal_all_lookup, decide_True by exact Hin. reflexivity.
Qed.

Lemma registration_never_misses_witness :
  WMFuture._add_watcher 1 7 w_one_done
  = Return tt (upd_watcher 7 (signalled 1) w_one_done).
Proof.
  refine (proj1 (proj1 (registration_never_misses w_one_done 1
                          (futures w_one_done !!! 1%positive) _) _) 7%positive).
  - vm_compute. reflexivity.
  - vm_compute. reflexivity.
Defined.

(** C10, as amended: on a future that is already Done, [_add_callback]
    calls the callback at once and, when the callback raises only
    instances of [Exception], catches and logs what it raises:
    [_add_callback] returns normally. *)
Theorem add_callback_on_done_returns (w : world) (self : positive) (F : future_obj)
    (cb : callback) :
  futures w !! self = Some F → _done F = true → raises_only_Exception self cb →
  ∃ w', WMFuture._add_callback self cb w = Return tt w'
    ∧ invoked w' = invoked w ++ [(cb_name cb, self)]
    ∧ logged w' = logged w ++ records_of self [cb]
    ∧ futures w' = futures w ∧ watchers w' = watchers w.
Proof.
  intros HF Hd Hcb. rewrite (add_callback_eq self cb F w HF), Hd.
  unfold records_of. simpl.
  destruct (cb_body cb self) as [e|] eqn:E.
  - rewrite (Hcb e E). eexists. split; [reflexivity|]. simpl. auto.
  - eexists. split; [reflexivity|]. simpl. rewrite app_nil_r. auto.
Qed.

Lemma add_callback_on_done_returns_witness :
  ∃ w', WMFuture._add_callback 1 cb_boom w_one_done = Return tt w'
    ∧ invoked w' = invoked w_one_done ++ [("boom", 1%positive)]
    ∧ logged w' = logged w_one_done ++ records_of 1 [cb_boom]
    ∧ futures w' = futures w_one_done ∧ watchers w' = watchers w_one_done.
Proof.
  refine (add_callback_on_done_returns w_one_done 1
            (futures w_one_done !!! 1%positive) cb_boom _ _ _).
  - vm_compute. reflexivity.
  - vm_compute. reflexivity.
  - intros e H. injection H as <-. reflexivity.
Defined.

(** C10 as stated fails: the future 1 of [w_one_done] is Done, and
    [_add_callback] with a callback that raises KeyboardInterrupt, which
    is not an instance of [Exception], raises it to its caller. *)
Lemma add_callback_interrupt_propagates :
  WMFuture._add_callback 1 cb_interrupt w_one_done
  = Raise KeyboardInterrupt (called cb_interrupt 1 w_one_done).
Proof. vm_compute. reflexivity. Qed.

(** C6, as amended: when a completion invokes the callbacks of a future
    whose callbacks raise only instances of [Exception], an exception
    raised by one of them is caught and logged; every callback of the list
    is still called, once and in order, and every registered watcher is
    still signalled. *)
Theorem callback_exceptions_are_isolated (w : world) (self : positive) (F : future_obj) :
  futures w !! self = Some F →
  Forall (raises_only_Exception self) (_update_callbacks F) →
  (∀ v, delivered self F w (WMFuture._set_result self v w))
  ∧ (∀ e, delivered self F w (WMFuture._set_exception self e w)).
Proof.
  intros HF Hcbs. split; intros x.
  - apply (complete_delivered (Result x) self F w HF Hcbs).
  - apply (complete_delivered (Failure x) self F w HF Hcbs).
Qed.

Lemma callback_exceptions_are_isolated_witness :
  delivered 1 (futures w_observed !!! 1%positive) w_observed
    (WMFuture._set_result 1 (PyInt 5) w_observed).
Proof.
  refine (proj1 (callback_exceptions_are_isolated w_observed 1
                   (futures w_observed !!! 1%positive) _ _) (PyInt 5)).
  - vm_compute. reflexivity.
  - vm_compute. repeat constructor; intros e H; inversion H; reflexivity.
Defined.

(** What that completion did: both callbacks were called, the exception
    of the first was logged, and the watcher has the future and its event
    set. *)
Lemma callback_exceptions_are_isolated_example :
  let w' := world_of (WMFuture._set_result 1 (PyInt 5) w_observed) in
  invoked w' = [("boom", 1%positive); ("quiet", 1%positive)]
  ∧ logged w' = [(callback_msg, Exn "ValueError" FromException "boom")]
  ∧ completed (watchers w' !!! 1%positive) = [1%positive]
  ∧ Event.flag (event (watchers w' !!! 1%positive)) = true.
Proof. vm_compute. repeat split; reflexivity. Qed.

(** An exception that is not an instance of [Exception] ends the
    completion: the later callbacks and the watchers are left out. *)
Lemma completion_interrupt_propagates :
  let r := WMFuture._set_result 1 (PyInt 5)
             (world_of (WMFuture._add_callback 1 cb_interrupt w_one)) in
  (∃ w', r = Raise KeyboardInterrupt w')
  ∧ _done (futures (world_of r) !!! 1%positive) = true.
Proof. vm_compute. split; [eexists|]; reflexivity. Qed.

(** C6 as stated fails: the future 1 of [w_interrupted] holds the
    callbacks [cb_interrupt] and [cb_quiet] and the watcher 1;
    [_set_result] raises the KeyboardInterrupt of the first callback, the
    second callback is not called and the watcher is not signalled. *)
Lemma callback_interrupt_is_not_isolated :
  let r := WMFuture._set_result 1 (PyInt 5) w_interrupted in
  _update_callbacks (futures w_interrupted !!! 1%positive) = [cb_interrupt; cb_quiet]
  ∧ elements (_watchers (futures w_interrupted !!! 1%positive)) = [1%positive]
  ∧ (∃ w', r = Raise KeyboardInterrupt w')
  ∧ invoked (world_of r) = [("interrupt", 1%positive)]
  ∧ completed (watchers (world_of r) !!! 1%positive) = []
  ∧ Event.flag (event (watchers (world_of r) !!! 1%positive)) = false.
Proof. vm_compute. repeat split; try reflexivity. eexists. reflexivity. Qed.

(** ** Invariants kept by every computation *)

Section Preserves.
Context (P : world → Prop).

Lemma preserves_ret {A} (a : A) : preserves P (mret a).
Proof. intros w H. exact H. Qed.

Lemma preserves_raise {A} e : preserves P (raise e : M A).
Proof. intros w H. exact H. Qed.

Lemma preserves_bind {A B} (m : M A) (k : A → M B) :
  preserves P m → (∀ a, preserves P (k a)) → preserves P (m ≫= k).
Proof.
  intros Hm Hk w H. specialize (Hm w H). unfold mbind, M_bind.
  destruct (m w) as [a w'|e w'|s w']; simpl in *; auto. apply Hk, Hm.
Qed.

Lemma preserves_for_each {A} (l : list A) (body : A → M unit) :
  (∀ x, preserves P (body x)) → preserves P (for_each l body).
Proof.
  intros Hb. induction l as [|x l IH]; simpl.
  - apply preserves_ret.
  - apply preserves_bind; auto.
Qed.

Lemma preserves_assert b : preserves P (assert b).
Proof. destruct b; [apply preserves_ret|apply preserves_raise]. Qed.

Lemma preserves_read_future f : preserves P (read_future f).
Proof. intros w H. exact H. Qed.

Lemma preserves_read_watcher wid : preserves P (read_watcher wid).
Proof. intros w H. exact H. Qed.

Lemma preserves_if {A} (b : bool) (m1 m2 : M A) :
  preserves P m1 → preserves P m2 → preserves P (if b then m1 else m2).
Proof. destruct b; auto. Qed.

Lemma preserves_try (body : M unit) handler :
  preserves P body → (∀ e, preserves P (handler e)) →
  preserves P (try_except_Exception body handler).
Proof.
  intros Hb Hh w H. specialize (Hb w H). unfold try_except_Exception.
  destruct (body w) as [a w'|e w'|s w']; simpl in *; auto.
  destruct (isinstance_Exception e); simpl; auto. apply Hh, Hb.
Qed.

Lemma preserves_with_exit {A} f (body : M A) :
  (∀ g w, P w → P (upd_future f (set_condition g) w)) →
  preserves P body → preserves P (with_exit f body).
Proof.
  intros Hu Hb w H. specialize (Hb w H). unfold with_exit.
  destruct (body w) as [a w'|e w'|s w']; simpl in *; auto.
Qed.

Lemma preserves_with_condition {A} f (body : M A) :
  (∀ g w, P w → P (upd_future f (set_condition g) w)) →
  preserves P body → preserves P (with_condition f body).
Proof.
  intros Hu Hb. unfold with_condition. apply preserves_bind.
  - intros w H. apply Hu, H.
  - intros _. apply preserves_with_exit; auto.
Qed.

Lemma preserves_with_lock {A} wid (body : M A) :
  (∀ g w, P w → P (upd_watcher wid g w)) →
  preserves P body → preserves P (with_lock wid body).
Proof.
  intros Hu Hb w H. unfold with_lock.
  specialize (Hb _ (Hu (set_lock S) w H)).
  destruct (body _) as [a w'|e w'|s w']; simpl in *; auto.
Qed.

End Preserves.

Section FieldInvariant.
Context (P : world → Prop) (HP : field_invariant P).

Lemma fi_upd_watcher wid g w : P w → P (upd_watcher wid g w).
Proof. apply (fi_futures P HP). reflexivity. Qed.

Lemma preserves_signal wid f : preserves P (FutureWatcher.signal wid f).
Proof. intros w H. rewrite signal_eq. simpl. apply (fi_futures P HP w); auto. Qed.

Lemma preserves_reset wid : preserves P (FutureWatcher.reset wid).
Proof.
  unfold FutureWatcher.reset. apply preserves_with_lock.
  - intros g w. apply fi_upd_watcher.
  - repeat (apply preserves_bind; intros); try apply preserves_ret;
      intros w H; simpl; apply (fi_futures P HP w); auto.
Qed.

Lemma preserves_callback f cb :
  preserves P (try_except_Exception (call cb f) (log_exception callback_msg)).
Proof.
  apply preserves_try.
  - intros w H. unfold call. destruct (cb_body cb f); simpl;
      apply (fi_futures P HP w); auto.
  - intros e w H. simpl. apply (fi_futures P HP w); auto.
Qed.

Lemma preserves_invoke_callbacks f : preserves P (WMFuture._invoke_callbacks f).
Proof.
  unfold WMFuture._invoke_callbacks.
  apply preserves_with_condition; [intros; apply (fi_condition P HP); auto|].
  apply preserves_bind; [apply preserves_read_future|intros F].
  apply preserves_bind.
  - apply preserves_for_each. intros cb. apply preserves_callback.
  - intros _ w H. apply (fi_callbacks P HP); auto.
Qed.

Lemma preserves_notify_watchers f : preserves P (WMFuture._notify_watchers f).
Proof.
  unfold WMFuture._notify_watchers.
  apply preserves_with_condition; [intros; apply (fi_condition P HP); auto|].
  apply preserves_bind; [apply preserves_read_future|intros F].
  apply preserves_bind; [apply preserves_assert|intros _].
  apply preserves_bind.
  - apply preserves_for_each. intros wid. apply preserves_signal.
  - intros _ w H. apply (fi_watchers P HP); auto.
Qed.

Lemma preserves_complete o f : preserves P (complete o f).
Proof.
  unfold complete.
  apply preserves_with_condition; [intros; apply (fi_condition P HP); auto|].
  apply preserves_bind.
  { intros w H. destruct o; [apply (fi_result P HP)|apply (fi_exception P HP)]; auto. }
  intros _. apply preserves_bind; [intros w H; apply (fi_done P HP); auto|intros _].
  apply preserves_bind; [intros w H; apply (fi_condition P HP); auto|intros _].
  apply preserves_bind; [apply preserves_invoke_callbacks|intros _].
  apply preserves_notify_watchers.
Qed.

Lemma preserves_add_watcher f wid : preserves P (WMFuture._add_watcher f wid).
Proof.
  unfold WMFuture._add_watcher.
  apply preserves_with_condition; [intros; apply (fi_condition P HP); auto|].
  apply preserves_bind; [apply preserves_read_future|intros F].
  apply preserves_if; [apply preserves_signal|].
  intros w H. apply (fi_watchers P HP); auto.
Qed.

Lemma preserves_add_callback f cb : preserves P (WMFuture._add_callback f cb).
Proof.
  unfold WMFuture._add_callback.
  apply preserves_with_condition; [intros; apply (fi_condition P HP); auto|].
  apply preserves_bind; [apply preserves_read_future|intros F].
  apply preserves_if; [apply preserves_callback|].
  intros w H. apply (fi_callbacks P HP); auto.
Qed.

Lemma preserves_payload F : preserves P (WMFuture.payload F).
Proof.
  unfold WMFuture.payload. destruct (_exception F) as [e|];
    [destruct (exn_truth e); [apply preserves_raise|apply preserves_ret]
    |apply preserves_ret].
Qed.

Lemma preserves_condition_wait tid f : preserves P (condition_wait tid f).
Proof. intros w H. simpl. apply (fi_condition P HP); auto. Qed.

Lemma preserves_get_result tid f : preserves P (WMFuture.get_result tid f).
Proof.
  unfold WMFuture.get_result.
  apply preserves_with_condition; [intros; apply (fi_condition P HP); auto|].
  apply preserves_bind; [apply preserves_read_future|intros F].
  apply preserves_if; [apply preserves_payload|].
  apply preserves_bind; [apply preserves_condition_wait|intros _].
  apply preserves_bind; [apply preserves_read_future|intros F'].
  apply preserves_bind; [apply preserves_assert|intros _].
  apply preserves_payload.
Qed.

Lemma preserves_get_result_resumed saved f :
  preserves P (WMFuture.get_result_resumed saved f).
Proof.
  unfold WMFuture.get_result_resumed.
  apply preserves_with_exit; [intros; apply (fi_condition P HP); auto|].
  apply preserves_bind; [intros w H; apply (fi_condition P HP); auto|intros _].
  apply preserves_bind; [apply preserves_read_future|intros F'].
  apply preserves_bind; [apply preserves_assert|intros _].
  apply preserves_payload.
Qed.

Lemma preserves_is_done f : preserves P (WMFuture.is_done f).
Proof.
  unfold WMFuture.is_done.
  apply preserves_with_condition; [intros; apply (fi_condition P HP); auto|].
  apply preserves_bind; [apply preserves_read_future|intros F].
  apply preserves_ret.
Qed.

Lemma preserves_get_exception tid f : preserves P (WMFuture.get_exception tid f).
Proof.
  unfold WMFuture.get_exception, WMFuture.getattr_returned.
  apply preserves_with_condition; [intros; apply (fi_condition P HP); auto|].
  apply preserves_bind; [apply preserves_read_future|intros F].
  apply preserves_bind.
  { destruct (_returned F); [apply preserves_raise|apply preserves_ret]. }
  intros r. apply preserves_if; [apply preserves_ret|].
  apply preserves_bind; [apply preserves_assert|intros _].
  apply preserves_bind; [apply preserves_condition_wait|intros _].
  apply preserves_bind; [apply preserves_read_future|intros F'].
  apply preserves_ret.
Qed.

Lemma preserves_watcher_init fs t : preserves P (FutureWatcher__init__ fs t).
Proof.
  intros w H. unfold FutureWatcher__init__, new_watcher.
  eapply (preserves_bind P).
  - apply preserves_for_each. intros f. apply preserves_add_watcher.
  - intros _. apply preserves_ret.
  - apply (fi_futures P HP w); auto.
Qed.

End FieldInvariant.

(** ** The attribute [_returned] *)

Lemma no_returned_upd f g w :
  (∀ F, _returned (g F) = _returned F) → no_returned w → no_returned (upd_future f g w).
Proof.
  intros Hg H f' F'. simpl. rewrite lookup_alter. case_decide; subst.
  - destruct (futures w !! f') as [F|] eqn:E; simpl; [|discriminate].
    intros [= <-]. rewrite Hg. eauto.
  - apply H.
Qed.

Lemma no_returned_field_invariant : field_invariant no_returned.
Proof.
  split; intros; try (apply no_returned_upd; [reflexivity|assumption]).
  unfold no_returned in *. rewrite <- H. assumption.
Qed.

Lemma no_returned_init t u w : no_returned w → no_returned (world_of (WMFuture.__init__ t u w)).
Proof.
  intros H f F. simpl. rewrite lookup_insert. case_decide; subst.
  - intros [= <-]. reflexivity.
  - apply H.
Qed.

Lemma no_returned_perform op w : no_returned w → no_returned (perform op w).
Proof.
  pose proof no_returned_field_invariant as HP.
  destruct op; simpl.
  - apply no_returned_init.
  - apply (preserves_complete _ HP (Result v)).
  - apply (preserves_complete _ HP (Failure e)).
  - apply (preserves_get_result _ HP).
  - apply (preserves_get_result_resumed _ HP).
  - apply (preserves_add_watcher _ HP).
  - apply (preserves_add_callback _ HP).
  - apply (preserves_is_done _ HP).
  - apply (preserves_get_exception _ HP).
  - apply (preserves_watcher_init _ HP).
  - apply (preserves_reset _ HP).
Qed.

Lemma no_returned_perform_all ops w : no_returned w → no_returned (perform_all ops w).
Proof.
  revert w. induction ops as [|op ops IH]; intros w H; simpl; [exact H|].
  apply IH, no_returned_perform, H.
Qed.

(** C9: no operation on futures (construction, [_set_result],
    [_set_exception], [get_result], [_add_watcher], [_add_callback],
    [is_done], nor [get_exception] itself) binds the attribute [_returned]:
    in every state reached from the empty store it is unbound on every
    future, Pending or Done, and [get_exception], which reads it first,
    raises AttributeError instead of reaching its check of [_done]. *)
Theorem returned_is_never_bound (ops : list operation) (self : positive) (F : future_obj) :
  futures (perform_all ops empty_world) !! self = Some F →
  _returned F = Unbound
  ∧ ∀ tid, WMFuture.get_exception tid self (perform_all ops empty_world)
           = Raise (AttributeError "_returned") (perform_all ops empty_world).
Proof.
  intros HF.
  assert (_returned F = Unbound) as HR.
  { eapply (no_returned_perform_all ops empty_world); [|exact HF].
    intros f G. simpl. rewrite lookup_empty. discriminate. }
  split; [exact HR|]. intros tid. apply (get_exception_eq tid self F _ HF HR).
Qed.

Lemma returned_is_never_bound_witness :
  WMFuture.get_exception 0 1
    (perform_all [OpInit PyNone (PyStr "task-1"); OpSetResult 1 (PyInt 5)] empty_world)
  = Raise (AttributeError "_returned")
      (perform_all [OpInit PyNone (PyStr "task-1"); OpSetResult 1 (PyInt 5)] empty_world).
Proof.
  refine (proj2 (returned_is_never_bound
                   [OpInit PyNone (PyStr "task-1"); OpSetResult 1 (PyInt 5)] 1
                   (futures w_one_done !!! 1%positive) _) 0).
  vm_compute. reflexivity.
Defined.

(** [get_result] on the same Done future returns the stored value. *)
Lemma get_result_on_done_example :
  WMFuture.get_result 0 1 w_one_done = Return (PyInt 5) w_one_done.
Proof. vm_compute. reflexivity. Qed.

(** ** The scope [all_acquired] *)

Lemma acquire_all_returns fs w : ∃ w', WMFuture.acquire_all fs w = Return tt w'.
Proof.
  revert w. induction fs as [|f fs IH]; intros w; simpl; [eexists; reflexivity|].
  unfold mbind, M_bind, modify_future. apply IH.
Qed.

Lemma release_all_returns fs w : ∃ w', WMFuture.release_all fs w = Return tt w'.
Proof.
  revert w. induction fs as [|f fs IH]; intros w; simpl; [eexists; reflexivity|].
  unfold mbind, M_bind, modify_future. apply IH.
Qed.

(** When the body raises, [all_acquired] ends in the world the body
    ended in: nothing is released. *)
Lemma all_acquired_raise {A} fs (body : M A) w e w' :
  body (world_of (WMFuture.acquire_all fs w)) = Raise e w' →
  WMFuture.all_acquired fs body w = Raise e w'.
Proof.
  intros H. unfold WMFuture.all_acquired.
  destruct (acquire_all_returns fs w) as [w1 H1]. rewrite H1 in *. simpl in H.
  rewrite H. reflexivity.
Qed.

(** When the body returns, every lock is released. *)
Lemma all_acquired_return {A} fs (body : M A) w a w' :
  body (world_of (WMFuture.acquire_all fs w)) = Return a w' →
  WMFuture.all_acquired fs body w = Return a (world_of (WMFuture.release_all fs w')).
Proof.
  intros H. unfold WMFuture.all_acquired.
  destruct (acquire_all_returns fs w) as [w1 H1]. rewrite H1 in *. simpl in H.
  rewrite H. destruct (release_all_returns fs w') as [w2 H2]. rewrite H2. reflexivity.
Qed.

(** C5 fails on the exit by an exception: the scope over the future 1
    whose body raises leaves the lock of that future held once, whereas
    the same scope with a body that returns leaves it free. *)
Lemma all_acquired_keeps_lock_on_raise :
  held 1 w_one = 0
  ∧ WMFuture.all_acquired [1%positive] (raise (Exn "ValueError" FromException "boom") : M unit) w_one
    = Raise (Exn "ValueError" FromException "boom")
        (upd_future 1 (set_condition Condition.acquire) w_one)
  ∧ held 1 (world_of (WMFuture.all_acquired [1%positive]
              (raise (Exn "ValueError" FromException "boom") : M unit) w_one)) = 1
  ∧ held 1 (world_of (WMFuture.all_acquired [1%positive] (mret tt) w_one)) = 0.
Proof. vm_compute. repeat split; reflexivity. Qed.

(** ** Steps of the producers *)

Lemma env_step_inv w w' :
  env_step w w' →
  ∃ f F o, futures w !! f = Some F ∧ _done F = false
    ∧ futures w' = <[f := completed_future o F]> (futures w)
    ∧ watchers w' = signal_all (_watchers F) f (watchers w).
Proof.
  intros [f F o w1 w2 HF Hd Hc].
  destruct (complete_returned o f F w1 w2 HF Hc) as (Hf & Hw & _).
  exists f, F, o. auto.
Qed.

Lemma env_step_done_stays w w' f F :
  env_step w w' → futures w !! f = Some F → _done F = true → futures w' !! f = Some F.
Proof.
  intros Hs HF Hd. apply env_step_inv in Hs as (g & G & o & HG & Hgd & Hf & _).
  rewrite Hf. rewrite lookup_insert_ne; [exact HF|].
  intros ->. rewrite HF in HG. injection HG as <-. congruence.
Qed.

Lemma env_steps_done_stays w w' f F :
  rtc env_step w w' → futures w !! f = Some F → _done F = true → futures w' !! f = Some F.
Proof. induction 1; eauto using env_step_done_stays. Qed.

Lemma env_step_pending_or_done w w' f F :
  env_step w w' → futures w !! f = Some F →
  ∃ F', futures w' !! f = Some F' ∧ (_done F' = false → F' = F).
Proof.
  intros Hs HF. apply env_step_inv in Hs as (g & G & o & HG & Hgd & Hf & _).
  rewrite Hf. destruct (decide (g = f)) as [->|Hne].
  - rewrite lookup_insert_eq. eexists. split; [reflexivity|].
    destruct o; simpl; discriminate.
  - rewrite lookup_insert_ne by exact Hne. eauto.
Qed.

Lemma env_steps_pending_or_done w w' f F :
  rtc env_step w w' → futures w !! f = Some F →
  ∃ F', futures w' !! f = Some F' ∧ (_done F' = false → F' = F).
Proof.
  intros Hs. revert F. induction Hs as [w|w w1 w2 H1 _ IH]; intros F HF.
  - eauto.
  - destruct (env_step_pending_or_done w w1 f F H1 HF) as (F1 & HF1 & Hsame).
    destruct (IH F1 HF1) as (F2 & HF2 & Hsame2).
    exists F2. split; [exact HF2|]. intros Hd.
    specialize (Hsame2 Hd). subst F2. auto.
Qed.

Lemma world_ok_env_step w w' : env_step w w' → world_ok w → world_ok w'.
Proof.
  intros Hs Hok. apply env_step_inv in Hs as (g & G & o & HG & Hgd & Hf & _).
  intros f F. rewrite Hf, lookup_insert. case_decide; subst.
  - intros [= <-]. unfold future_ok. destruct o; simpl; auto.
  - apply Hok.
Qed.

Lemma world_ok_env_steps w w' : rtc env_step w w' → world_ok w → world_ok w'.
Proof. induction 1; eauto using world_ok_env_step. Qed.

(** ** Reading the result *)

Lemma get_result_after_complete o self F w w' tid :
  futures w !! self = Some F → _done F = false → future_ok F →
  complete o self w = Return tt w' →
  WMFuture.get_result tid self w' = resolution o w'.
Proof.
  intros HF Hd Hok Hc. unfold future_ok in Hok. rewrite Hd in Hok. destruct Hok as [Hr He].
  destruct (complete_returned o self F w w' HF Hc) as (Hf & _).
  assert (futures w' !! self = Some (completed_future o F)) as HF'.
  { rewrite Hf. apply lookup_insert_eq. }
  rewrite (get_result_eq tid self _ w' HF').
  destruct o as [v|e]; unfold raised; simpl; [rewrite He; reflexivity|].
  destruct (exn_truth e); [reflexivity|rewrite Hr; reflexivity].
Qed.

(** X17: a future completed by one [_set_result(v)] has [get_result]
    return [v]; completed by [_set_exception(e)], [get_result] raises [e]
    if [e] tests true, and returns [None] if it tests false; on a pending
    future [get_result] suspends its thread on the condition of the
    future, where it stays while other futures are completed, and the
    completion of the future wakes it, after which it resolves in the
    same way. *)
Theorem get_result_resolves (w : world) (self : positive) (F : future_obj) (tid : nat) :
  futures w !! self = Some F → _done F = false → future_ok F →
  let saved := S (Condition.depth (_condition F)) in
  let w1 := upd_future self (set_condition (Condition.enqueue tid)) w in
  (∀ v w', WMFuture._set_result self v w = Return tt w' →
           WMFuture.get_result tid self w' = Return v w')
  ∧ (∀ e w', WMFuture._set_exception self e w = Return tt w' →
             WMFuture.get_result tid self w'
             = if exn_truth e then Raise e w' else Return PyNone w')
  ∧ WMFuture.get_result tid self w = Block (OnCondition self tid saved) w1
  ∧ (∀ w2, rtc env_step w1 w2 → is_pending self w2 → suspended_on tid self w2)
  ∧ (∀ w2 o w3 w4,
       rtc env_step w1 w2 → is_pending self w2 →
       complete o self w2 = Return tt w3 → rtc env_step w3 w4 →
       ¬ suspended_on tid self w4
       ∧ WMFuture.get_result_resumed saved self w4 = resolution o (resumed saved self w4)).
Proof.
  intros HF Hd Hok saved w1.
  assert (futures w1 !! self = Some (set_condition (Condition.enqueue tid) F)) as HF1.
  { unfold w1. rewrite upd_future_lookup, HF. reflexivity. }
  split; [|split; [|split; [|split]]].
  - intros v w' H. apply (get_result_after_complete (Result v) self F w w' tid HF Hd Hok H).
  - intros e w' H. apply (get_result_after_complete (Failure e) self F w w' tid HF Hd Hok H).
  - rewrite (get_result_eq tid self F w HF), Hd. reflexivity.
  - intros w2 Hs (F2 & HF2 & Hd2).
    destruct (env_steps_pending_or_done _ _ self _ Hs HF1) as (F2' & HF2' & Hsame).
    rewrite HF2 in HF2'. injection HF2' as <-. specialize (Hsame Hd2). subst F2.
    unfold suspended_on. rewrite (lookup_total_correct _ _ _ HF2). simpl.
    apply elem_of_app. right. apply list_elem_of_singleton. reflexivity.
  - intros w2 o w3 w4 Hs (F2 & HF2 & Hd2) Hc Hs'.
    destruct (env_steps_pending_or_done _ _ self _ Hs HF1) as (F2' & HF2' & Hsame).
    rewrite HF2 in HF2'. injection HF2' as <-. specialize (Hsame Hd2). subst F2.
    destruct (complete_returned o self _ w2 w3 HF2 Hc) as (Hf & _).
    assert (futures w3 !! self
            = Some (completed_future o (set_condition (Condition.enqueue tid) F))) as HF3.
    { rewrite Hf. apply lookup_insert_eq. }
    assert (futures w4 !! self
            = Some (completed_future o (set_condition (Condition.enqueue tid) F))) as HF4.
    { eapply env_steps_done_stays; eauto. }
    split.
    + unfold suspended_on. rewrite (lookup_total_correct _ _ _ HF4).
      destruct o; simpl; apply not_elem_of_nil.
    + rewrite (get_result_resumed_eq saved self _ w4 HF4).
      unfold future_ok in Hok. rewrite Hd in Hok. destruct Hok as [Hr He].
      destruct o as [v|e]; unfold raised; simpl; [rewrite He; reflexivity|].
      destruct (exn_truth e); [reflexivity|rewrite Hr; reflexivity].
Qed.

Lemma get_result_resolves_witness :
  WMFuture.get_result 0 1 w_one
  = Block (OnCondition 1 0 1) (upd_future 1 (set_condition (Condition.enqueue 0)) w_one).
Proof.
  refine (proj1 (proj2 (proj2 (get_result_resolves w_one 1
            (futures w_one !!! 1%positive) 0 _ _ _)))).
  - vm_compute. reflexivity.
  - vm_compute. reflexivity.
  - vm_compute. split; reflexivity.
Defined.

(** C2 fails where the exception tests false: the future 1 of [w_one],
    pending, is completed by [_set_exception(EmptyError)]; it is then Done
    and holds the exception, and [get_result] returns [None] instead of
    raising it. *)
Theorem get_result_swallows_false_exception :
  WMFuture._set_exception 1 EmptyError w_one = Return tt w_one_empty
  ∧ _done (futures w_one_empty !!! 1%positive) = true
  ∧ _exception (futures w_one_empty !!! 1%positive) = Some EmptyError
  ∧ WMFuture.get_result 0 1 w_one_empty = Return PyNone w_one_empty.
Proof. vm_compute. repeat split; reflexivity. Qed.

(** A pending future is completed with a failure; [get_result] raises it. *)
Lemma get_result_failure_example :
  WMFuture.get_result 0 1
    (world_of (WMFuture._set_exception 1 (Exn "RuntimeError" FromException "boom") w_one))
  = Raise (Exn "RuntimeError" FromException "boom")
      (world_of (WMFuture._set_exception 1 (Exn "RuntimeError" FromException "boom") w_one)).
Proof. vm_compute. reflexivity. Qed.

(** ** [wait_all] *)

Lemma holds_result_env_step w w' f r :
  env_step w w' → holds_result w f r → holds_result w' f r.
Proof.
  intros Hs (F & HF & Hd & He & Hr). exists F. split; [|auto].
  eapply env_step_done_stays; eauto.
Qed.

Lemma holds_failure_env_step w w' f e :
  env_step w w' → holds_failure w f e → holds_failure w' f e.
Proof.
  intros Hs (F & HF & Hd & He). exists F. split; [|auto].
  eapply env_step_done_stays; eauto.
Qed.

Lemma holds_result_condition w g h f r :
  holds_result w f r → holds_result (upd_future g (set_condition h) w) f r.
Proof.
  intros (F & HF & Hd & He & Hr). simpl. unfold holds_result. simpl.
  rewrite lookup_alter. case_decide; subst.
  - rewrite HF. simpl. eexists. split; [reflexivity|]. simpl. auto.
  - eauto.
Qed.

Lemma holds_failure_condition w g h f e :
  holds_failure w f e → holds_failure (upd_future g (set_condition h) w) f e.
Proof.
  intros (F & HF & Hd & He). unfold holds_failure. simpl.
  rewrite lookup_alter. case_decide; subst.
  - rewrite HF. simpl. eexists. split; [reflexivity|]. simpl. auto.
  - eauto.
Qed.

Lemma exists_env_step w w' f :
  env_step w w' → is_Some (futures w !! f) → is_Some (futures w' !! f).
Proof.
  intros Hs [F HF]. destruct (env_step_pending_or_done w w' f F Hs HF) as (F' & HF' & _).
  eauto.
Qed.

Lemma exists_condition w g h f :
  is_Some (futures w !! f) → is_Some (futures (upd_future g (set_condition h) w) !! f).
Proof.
  intros [F HF]. simpl. rewrite lookup_alter. case_decide; subst; rewrite ?HF; simpl; eauto.
Qed.

Lemma suspended_env_step tid w w' f F :
  env_step w w' → futures w !! f = Some F →
  (_done F = false → suspended_on tid f w) →
  (_done F = true → ¬ suspended_on tid f w) →
  ∃ F', futures w' !! f = Some F'
    ∧ (_done F' = false → suspended_on tid f w')
    ∧ (_done F' = true → ¬ suspended_on tid f w').
Proof.
  intros Hs HF Hp Hd.
  pose proof Hs as Hs'.
  apply env_step_inv in Hs' as (g & G & o & HG & Hgd & Hf & _).
  destruct (decide (g = f)) as [->|Hne].
  - exists (completed_future o G). rewrite Hf, lookup_insert_eq.
    split; [reflexivity|]. split.
    + destruct o; discriminate.
    + intros _. unfold suspended_on. rewrite Hf, lookup_total_insert_eq.
      destruct o; simpl; apply not_elem_of_nil.
  - exists F. rewrite Hf, lookup_insert_ne by exact Hne. split; [exact HF|].
    unfold suspended_on in *. rewrite Hf, lookup_total_insert_ne by exact Hne. auto.
Qed.

Lemma wait_all_inv_producer tid fs t w w' :
  env_step w w' → wait_all_inv tid fs (t, w) → wait_all_inv tid fs (t, w').
Proof.
  intros Hs [Hex Ht]. split; simpl in *.
  { intros f Hf. eapply exists_env_step; eauto. }
  destruct t as [rest results|saved f rest results|results|e].
  - destruct Ht as (pre & -> & H). exists pre. split; [reflexivity|].
    eapply Forall2_impl; [exact H|]. eauto using holds_result_env_step.
  - destruct Ht as (pre & -> & H & F & HF & Hp & Hd). exists pre. split; [reflexivity|].
    split; [eapply Forall2_impl; [exact H|]; eauto using holds_result_env_step|].
    eapply suspended_env_step; eauto.
  - eapply Forall2_impl; [exact Ht|]. eauto using holds_result_env_step.
  - destruct Ht as (pre & f & post & -> & H & Hf). exists pre, f, post.
    split; [reflexivity|]. split; [|eauto using holds_failure_env_step].
    eapply Forall_impl; [exact H|]. intros g [r Hr]. eauto using holds_result_env_step.
Qed.

Lemma wait_all_inv_thread tid fs t w :
  wait_all_inv tid fs (t, w) → wait_all_inv tid fs (wait_all_step tid t w).
Proof.
  intros [Hex Ht]. simpl in *.
  destruct t as [[|f rest] results|saved f rest results|results|e]; simpl.
  - destruct Ht as (pre & Heq & H). rewrite app_nil_r in Heq. subst pre.
    split; assumption.
  - destruct Ht as (pre & -> & H).
    destruct (Hex f) as [F HF]; [set_solver|].
    rewrite (get_result_eq tid f F w HF).
    destruct (_done F) eqn:Hd; [destruct (raised F) as [e|] eqn:He|].
    + split; [exact Hex|]. simpl. exists pre, f, rest. split; [reflexivity|].
      split; [|exists F; auto].
      clear -H. induction H; constructor; eauto.
    + split; [exact Hex|]. simpl. exists (pre ++ [f]).
      split; [rewrite <- app_assoc; reflexivity|].
      apply Forall2_app; [exact H|]. repeat constructor. exists F. auto.
    + split; simpl.
      { intros g Hg. apply exists_condition. auto. }
      exists pre. split; [reflexivity|].
      split; [eapply Forall2_impl; [exact H|]; intros; apply holds_result_condition; auto|].
      eexists. split; [rewrite lookup_alter_eq, HF; reflexivity|]. simpl.
      split; [|congruence]. intros _. unfold suspended_on. simpl.
      rewrite lookup_total_alter_eq, HF. simpl.
      apply elem_of_app. right. apply list_elem_of_singleton. reflexivity.
  - destruct Ht as (pre & -> & H & F & HF & Hp & Hd).
    case_decide as Hsus.
    { split; [exact Hex|]. simpl. exists pre. split; [reflexivity|]. split; [exact H|].
      exists F. auto. }
    assert (_done F = true) as HdF.
    { destruct (_done F); [reflexivity|]. exfalso. apply Hsus, Hp. reflexivity. }
    rewrite (get_result_resumed_eq saved f F w HF), HdF. simpl.
    destruct (raised F) as [e|] eqn:He; (split; simpl;
      [intros g Hg; apply exists_condition; auto|]).
    + exists pre, f, rest. split; [reflexivity|]. split.
      * clear -H. induction H; constructor; eauto using holds_result_condition.
      * apply holds_failure_condition. exists F. auto.
    + exists (pre ++ [f]). split; [rewrite <- app_assoc; reflexivity|].
      apply Forall2_app.
      * eapply Forall2_impl; [exact H|]. intros. apply holds_result_condition. auto.
      * repeat constructor. apply holds_result_condition. exists F. auto.
  - split; assumption.
  - split; assumption.
Qed.

Lemma wait_all_inv_reachable tid fs w0 c :
  (∀ f, f ∈ fs → is_Some (futures w0 !! f)) →
  rtc (wait_all_system tid) (WA_loop fs [], w0) c →
  wait_all_inv tid fs c.
Proof.
  intros Hex Hs. revert c Hs. apply rtc_ind_r.
  - split; [exact Hex|]. simpl. exists []. split; [reflexivity|constructor].
  - intros c1 c2 _ Hstep IH. destruct Hstep as [t w w' He|t w].
    + eapply wait_all_inv_producer; eauto.
    + apply wait_all_inv_thread. exact IH.
Qed.

Lemma wait_all_loop_done tid fs results w :
  (∀ f, f ∈ fs → is_done f w) →
  WEMDWorkManager.wait_all_loop tid fs results w = gather w fs results.
Proof.
  revert results. induction fs as [|f fs IH]; intros results Hd; simpl; [reflexivity|].
  destruct (Hd f) as (F & HF & HdF); [set_solver|].
  unfold mbind, M_bind. rewrite (get_result_eq tid f F w HF), HdF.
  rewrite (lookup_total_correct _ _ _ HF).
  destruct (raised F); [reflexivity|].
  apply IH. intros g Hg. apply Hd. set_solver.
Qed.

Lemma gather_results w fs rs acc :
  Forall2 (holds_result w) fs rs → gather w fs acc = Return (acc ++ rs) w.
Proof.
  intros H. revert acc. induction H as [|f r fs rs (F & HF & Hd & He & Hr) _ IH];
    intros acc; simpl.
  - rewrite app_nil_r. reflexivity.
  - rewrite (lookup_total_correct _ _ _ HF), He, Hr, IH, <- app_assoc. reflexivity.
Qed.

Lemma gather_failure w pre f post e acc :
  Forall (fun g => ∃ r, holds_result w g r) pre → holds_failure w f e →
  gather w (pre ++ f :: post) acc = Raise e w.
Proof.
  intros H (F & HF & Hd & He). revert acc.
  induction H as [|g pre (r & G & HG & _ & HeG & _) _ IH]; intros acc; simpl.
  - rewrite (lookup_total_correct _ _ _ HF), He. reflexivity.
  - rewrite (lookup_total_correct _ _ _ HG), HeG. apply IH.
Qed.

Lemma wait_all_run_finished n tid t w :
  wait_all_finished t → wait_all_run n tid (t, w) = (t, w).
Proof.
  intros Hf. induction n as [|n IH]; simpl; [reflexivity|].
  destruct t; simpl in *; try contradiction; exact IH.
Qed.

Lemma wait_all_run_loop tid rest results w n :
  (∀ f, f ∈ rest → is_done f w) → length rest < n →
  wait_all_finished (fst (wait_all_run n tid (WA_loop rest results, w))).
Proof.
  revert results n. induction rest as [|f rest IH]; intros results n Hd Hn.
  - destruct n as [|n]; [simpl in Hn; lia|]. simpl.
    rewrite wait_all_run_finished; simpl; exact I.
  - destruct n as [|n]; [simpl in Hn; lia|]. simpl.
    destruct (Hd f) as (F & HF & HdF); [set_solver|].
    rewrite (get_result_eq tid f F w HF), HdF.
    destruct (raised F).
    + rewrite wait_all_run_finished; simpl; exact I.
    + apply IH; [|simpl in Hn; lia]. intros g Hg. apply Hd. set_solver.
Qed.

Lemma is_done_condition w g h f :
  is_done f w → is_done f (upd_future g (set_condition h) w).
Proof.
  intros (F & HF & Hd). unfold is_done. simpl. rewrite lookup_alter.
  case_decide; subst; [rewrite HF; simpl|]; eauto.
Qed.

Lemma wait_all_progress tid fs t w :
  wait_all_inv tid fs (t, w) → (∀ f, f ∈ fs → is_done f w) →
  wait_all_finished (fst (wait_all_run (length fs + 2) tid (t, w))).
Proof.
  intros [Hex Ht] Hd. simpl in *.
  destruct t as [rest results|saved f rest results|results|e].
  - destruct Ht as (pre & -> & _). apply wait_all_run_loop.
    + intros g Hg. apply Hd. set_solver.
    + rewrite length_app. lia.
  - destruct Ht as (pre & -> & _ & F & HF & Hp & Hs).
    destruct (Hd f) as (F' & HF' & HdF); [set_solver|].
    rewrite HF in HF'. injection HF' as <-.
    replace (length (pre ++ f :: rest) + 2) with (S (length pre + length rest + 2))
      by (rewrite length_app; simpl; lia).
    simpl. rewrite decide_False by auto.
    rewrite (get_result_resumed_eq saved f F w HF), HdF. simpl.
    destruct (raised F).
    + rewrite wait_all_run_finished; simpl; exact I.
    + apply wait_all_run_loop; [|lia].
      intros g Hg. apply is_done_condition, Hd. set_solver.
  - rewrite wait_all_run_finished; simpl; exact I.
  - rewrite wait_all_run_finished; simpl; exact I.
Qed.

(** X18: [wait_all] reads the futures in the order they were supplied and
    blocks on each one that is still pending.  In every interleaving of
    the thread with the completions made by the producers: when it
    returns, every future is Done, none holds an exception that tests
    true, and the list returned holds their [_result]s in the order
    supplied; when it raises, the error is that of the first future, in
    the order supplied, which holds one that tests true; and once every
    future is Done the thread finishes.  On futures that are all Done
    [wait_all] is [gather]. *)
Theorem wait_all_in_input_order (tid : nat) (fs : list positive) (w0 : world)
    (t : wait_all_thread) (w : world) :
  (∀ f, f ∈ fs → is_Some (futures w0 !! f)) →
  rtc (wait_all_system tid) (WA_loop fs [], w0) (t, w) →
  (∀ results, t = WA_returned results →
     Forall2 (holds_result w) fs results ∧ gather w fs [] = Return results w)
  ∧ (∀ e, t = WA_raised e →
       (∃ pre f post, fs = pre ++ f :: post
          ∧ Forall (fun g => ∃ r, holds_result w g r) pre ∧ holds_failure w f e)
       ∧ gather w fs [] = Raise e w)
  ∧ ((∀ f, f ∈ fs → is_done f w) →
       wait_all_finished (fst (wait_all_run (length fs + 2) tid (t, w)))
       ∧ WEMDWorkManager.wait_all tid fs w = gather w fs []).
Proof.
  intros Hex Hs. pose proof (wait_all_inv_reachable tid fs w0 (t, w) Hex Hs) as Hinv.
  split; [|split].
  - intros results ->. destruct Hinv as [_ H]. simpl in H.
    split; [exact H|]. apply (gather_results w fs results [] H).
  - intros e ->. destruct Hinv as [_ (pre & f & post & Heq & Hpre & Hf)]. simpl in *.
    split; [eauto 10|]. rewrite Heq. apply gather_failure; assumption.
  - intros Hd. split; [apply wait_all_progress; assumption|].
    apply wait_all_loop_done. exact Hd.
Qed.

Lemma wa_thread_to tid t w c :
  wait_all_step tid t w = c → wait_all_system tid (t, w) c.
Proof. intros <-. constructor. Qed.

Lemma wa_producer_to tid t f o w w' :
  is_pending f w → complete o f w = Return tt w' →
  wait_all_system tid (t, w) (t, w').
Proof. intros (F & HF & Hd) Hc. constructor. econstructor; eauto. Qed.

(** A run: the thread is suspended on future 1, future 2 is completed
    with 20, then future 1 with 10; the thread wakes up and returns. *)
Lemma wait_all_example_run :
  rtc (wait_all_system 0) (WA_loop [1; 2]%positive [], w_two)
      (WA_returned [PyInt 10; PyInt 20], w_two_read).
Proof.
  eapply rtc_l; [apply wa_thread_to; vm_compute; reflexivity|].
  eapply rtc_l.
  { apply (wa_producer_to 0 _ 2%positive (Result (PyInt 20))).
    - eexists. split; vm_compute; reflexivity.
    - vm_compute. reflexivity. }
  eapply rtc_l.
  { apply (wa_producer_to 0 _ 1%positive (Result (PyInt 10))).
    - eexists. split; vm_compute; reflexivity.
    - vm_compute. reflexivity. }
  eapply rtc_l; [apply wa_thread_to; vm_compute; reflexivity|].
  eapply rtc_l; [apply wa_thread_to; vm_compute; reflexivity|].
  eapply rtc_l; [apply wa_thread_to; vm_compute; reflexivity|].
  apply rtc_refl.
Qed.

Lemma wait_all_in_input_order_witness :
  Forall2 (holds_result w_two_read) [1; 2]%positive [PyInt 10; PyInt 20]
  ∧ gather w_two_read [1; 2]%positive [] = Return [PyInt 10; PyInt 20] w_two_read.
Proof.
  refine (proj1 (wait_all_in_input_order 0 [1; 2]%positive w_two
                   (WA_returned [PyInt 10; PyInt 20]) w_two_read _ wait_all_example_run)
            [PyInt 10; PyInt 20] eq_refl).
  intros f Hf. apply elem_of_cons in Hf as [->|Hf].
  - vm_compute. eauto.
  - apply list_elem_of_singleton in Hf as ->. vm_compute. eauto.
Defined.

(** The first future fails and the second is still pending: [wait_all]
    raises the error of the first at once. *)
Lemma wait_all_failure_example :
  WEMDWorkManager.wait_all 0 [1; 2]%positive
    (world_of (WMFuture._set_exception 1 (Exn "RuntimeError" FromException "boom") w_two))
  = Raise (Exn "RuntimeError" FromException "boom")
      (world_of (WMFuture._set_exception 1 (Exn "RuntimeError" FromException "boom") w_two)).
Proof. vm_compute. reflexivity. Qed.

(** C8 fails where the exception tests false: of the two futures of
    [w_two_empty], both Done, the first holds the exception [EmptyError]
    and the second the result 20; [wait_all] over both returns the list
    of [None] and 20 instead of raising the exception of the first. *)
Theorem wait_all_passes_over_false_exception :
  _done (futures w_two_empty !!! 1%positive) = true
  ∧ _exception (futures w_two_empty !!! 1%positive) = Some EmptyError
  ∧ _done (futures w_two_empty !!! 2%positive) = true
  ∧ WEMDWorkManager.wait_all 0 [1; 2]%positive w_two_empty
    = Return [PyNone; PyInt 20] w_two_empty.
Proof. vm_compute. repeat split; reflexivity. Qed.

(** ** The watcher invariant *)

Lemma is_done_env_step w w' f : env_step w w' → is_done f w → is_done f w'.
Proof. intros Hs (F & HF & Hd). exists F. eauto using env_step_done_stays. Qed.

Lemma is_done_env_steps w w' f : rtc env_step w w' → is_done f w → is_done f w'.
Proof. induction 1; eauto using is_done_env_step. Qed.

Lemma signalled_flag f W t :
  threshold W = t →
  Event.flag (event W) = (Z.of_nat (length (completed W)) >=? t)%Z →
  Event.flag (event (signalled f W))
  = (Z.of_nat (length (completed (signalled f W))) >=? t)%Z.
Proof.
  intros Ht Hfl. unfold signalled. simpl. rewrite Ht.
  destruct (Z.of_nat (length (completed W ++ [f])) >=? t)%Z eqn:E; [reflexivity|].
  rewrite Hfl. rewrite length_app in E. simpl in E.
  rewrite Z.geb_leb in *. apply Z.leb_gt. apply Z.leb_gt in E. lia.
Qed.

Lemma signalled_waiters f W :
  (Event.flag (event W) = true → Event.waiters (event W) = []) →
  Event.flag (event (signalled f W)) = true → Event.waiters (event (signalled f W)) = [].
Proof.
  unfold signalled. simpl. destruct (Z.of_nat _ >=? _)%Z; simpl; auto.
Qed.

Lemma watch_inv_env_step wid t R H w w' :
  env_step w w' → watch_inv wid t R H w → watch_inv wid t R H w'.
Proof.
  intros Hs (W & HW & Ht & Hfl & Hwt & Hnd & Hmem & Hreg & Hex).
  pose proof Hs as Hs'.
  apply env_step_inv in Hs' as (g & G & o & HG & Hgd & Hf & Hws).
  assert (∀ f, is_done f w' ↔ is_done f w ∨ f = g) as Hdone.
  { intros f. unfold is_done. rewrite Hf. destruct (decide (f = g)) as [->|Hne].
    - rewrite lookup_insert_eq. split; [auto|]. intros _. eexists. split; [reflexivity|].
      destruct o; reflexivity.
    - rewrite lookup_insert_ne by congruence. split; [auto|]. intros [?|?]; congruence. }
  assert (¬ is_done g w) as Hgnd.
  { intros (G' & HG' & Hd'). congruence. }
  destruct (decide (wid ∈ _watchers G)) as [Hin|Hnin].
  - (* the watcher is signalled *)
    destruct (proj1 (Hreg g G HG) Hin) as [HgR _].
    exists (signalled g W). rewrite Hws, signal_all_lookup, decide_True, HW by exact Hin.
    split; [reflexivity|]. split; [exact Ht|].
    split; [apply signalled_flag; assumption|].
    split; [apply signalled_waiters; assumption|].
    simpl. rewrite app_assoc.
    split; [|split; [|split]].
    + apply NoDup_app. split; [exact Hnd|]. split; [|apply NoDup_singleton].
      intros x Hx Hx'. apply list_elem_of_singleton in Hx' as ->.
      apply Hmem in Hx as [_ Hx]. contradiction.
    + intros f. rewrite elem_of_app, Hmem, list_elem_of_singleton, Hdone.
      split; [intros [[? ?]| ->]; auto|]. intros [? [?|?]]; auto.
    + intros f F. rewrite Hf, lookup_insert. case_decide as Hfg; subst.
      * intros [= <-]. split; [destruct o; simpl; set_solver|].
        intros [_ Hd]. destruct o; discriminate.
      * apply Hreg.
    + intros f HfR. rewrite Hf, lookup_insert. case_decide; eauto.
  - (* the watcher is left alone *)
    assert (g ∉ R) as HgR.
    { intros HgR. apply Hnin. apply (Hreg g G HG). auto. }
    exists W. rewrite Hws, signal_all_lookup, decide_False by exact Hnin.
    split; [exact HW|]. split; [exact Ht|]. split; [exact Hfl|]. split; [exact Hwt|].
    split; [exact Hnd|]. split; [|split].
    + intros f. rewrite Hmem, Hdone. split; [intros [? ?]; auto|].
      intros [? [?| ->]]; [auto|contradiction].
    + intros f F. rewrite Hf, lookup_insert. case_decide as Hfg; subst.
      * intros [= <-]. split.
        -- intros Hx. destruct o; simpl in Hx; set_solver.
        -- intros [_ Hd]. destruct o; discriminate.
      * apply Hreg.
    + intros f HfR. rewrite Hf, lookup_insert. case_decide; eauto.
Qed.

Lemma view_is_done w w' f : view w f = view w' f → is_done f w → is_done f w'.
Proof.
  unfold view, is_done. intros Hv (F & HF & Hd). rewrite HF in Hv. simpl in Hv.
  destruct (futures w' !! f) as [F'|]; simpl in Hv; [|discriminate].
  injection Hv as Hd' _. exists F'. split; [reflexivity|congruence].
Qed.

Lemma view_upd_condition w g h f : view (upd_future g (set_condition h) w) f = view w f.
Proof.
  unfold view. simpl. rewrite lookup_alter. case_decide; subst; [|reflexivity].
  destruct (futures w !! f); reflexivity.
Qed.


Lemma watch_inv_ext wid t R H w w' :
  watchers w' !! wid = watchers w !! wid → (∀ f, view w' f = view w f) →
  watch_inv wid t R H w → watch_inv wid t R H w'.
Proof.
  intros Hws Hv (W & HW & Ht & Hfl & Hwt & Hnd & Hmem & Hreg & Hex).
  exists W. rewrite Hws. repeat (split; [assumption|]). split; [|split].
  - intros f. rewrite Hmem. split; intros [? ?]; (split; [assumption|]).
    + eapply view_is_done; [symmetry; apply Hv|assumption].
    + eapply view_is_done; [apply Hv|assumption].
  - intros f F' HF'. pose proof (Hv f) as Hvf. unfold view in Hvf. rewrite HF' in Hvf.
    destruct (futures w !! f) as [F|] eqn:HF; simpl in Hvf; [|discriminate].
    injection Hvf as -> ->. apply (Hreg f F HF).
  - intros f HfR. destruct (Hex f HfR) as [F HF].
    pose proof (Hv f) as Hvf. unfold view in Hvf. rewrite HF in Hvf.
    destruct (futures w' !! f); [eauto|discriminate].
Qed.

Lemma watch_inv_condition wid t R H w g h :
  watch_inv wid t R H w → watch_inv wid t R H (upd_future g (set_condition h) w).
Proof. apply watch_inv_ext; [reflexivity|]. intros f. apply view_upd_condition. Qed.

Lemma watch_inv_reset wid t R H w :
  (1 ≤ t)%Z → watch_inv wid t R H w →
  ∃ W, watchers w !! wid = Some W
    ∧ FutureWatcher.reset wid w = Return (completed W) (upd_watcher wid cleared w)
    ∧ watch_inv wid t R (H ++ completed W) (upd_watcher wid cleared w).
Proof.
  intros H1 (W & HW & Ht & Hfl & Hwt & Hnd & Hmem & Hreg & Hex).
  exists W. split; [exact HW|]. split; [apply reset_eq; exact HW|].
  exists (cleared W). rewrite upd_watcher_lookup, HW. split; [reflexivity|].
  split; [exact Ht|]. simpl. rewrite app_nil_r.
  split; [symmetry; rewrite Z.geb_leb; apply Z.leb_gt; lia|].
  split; [discriminate|]. auto.
Qed.

Lemma watch_inv_wait wid t R H w tid :
  watch_inv wid t R H w →
  ∃ W, watchers w !! wid = Some W
    ∧ FutureWatcher.wait tid wid w
      = (if Event.flag (event W) then Return tt w
         else Block (OnEvent wid tid) (upd_watcher wid (set_event (Event.enqueue tid)) w))
    ∧ (Event.flag (event W) = false →
       watch_inv wid t R H (upd_watcher wid (set_event (Event.enqueue tid)) w)).
Proof.
  intros (W & HW & Ht & Hfl & Hwt & Hnd & Hmem & Hreg & Hex).
  exists W. split; [exact HW|]. split.
  - unfold FutureWatcher.wait. unfold_M. rewrite (lookup_total_correct _ _ _ HW).
    destruct (Event.flag (event W)); reflexivity.
  - intros Hoff. exists (set_event (Event.enqueue tid) W).
    rewrite upd_watcher_lookup, HW.
    split; [reflexivity|]. split; [exact Ht|]. simpl.
    split; [exact Hfl|]. split; [|auto].
    rewrite Hoff. discriminate.
Qed.

Lemma watch_inv_register wid t R H w f :
  watch_inv wid t R H w → f ∉ R → is_Some (futures w !! f) →
  ∃ w', WMFuture._add_watcher f wid w = Return tt w'
    ∧ watch_inv wid t (R ++ [f]) H w'
    ∧ (∀ x, is_done x w' ↔ is_done x w)
    ∧ (∀ x, is_Some (futures w' !! x) ↔ is_Some (futures w !! x))
    ∧ (∀ x, x ≠ wid → watchers w' !! x = watchers w !! x).
Proof.
  intros (W & HW & Ht & Hfl & Hwt & Hnd & Hmem & Hreg & Hex) HfR [F HF].
  rewrite (add_watcher_eq f wid F w HF).
  assert (f ∉ H ++ completed W) as Hfresh.
  { intros Hin. apply Hmem in Hin as [? ?]. contradiction. }
  eexists. split; [reflexivity|].
  destruct (_done F) eqn:Hd.
  - split; [|split; [|split]]; [|reflexivity|reflexivity|].
    2: { intros x Hx. simpl. apply lookup_alter_ne. congruence. }
    exists (signalled f W). rewrite upd_watcher_lookup, HW.
    split; [reflexivity|]. split; [exact Ht|].
    split; [apply signalled_flag; assumption|].
    split; [apply signalled_waiters; assumption|].
    simpl. rewrite app_assoc. split; [|split; [|split]].
    + apply NoDup_app. split; [exact Hnd|]. split; [|apply NoDup_singleton].
      intros x Hx Hx'. apply list_elem_of_singleton in Hx' as ->. contradiction.
    + intros x. rewrite !elem_of_app, <- elem_of_app, Hmem, !list_elem_of_singleton.
      split; [intros [[? ?]| ->]; [auto|]|].
      * split; [auto|]. exists F. auto.
      * intros [[?| ->] ?]; auto.
    + intros x X HX. simpl in HX. rewrite (Hreg x X HX), elem_of_app, list_elem_of_singleton.
      split; [intros [? ?]; auto|]. intros [[?| ->] ?]; [auto|].
      rewrite HF in HX. injection HX as <-. congruence.
    + intros x. rewrite elem_of_app, list_elem_of_singleton. intros [?| ->]; simpl; eauto.
  - assert (∀ x, is_done x (upd_future f (set_watchers ({[wid]} ∪ _watchers F)) w)
                 ↔ is_done x w) as Hdone.
    { intros x. unfold is_done. simpl. rewrite lookup_alter. case_decide; subst.
      - rewrite HF. simpl. split; intros (G & [= <-] & HdG); simpl in *; eauto.
      - reflexivity. }
    split; [|split; [exact Hdone|split]]; [| |reflexivity].
    2: { intros x. simpl. rewrite lookup_alter. case_decide; subst; [|reflexivity].
         rewrite HF. simpl. split; eauto. }
    exists W. split; [exact HW|]. repeat (split; [assumption|]). split; [|split].
    + intros x. rewrite Hmem, Hdone, elem_of_app, list_elem_of_singleton.
      split; [intros [? ?]; auto|]. intros [[?| ->] Hx]; [auto|].
      destruct Hx as (G & HG & HdG). congruence.
    + intros x X. simpl. rewrite lookup_alter, elem_of_app, list_elem_of_singleton.
      case_decide; subst.
      * rewrite HF. simpl. intros [= <-]. simpl. split; [auto|].
        intros _. apply elem_of_union_l, elem_of_singleton. reflexivity.
      * intros HX. rewrite (Hreg x X HX). split; [intros [? ?]; auto|].
        intros [[?|?] ?]; [auto|congruence].
    + intros x. rewrite elem_of_app, list_elem_of_singleton. simpl.
      rewrite lookup_alter. case_decide; subst; [rewrite HF; simpl; eauto|].
      intros [?|?]; [auto|congruence].
Qed.

Lemma new_watcher_eq t w :
  new_watcher t w
  = (fresh (dom (watchers w)),
     {| futures := futures w;
        watchers := <[fresh (dom (watchers w)) :=
                        {| event := Event.new; lock := 0; threshold := t; completed := [] |}]>
                      (watchers w);
        invoked := invoked w; logged := logged w |}).
Proof. reflexivity. Qed.

Lemma watch_inv_new t w wid w' :
  (1 ≤ t)%Z → no_dangling w → new_watcher t w = (wid, w') →
  watch_inv wid t [] [] w'.
Proof.
  intros H1 Hnd. rewrite new_watcher_eq. intros [= <- <-].
  pose proof (is_fresh (dom (watchers w))) as Hfresh.
  eexists. split; [apply lookup_insert_eq|].
  split; [reflexivity|].
  split; [symmetry; rewrite Z.geb_leb; apply Z.leb_gt; simpl; lia|].
  split; [discriminate|]. split; [constructor|]. split; [|split].
  - intros f. split; [intros Hf; inversion Hf|intros [Hf _]; inversion Hf].
  - intros f F HF. split.
    + intros Hin. exfalso. apply Hfresh. apply (Hnd f F HF). exact Hin.
    + intros [Hf _]. inversion Hf.
  - intros f Hf. inversion Hf.
Qed.

Lemma register_all wid t H S : ∀ R w,
  watch_inv wid t R H w → NoDup S → (∀ f, f ∈ S → f ∉ R) →
  (∀ f, f ∈ S → is_Some (futures w !! f)) →
  ∃ w', for_each S (fun future => WMFuture._add_watcher future wid) w = Return tt w'
    ∧ watch_inv wid t (R ++ S) H w'
    ∧ (∀ x, is_done x w' ↔ is_done x w)
    ∧ (∀ x, is_Some (futures w' !! x) ↔ is_Some (futures w !! x))
    ∧ (∀ x, x ≠ wid → watchers w' !! x = watchers w !! x).
Proof.
  induction S as [|f S IH]; intros R w Hinv Hnd HSR Hex; simpl.
  - exists w. rewrite app_nil_r. repeat split; auto.
  - apply NoDup_cons in Hnd as [HfS Hnd].
    destruct (watch_inv_register wid t R H w f Hinv) as (w1 & Hadd & Hinv1 & Hd1 & He1 & Hw1).
    { apply HSR. apply elem_of_cons. auto. }
    { apply Hex. apply elem_of_cons. auto. }
    destruct (IH (R ++ [f]) w1 Hinv1 Hnd) as (w2 & Hloop & Hinv2 & Hd2 & He2 & Hw2).
    { intros x Hx. rewrite elem_of_app, list_elem_of_singleton.
      intros [?| ->]; [|contradiction].
      apply (HSR x); [apply elem_of_cons; auto|assumption]. }
    { intros x Hx. apply He1. apply Hex. apply elem_of_cons. auto. }
    exists w2. unfold mbind, M_bind. rewrite Hadd. split; [exact Hloop|].
    rewrite <- app_assoc in Hinv2. split; [exact Hinv2|].
    split; [intros x; rewrite Hd2; apply Hd1|].
    split; [intros x; rewrite He2; apply He1|].
    intros x Hx. rewrite Hw2 by exact Hx. apply Hw1. exact Hx.
Qed.

(** The constructor returns, and the new watcher observes [S]. *)
Lemma watcher_init_spec S t w :
  (1 ≤ t)%Z → no_dangling w → NoDup S →
  (∀ f, f ∈ S → is_Some (futures w !! f)) →
  ∃ w', FutureWatcher__init__ S t w = Return (fresh (dom (watchers w))) w'
    ∧ watch_inv (fresh (dom (watchers w))) t S [] w'
    ∧ (∀ x, is_done x w' ↔ is_done x w)
    ∧ (∀ x, is_Some (futures w' !! x) ↔ is_Some (futures w !! x))
    ∧ (∀ x, x ≠ fresh (dom (watchers w)) → watchers w' !! x = watchers w !! x).
Proof.
  intros H1 Hnd HS Hex.
  pose proof (watch_inv_new t w _ _ H1 Hnd (new_watcher_eq t w)) as Hinv.
  unfold FutureWatcher__init__. rewrite new_watcher_eq.
  set (wid := fresh (dom (watchers w))) in *.
  destruct (register_all wid t [] S [] _ Hinv HS) as (w' & Hloop & Hinv' & Hd & He & Hw).
  { intros f _ Hf. inversion Hf. }
  { exact Hex. }
  exists w'. unfold mbind, M_bind. rewrite Hloop. split; [reflexivity|].
  split; [exact Hinv'|]. split; [exact Hd|]. split; [exact He|].
  intros x Hx. rewrite Hw by exact Hx. simpl.
  apply lookup_insert_ne. congruence.
Qed.

Lemma watch_inv_system wid t R c c' :
  (1 ≤ t)%Z → watcher_system wid c c' →
  watch_inv wid t R (fst c) (snd c) → watch_inv wid t R (fst c') (snd c').
Proof.
  intros H1 [H w w' Hs|H w batch w' Hr]; simpl; intros Hinv.
  - eapply watch_inv_env_step; eauto.
  - destruct (watch_inv_reset wid t R H w H1 Hinv) as (W & HW & Heq & Hinv').
    rewrite Heq in Hr. injection Hr as <- <-. exact Hinv'.
Qed.

Lemma watch_inv_done_members wid t R H w :
  NoDup R → watch_inv wid t R H w →
  ∃ W, watchers w !! wid = Some W
    ∧ Event.flag (event W) = (Z.of_nat (length (completed W)) >=? t)%Z
    ∧ H ++ completed W ≡ₚ filter (fun f => done_in w f) R.
Proof.
  intros HR (W & HW & Ht & Hfl & Hwt & Hnd & Hmem & Hreg & Hex).
  exists W. split; [exact HW|]. split; [exact Hfl|].
  apply NoDup_Permutation; [exact Hnd|apply NoDup_filter; exact HR|].
  intros f. rewrite Hmem, list_elem_of_filter. unfold done_in. split.
  - intros [HfR (F & HF & Hd)]. rewrite (lookup_total_correct _ _ _ HF), Hd.
    split; [exact I|exact HfR].
  - intros [Hd HfR]. split; [exact HfR|]. destruct (Hex f HfR) as [F HF].
    rewrite (lookup_total_correct _ _ _ HF) in Hd. exists F. split; [exact HF|].
    destruct (_done F); [reflexivity|contradiction].
Qed.

(** C4: a watcher constructed over the distinct futures [S] with a
    threshold [t ≥ 1] has, after any completions of futures in any order
    and any resets, its event set exactly when its [completed] list has
    reached [t]; the futures recorded since the construction ([H] handed
    out by the resets, then [completed]) are the Done members of [S], each
    once, so that without a reset the event is set exactly when the number
    of Done members of [S] has reached [t]; one more signal on a set event
    leaves it set, and setting a set event changes nothing. *)
Theorem watcher_signals_at_threshold (S : list positive) (t : Z) (w0 : world) :
  (1 ≤ t)%Z → NoDup S → no_dangling w0 →
  (∀ f, f ∈ S → is_Some (futures w0 !! f)) →
  ∃ wid w1, FutureWatcher__init__ S t w0 = Return wid w1
    ∧ ∀ H w, rtc (watcher_system wid) ([], w1) (H, w) →
        ∃ W, watchers w !! wid = Some W
          ∧ Event.flag (event W) = (Z.of_nat (length (completed W)) >=? t)%Z
          ∧ H ++ completed W ≡ₚ filter (fun f => done_in w f) S
          ∧ (H = [] →
             Event.flag (event W)
             = (Z.of_nat (length (filter (fun f => done_in w f) S)) >=? t)%Z)
          ∧ (∀ f, Event.flag (event W) = true →
                  Event.flag (event (signalled f W)) = true)
          ∧ Event.set (Event.set (event W)) = Event.set (event W).
Proof.
  intros H1 HS Hnd Hex.
  destruct (watcher_init_spec S t w0 H1 Hnd HS Hex) as (w1 & Hinit & Hinv & _).
  eexists _, w1. split; [exact Hinit|]. intros H w Hrun.
  assert (watch_inv (fresh (dom (watchers w0))) t S H w) as Hinv'.
  { change H with (fst (H, w)). change w with (snd (H, w)) at 2.
    revert Hrun. generalize (H, w). apply rtc_ind_r; [exact Hinv|].
    intros c c' _ Hstep IH. eapply watch_inv_system; eauto. }
  destruct (watch_inv_done_members _ t S H w HS Hinv') as (W & HW & Hfl & Hperm).
  exists W. split; [exact HW|]. split; [exact Hfl|]. split; [exact Hperm|].
  split; [|split].
  - intros ->. simpl in Hperm. rewrite Hfl, Hperm. reflexivity.
  - intros f Hset. unfold signalled. simpl.
    destruct (Z.of_nat (length (completed W ++ [f])) >=? threshold W)%Z;
      [reflexivity|exact Hset].
  - reflexivity.
Qed.

Lemma watcher_signals_at_threshold_witness :
  ∃ wid w1, FutureWatcher__init__ [1; 2]%positive 2 w_two = Return wid w1
    ∧ ∃ W, watchers w1 !! wid = Some W
        ∧ Event.flag (event W) = (Z.of_nat (length (completed W)) >=? 2)%Z.
Proof.
  destruct (watcher_signals_at_threshold [1; 2]%positive 2 w_two)
    as (wid & w1 & Hinit & Hrun).
  - lia.
  - refine (bool_decide_unpack _ _). vm_compute. exact I.
  - refine (bool_decide_unpack _ _). vm_compute. exact I.
  - intros f Hf. apply elem_of_cons in Hf as [->|Hf].
    + vm_compute. eauto.
    + apply list_elem_of_singleton in Hf as ->. vm_compute. eauto.
  - exists wid, w1. split; [exact Hinit|].
    destruct (Hrun [] w1 (rtc_refl _ _)) as (W & HW & Hfl & _).
    exists W. split; [exact HW|exact Hfl].
Defined.

(** A watcher of threshold 2 over the futures 1 and 2: after the
    completion of 2 its event is not set; after the completion of 1 as
    well it is, and [completed] holds both in the order of completion. *)
Lemma watcher_threshold_example :
  let w1 := world_of (FutureWatcher__init__ [1; 2]%positive 2 w_two) in
  let w2 := world_of (WMFuture._set_result 2 (PyInt 20) w1) in
  let w3 := world_of (WMFuture._set_result 1 (PyInt 10) w2) in
  Event.flag (event (watchers w1 !!! 1%positive)) = false
  ∧ Event.flag (event (watchers w2 !!! 1%positive)) = false
  ∧ completed (watchers w2 !!! 1%positive) = [2%positive]
  ∧ Event.flag (event (watchers w3 !!! 1%positive)) = true
  ∧ completed (watchers w3 !!! 1%positive) = [2; 1]%positive.
Proof. vm_compute. repeat split; reflexivity. Qed.

(** ** [as_completed]: the snapshot *)

Lemma view_is_Some w w' f :
  view w' f = view w f → is_Some (futures w !! f) → is_Some (futures w' !! f).
Proof.
  unfold view. intros Hv [F HF]. rewrite HF in Hv.
  destruct (futures w' !! f); [eauto|discriminate].
Qed.

Lemma condition_loop l g w :
  ∃ w', for_each l (fun future => modify_future future (set_condition g)) w = Return tt w'
    ∧ (∀ f, view w' f = view w f) ∧ watchers w' = watchers w.
Proof.
  revert w. induction l as [|x l IH]; intros w; simpl.
  - exists w. auto.
  - unfold mbind, M_bind, modify_future.
    destruct (IH (upd_future x (set_condition g) w)) as (w' & Hl & Hv & Hw).
    exists w'. split; [exact Hl|]. split; [|exact Hw].
    intros f. rewrite Hv. apply view_upd_condition.
Qed.

Lemma done_set_spec fs w :
  (∀ f, f ∈ fs → is_Some (futures w !! f)) →
  ∃ D : gset positive, WEMDWorkManager.done_set fs w = Return D w
    ∧ ∀ f, f ∈ D ↔ f ∈ fs ∧ is_done f w.
Proof.
  induction fs as [|x fs IH]; intros Hex; simpl.
  - exists ∅. split; [reflexivity|]. intros f. split; [intros Hf|intros [Hf _]].
    + apply not_elem_of_empty in Hf. contradiction.
    + inversion Hf.
  - destruct (Hex x) as [F HF]; [apply elem_of_cons; auto|].
    destruct IH as (D & HD & Hmem); [intros f Hf; apply Hex, elem_of_cons; auto|].
    unfold mbind, M_bind. rewrite (is_done_eq x F w HF), HD.
    eexists. split; [reflexivity|]. intros f.
    destruct (_done F) eqn:Hd.
    + rewrite elem_of_union, elem_of_singleton, Hmem, elem_of_cons. split.
      * intros [->|[? ?]]; [|auto]. split; [auto|]. exists F. auto.
      * intros [[->|?] ?]; auto.
    + rewrite Hmem, elem_of_cons. split; [intros [? ?]; auto|].
      intros [[->|?] Hdone]; [|auto]. destruct Hdone as (F' & HF' & Hd'). congruence.
Qed.

Lemma no_dangling_ext w w' :
  (∀ f, view w' f = view w f) → dom (watchers w') = dom (watchers w) →
  no_dangling w → no_dangling w'.
Proof.
  intros Hv Hdom Hnd f F' HF'. specialize (Hv f). unfold view in Hv. rewrite HF' in Hv.
  destruct (futures w !! f) as [F|] eqn:HF; simpl in Hv; [|discriminate].
  injection Hv as _ ->. rewrite Hdom. apply (Hnd f F HF).
Qed.

Lemma dom_signal_list l f (m : gmap positive watcher_obj) :
  dom (signal_list l f m) = dom m.
Proof.
  revert m. induction l as [|x l IH]; intros m; simpl; [reflexivity|].
  unfold signal_list in *. simpl. rewrite IH. apply dom_alter_L.
Qed.

Lemma no_dangling_env_step w w' : env_step w w' → no_dangling w → no_dangling w'.
Proof.
  intros Hs Hnd. apply env_step_inv in Hs as (g & G & o & HG & Hgd & Hf & Hws).
  intros f F. rewrite Hf, Hws. unfold signal_all. rewrite dom_signal_list.
  rewrite lookup_insert. case_decide; subst.
  - intros [= <-]. destruct o; simpl; apply empty_subseteq.
  - apply Hnd.
Qed.

Lemma ac_start_step tid fs w0 w :
  ac_inv tid fs w0 (WEMDWorkManager.AC_start fs, w, []) →
  ∃ rest pending wid w',
    WEMDWorkManager.as_completed_step tid (WEMDWorkManager.AC_start fs) w
    = WEMDWorkManager.Tau (WEMDWorkManager.AC_for_completed rest pending wid) w'
    ∧ ac_inv tid fs w0 (WEMDWorkManager.AC_for_completed rest pending wid, w', [])
    ∧ (∀ f, is_done f w → is_done f w').
Proof.
  intros (Hex & _ & _ & Hnd & Hmono).
  set (M := list_to_set fs : gset positive).
  destruct (condition_loop (elements M) Condition.acquire w) as (wa & Hacq & Hva & Hwa).
  assert (∀ f, f ∈ fs → is_Some (futures wa !! f)) as Hexa.
  { intros f Hf. eapply view_is_Some; [apply Hva|]. auto. }
  destruct (done_set_spec fs wa Hexa) as (D & HD & HDmem).
  assert (no_dangling wa) as Hnda.
  { eapply no_dangling_ext; [exact Hva| |exact Hnd]. rewrite Hwa. reflexivity. }
  destruct (watcher_init_spec (elements (M ∖ D)) 1 wa) as (wb & Hinit & Hinv & Hdb & Heb & _).
  { lia. }
  { exact Hnda. }
  { apply NoDup_elements. }
  { intros f Hf. apply Hexa. apply elem_of_elements, elem_of_difference in Hf as [Hf _].
    apply elem_of_list_to_set in Hf. exact Hf. }
  destruct (condition_loop (elements M) Condition.release wb) as (wc & Hrel & Hvc & Hwc).
  exists (elements D), (M ∖ D), (fresh (dom (watchers wa))), wc. split; [|split].
  - unfold WEMDWorkManager.as_completed_step. fold M.
    erewrite all_acquired_return; [| unfold WMFuture.acquire_all; rewrite Hacq; simpl;
      unfold WEMDWorkManager.as_completed_snapshot, mbind, M_bind;
      rewrite HD, Hinit; reflexivity].
    unfold WMFuture.release_all. rewrite Hrel. reflexivity.
  - split.
    { intros f Hf. eapply view_is_Some; [apply Hvc|]. apply Heb. auto. }
    exists D. fold M. split; [reflexivity|]. split; [|split; [|split; [|split]]].
    + intros f Hf. apply HDmem in Hf as [Hf _]. apply elem_of_list_to_set. exact Hf.
    + intros f Hf Hd0. apply HDmem. split; [exact Hf|].
      eapply view_is_done; [symmetry; apply Hva|]. auto.
    + intros f Hf. apply HDmem in Hf as [_ Hf].
      eapply view_is_done; [symmetry; apply Hvc|]. apply Hdb. exact Hf.
    + reflexivity.
    + eapply watch_inv_ext; [rewrite Hwc; reflexivity|exact Hvc|exact Hinv].
  - intros f Hf. eapply view_is_done; [symmetry; apply Hvc|]. apply Hdb.
    eapply view_is_done; [symmetry; apply Hva|]. exact Hf.
Qed.

(** ** [as_completed]: the invariant *)

Lemma ac_inv_producer tid fs w0 k w w' Y :
  env_step w w' → ac_inv tid fs w0 (k, w, Y) → ac_inv tid fs w0 (k, w', Y).
Proof.
  intros Hs [Hex Hk]. split.
  { intros f Hf. eapply exists_env_step; eauto. }
  destruct k as [fs'|rest p wid|p wid|p wid|p wid|rest p wid|f rest p wid|]; simpl in *.
  - destruct Hk as (? & ? & Hnd & Hmono). repeat split; auto.
    + eapply no_dangling_env_step; eauto.
    + intros f Hf. eapply is_done_env_step; eauto.
  - destruct Hk as (D & ? & ? & ? & Hd & ? & Hinv). exists D. repeat split; auto.
    + intros f Hf. eapply is_done_env_step; eauto.
    + eapply watch_inv_env_step; eauto.
  - destruct Hk as (D & Y2 & ? & ? & ? & Hd & ? & Hinv). exists D, Y2. repeat split; auto.
    + intros f Hf. eapply is_done_env_step; eauto.
    + eapply watch_inv_env_step; eauto.
  - destruct Hk as (D & Y2 & ? & ? & ? & Hd & ? & Hinv & ?). exists D, Y2.
    repeat split; auto.
    + intros f Hf. eapply is_done_env_step; eauto.
    + eapply watch_inv_env_step; eauto.
  - destruct Hk as (D & Y2 & ? & ? & ? & Hd & ? & Hinv). exists D, Y2. repeat split; auto.
    + intros f Hf. eapply is_done_env_step; eauto.
    + eapply watch_inv_env_step; eauto.
  - destruct Hk as (D & Y2 & ? & ? & ? & Hd & ? & Hinv). exists D, Y2. repeat split; auto.
    + intros f Hf. eapply is_done_env_step; eauto.
    + eapply watch_inv_env_step; eauto.
  - destruct Hk as (D & Y2 & ? & ? & ? & Hd & ? & Hinv). exists D, Y2. repeat split; auto.
    + intros f' Hf. eapply is_done_env_step; eauto.
    + eapply watch_inv_env_step; eauto.
  - exact Hk.
Qed.

Lemma watch_inv_handed wid t R H w :
  watch_inv wid t R H w → NoDup H ∧ ∀ f, f ∈ H → f ∈ R.
Proof.
  intros (W & HW & Ht & Hfl & Hwt & Hnd & Hmem & Hreg & Hex).
  apply NoDup_app in Hnd as (Hnd & _ & _). split; [exact Hnd|].
  intros f Hf. apply (Hmem f). apply elem_of_app. auto.
Qed.

Lemma elements_split (M D : gset positive) :
  D ⊆ M → elements D ++ elements (M ∖ D) ≡ₚ elements M.
Proof.
  intros HD. rewrite <- elements_disj_union.
  - assert (D ∪ M ∖ D = M) as ->; [|reflexivity].
    apply set_eq. intros x. rewrite elem_of_union, elem_of_difference. split.
    + intros [Hx|[Hx _]]; [apply HD|]; exact Hx.
    + intros Hx. destruct (decide (x ∈ D)); auto.
  - apply elem_of_disjoint. intros x Hx Hx'.
    apply elem_of_difference in Hx' as [_ Hx']. contradiction.
Qed.

Lemma yielded_all (M D : gset positive) Y2 :
  D ⊆ M → NoDup Y2 → (∀ f, f ∈ Y2 → f ∈ elements (M ∖ D)) →
  (M ∖ D) ∖ list_to_set Y2 = ∅ →
  elements D ++ Y2 ≡ₚ elements M.
Proof.
  intros HD Hnd Hsub Hall. rewrite <- (elements_split M D HD).
  apply Permutation_app_head. apply NoDup_Permutation; [exact Hnd|apply NoDup_elements|].
  intros f. split; [apply Hsub|]. intros Hf. apply elem_of_elements in Hf.
  destruct (decide (f ∈ Y2)) as [|Hn]; [assumption|]. exfalso.
  assert (f ∈ (M ∖ D) ∖ list_to_set Y2) as Hin.
  { apply elem_of_difference. split; [exact Hf|]. rewrite elem_of_list_to_set. exact Hn. }
  rewrite Hall in Hin. apply not_elem_of_empty in Hin. exact Hin.
Qed.

Lemma ac_inv_consumer tid fs w0 c :
  ac_inv tid fs w0 c →
  ac_inv tid fs w0 (ac_next tid c)
  ∧ ∀ e w', WEMDWorkManager.as_completed_step tid (fst (fst c)) (snd (fst c))
            ≠ WEMDWorkManager.Fail e w'.
Proof.
  destruct c as [[k w] Y]. intros Hinv. pose proof Hinv as [Hex Hk].
  destruct k as [fs'|rest p wid|p wid|p wid|p wid|rest p wid|f rest p wid|]; simpl in Hk.
  - (* AC_start *)
    destruct Hk as (-> & -> & _).
    destruct (ac_start_step tid fs w0 w Hinv) as (rest & p & wid & w' & Hstep & Hinv' & _).
    unfold ac_next. simpl fst; simpl snd. rewrite Hstep. split; [exact Hinv'|discriminate].
  - (* AC_for_completed *)
    destruct Hk as (D & HY & HD & H0 & Hd & -> & Hw).
    destruct rest as [|f rest]; simpl; (split; [|discriminate]); split; try exact Hex.
    + exists D, []. rewrite app_nil_r in *. repeat split; auto.
      rewrite list_to_set_nil. symmetry. apply difference_empty_L.
    + exists D. rewrite <- app_assoc. repeat split; auto.
  - (* AC_while *)
    destruct Hk as (D & Y2 & -> & HD & H0 & Hd & -> & Hw).
    unfold ac_next. simpl fst; simpl snd. unfold WEMDWorkManager.as_completed_step.
    case_decide as Hp.
    + split; [|discriminate]. split; [exact Hex|]. exists D.
      destruct (watch_inv_handed _ _ _ _ _ Hw) as [Hnd Hsub].
      split; [apply yielded_all; assumption|]. split; [exact H0|eauto].
    + destruct (watch_inv_wait wid 1 _ _ w tid Hw) as (W & HW & Hwait & Hw').
      rewrite Hwait. destruct (Event.flag (event W)) eqn:Hfl.
      * split; [|discriminate]. split; [exact Hex|]. exists D, Y2. repeat split; auto.
      * split; [|discriminate]. split; [exact Hex|]. exists D, Y2. repeat split; auto.
  - (* AC_in_wait *)
    destruct Hk as (D & Y2 & -> & HD & H0 & Hd & -> & Hw & Hp).
    unfold ac_next. simpl fst; simpl snd. unfold WEMDWorkManager.as_completed_step.
    case_decide; (split; [|discriminate]); split; try exact Hex.
    + exists D, Y2. repeat split; auto.
    + exists D, Y2. repeat split; auto.
  - (* AC_reset *)
    destruct Hk as (D & Y2 & -> & HD & H0 & Hd & -> & Hw).
    destruct (watch_inv_reset wid 1 _ _ w ltac:(lia) Hw) as (W & HW & Hreset & Hw').
    unfold ac_next. simpl fst; simpl snd. unfold WEMDWorkManager.as_completed_step.
    rewrite Hreset. split; [|discriminate]. split; [exact Hex|].
    exists D, Y2. repeat split; auto.
  - (* AC_for_batch *)
    destruct Hk as (D & Y2 & -> & HD & H0 & Hd & -> & Hw).
    destruct rest as [|f rest]; simpl; (split; [|discriminate]); split; try exact Hex.
    + exists D, Y2. rewrite app_nil_r in Hw. repeat split; auto.
    + exists D, Y2. rewrite <- app_assoc. repeat split; auto.
  - (* AC_after_yield *)
    destruct Hk as (D & Y2 & -> & HD & H0 & Hd & -> & Hw).
    destruct (watch_inv_handed _ _ _ _ _ Hw) as [Hnd Hsub].
    assert (f ∈ (list_to_set fs ∖ D) ∖ list_to_set Y2) as Hin.
    { apply elem_of_difference. split.
      - apply elem_of_elements, Hsub, elem_of_app. right. apply elem_of_cons. auto.
      - rewrite elem_of_list_to_set. apply NoDup_app in Hnd as (_ & Hdis & _).
        intros HfY. apply (Hdis f HfY). apply elem_of_cons. auto. }
    unfold ac_next. simpl fst; simpl snd. unfold WEMDWorkManager.as_completed_step.
    rewrite decide_True by exact Hin.
    split; [|discriminate]. split; [exact Hex|].
    exists D, (Y2 ++ [f]). rewrite <- (app_assoc Y2 [f] rest). simpl.
    repeat split; auto.
    apply set_eq. intros x.
    rewrite !elem_of_difference, !elem_of_list_to_set, elem_of_app,
      list_elem_of_singleton, elem_of_singleton. tauto.
  - (* AC_exhausted *)
    simpl. split; [|discriminate]. split; [exact Hex|exact Hk].
Qed.

(** ** [as_completed]: progress once every member is Done *)

Lemma nil_of_no_elem {A} (l : list A) : (∀ x, x ∉ l) → l = [].
Proof.
  destruct l as [|x l]; [reflexivity|]. intros H. exfalso.
  apply (H x). apply elem_of_cons. auto.
Qed.

Lemma recorded_eq wid w W : watchers w !! wid = Some W → recorded wid w = length (completed W).
Proof. intros HW. unfold recorded. rewrite (lookup_total_correct _ _ _ HW). reflexivity. Qed.

Lemma watch_inv_pending_recorded wid (P : gset positive) H w f :
  watch_inv wid 1 (elements P) H w → f ∈ P → f ∉ H → is_done f w →
  ∃ W, watchers w !! wid = Some W ∧ completed W ≠ []
    ∧ Event.flag (event W) = true ∧ Event.waiters (event W) = [].
Proof.
  intros (W & HW & Ht & Hfl & Hwt & Hnd & Hmem & Hreg & Hex) HfP HfH Hd.
  exists W. split; [exact HW|].
  assert (f ∈ completed W) as Hin.
  { assert (f ∈ H ++ completed W) as Hin.
    { apply Hmem. split; [apply elem_of_elements; exact HfP|exact Hd]. }
    apply elem_of_app in Hin as [?|?]; [contradiction|assumption]. }
  assert (Event.flag (event W) = true) as Hset.
  { rewrite Hfl. destruct (completed W) as [|x l]; [inversion Hin|].
    simpl. rewrite Z.geb_leb. apply Z.leb_le. lia. }
  split; [|split; [exact Hset|apply Hwt, Hset]].
  intros Heq. rewrite Heq in Hin. inversion Hin.
Qed.

Lemma ac_progress tid fs w0 k w Y :
  ac_inv tid fs w0 (k, w, Y) → (∀ f, f ∈ fs → is_done f w) →
  k ≠ WEMDWorkManager.AC_exhausted →
  ac_measure (ac_next tid (k, w, Y)) < ac_measure (k, w, Y)
  ∧ (∀ f, f ∈ fs → is_done f (snd (fst (ac_next tid (k, w, Y))))).
Proof.
  intros Hinv Hall Hne. pose proof Hinv as [Hex Hk].
  destruct k as [fs'|rest p wid|p wid|p wid|p wid|rest p wid|f rest p wid|];
    simpl in Hk; [| | | | | | |contradiction].
  - (* AC_start *)
    destruct Hk as (-> & -> & Hnd & _).
    assert (ac_inv tid fs w (WEMDWorkManager.AC_start fs, w, [])) as Hinv0.
    { split; [exact Hex|]. simpl. auto. }
    destruct (ac_start_step tid fs w w Hinv0)
      as (rest & p & wid & w' & Hstep & [_ Hk'] & Hd').
    simpl in Hk'. destruct Hk' as (D & HY & HD & HDall & _ & -> & Hw).
    unfold ac_next. rewrite Hstep. simpl. split; [|auto].
    simpl in HY. subst rest.
    assert (D = list_to_set fs) as ->.
    { apply set_eq. intros x. split; [apply HD|].
      intros Hx. apply HDall; [|apply Hall]; apply elem_of_list_to_set in Hx; exact Hx. }
    destruct Hw as (W & HW & _ & _ & _ & _ & Hmem & _).
    assert (completed W = []) as Hnil.
    { apply nil_of_no_elem. intros x Hx. apply (Hmem x) in Hx as [Hx _].
      apply elem_of_elements, elem_of_difference in Hx as [? ?]. contradiction. }
    rewrite (recorded_eq _ _ _ HW), Hnil. simpl.
    change (size (list_to_set fs : gset positive))
      with (length (elements (list_to_set fs : gset positive))). lia.
  - (* AC_for_completed *)
    destruct rest as [|f rest]; simpl; (split; [lia|auto]).
  - (* AC_while *)
    destruct Hk as (D & Y2 & -> & HD & H0 & Hd & -> & Hw).
    unfold ac_next, WEMDWorkManager.as_completed_step.
    case_decide as Hp.
    + simpl. split; [|auto]. unfold while_cost. destruct (recorded wid w); lia.
    + assert (∃ f, f ∈ (list_to_set fs ∖ D) ∖ list_to_set Y2) as [f Hf].
      { apply set_choose_L. exact Hp. }
      apply elem_of_difference in Hf as [HfP HfY]. rewrite elem_of_list_to_set in HfY.
      destruct (watch_inv_pending_recorded wid _ Y2 w f Hw HfP HfY)
        as (W & HW & Hcn & Hset & _).
      { apply Hall. apply elem_of_difference in HfP as [HfM _].
        apply elem_of_list_to_set in HfM. exact HfM. }
      destruct (watch_inv_wait wid 1 _ _ w tid Hw) as (W' & HW' & Hwait & _).
      rewrite HW in HW'. injection HW' as <-. rewrite Hwait, Hset. simpl.
      split; [|auto]. rewrite (recorded_eq _ _ _ HW).
      destruct (completed W); [contradiction|]. simpl. lia.
  - (* AC_in_wait *)
    destruct Hk as (D & Y2 & -> & HD & H0 & Hd & -> & Hw & Hp).
    assert (∃ f, f ∈ (list_to_set fs ∖ D) ∖ list_to_set Y2) as [f Hf].
    { apply set_choose_L. exact Hp. }
    apply elem_of_difference in Hf as [HfP HfY]. rewrite elem_of_list_to_set in HfY.
    destruct (watch_inv_pending_recorded wid _ Y2 w f Hw HfP HfY)
      as (W & HW & Hcn & Hset & Hwt).
    { apply Hall. apply elem_of_difference in HfP as [HfM _].
      apply elem_of_list_to_set in HfM. exact HfM. }
    unfold ac_next, WEMDWorkManager.as_completed_step.
    rewrite (lookup_total_correct _ _ _ HW), Hwt.
    rewrite decide_False by apply not_elem_of_nil. simpl. split; [lia|auto].
  - (* AC_reset *)
    destruct Hk as (D & Y2 & -> & HD & H0 & Hd & -> & Hw).
    destruct (watch_inv_reset wid 1 _ _ w ltac:(lia) Hw) as (W & HW & Hreset & Hw').
    unfold ac_next, WEMDWorkManager.as_completed_step. rewrite Hreset. simpl.
    split; [|auto].
    rewrite (recorded_eq _ _ _ HW).
    erewrite recorded_eq by (rewrite upd_watcher_lookup, HW; reflexivity).
    simpl. lia.
  - (* AC_for_batch *)
    destruct rest as [|f rest]; simpl; (split; [lia|auto]).
  - (* AC_after_yield *)
    destruct Hk as (D & Y2 & -> & HD & H0 & Hd & -> & Hw).
    destruct (watch_inv_handed _ _ _ _ _ Hw) as [Hnd Hsub].
    assert (f ∈ (list_to_set fs ∖ D) ∖ list_to_set Y2) as Hin.
    { apply elem_of_difference. split.
      - apply elem_of_elements, Hsub, elem_of_app. right. apply elem_of_cons. auto.
      - rewrite elem_of_list_to_set. apply NoDup_app in Hnd as (_ & Hdis & _).
        intros HfY. apply (Hdis f HfY). apply elem_of_cons. auto. }
    unfold ac_next, WEMDWorkManager.as_completed_step.
    rewrite decide_True by exact Hin. simpl. split; [lia|auto].
Qed.

Lemma ac_next_exhausted tid w Y :
  ac_next tid (WEMDWorkManager.AC_exhausted, w, Y) = (WEMDWorkManager.AC_exhausted, w, Y).
Proof. reflexivity. Qed.

Lemma ac_run_exhausts tid fs w0 n : ∀ c,
  ac_inv tid fs w0 c → (∀ f, f ∈ fs → is_done f (snd (fst c))) →
  (ac_measure c ≤ n)%nat →
  fst (fst (ac_run n tid c)) = WEMDWorkManager.AC_exhausted.
Proof.
  induction n as [|n IH]; intros [[k w] Y] Hinv Hall Hm.
  - simpl in *. destruct k; simpl in Hm; try reflexivity; exfalso;
      unfold while_cost in Hm; try destruct (recorded _ _); lia.
  - cbn [ac_run].
    assert (k = WEMDWorkManager.AC_exhausted ∨ k ≠ WEMDWorkManager.AC_exhausted)
      as [->|Hne] by (destruct k; auto; right; discriminate).
    + rewrite ac_next_exhausted. apply IH; auto. simpl. lia.
    + destruct (ac_progress tid fs w0 k w Y Hinv Hall Hne) as [Hlt Hall'].
      apply IH; [apply ac_inv_consumer; exact Hinv|exact Hall'|lia].
Qed.

(** ** [as_completed]: what was yielded *)

Lemma yielded_nodup (M D : gset positive) Y2 :
  D ⊆ M → NoDup Y2 → (∀ f, f ∈ Y2 → f ∈ elements (M ∖ D)) →
  NoDup (elements D ++ Y2)
  ∧ ∀ f, f ∈ elements D ++ Y2 → f ∈ M.
Proof.
  intros HD Hnd Hsub. split.
  - apply NoDup_app. split; [apply NoDup_elements|]. split; [|exact Hnd].
    intros x Hx Hx'. apply Hsub in Hx'.
    apply elem_of_elements, elem_of_difference in Hx' as [_ Hx'].
    apply elem_of_elements in Hx. contradiction.
  - intros f Hf. apply elem_of_app in Hf as [Hf|Hf].
    + apply HD. apply elem_of_elements. exact Hf.
    + apply Hsub in Hf. apply elem_of_elements, elem_of_difference in Hf as [Hf _].
      exact Hf.
Qed.

Lemma ac_inv_facts tid fs w0 k w Y :
  ac_inv tid fs w0 (k, w, Y) →
  NoDup Y ∧ (∀ f, f ∈ Y → f ∈ fs)
  ∧ (past_first_loop k →
     ∃ (D : gset positive) Y2,
       Y = elements D ++ Y2 ∧ ∀ f, f ∈ fs → is_done f w0 → f ∈ D)
  ∧ (k = WEMDWorkManager.AC_exhausted → Y ≡ₚ elements (list_to_set fs : gset positive)).
Proof.
  intros [Hex Hk].
  assert (∀ (D : gset positive) Y2 H,
            D ⊆ list_to_set fs → NoDup H → (∀ f, f ∈ H → f ∈ elements (list_to_set fs ∖ D)) →
            (∀ f, f ∈ Y2 → f ∈ H) → NoDup Y2 →
            NoDup (elements D ++ Y2) ∧ ∀ f, f ∈ elements D ++ Y2 → f ∈ fs) as Hcore.
  { intros D Y2 H HD HndH HsubH HY2 HndY2.
    destruct (yielded_nodup (list_to_set fs) D Y2 HD HndY2) as [Hnd Hmem]; [auto|].
    split; [exact Hnd|]. intros f Hf. apply Hmem in Hf.
    apply elem_of_list_to_set in Hf. exact Hf. }
  destruct k as [fs'|rest p wid|p wid|p wid|p wid|rest p wid|f rest p wid|]; simpl in Hk.
  - destruct Hk as (_ & -> & _). split; [constructor|].
    split; [intros f Hf; inversion Hf|]. split; [contradiction|discriminate].
  - destruct Hk as (D & HY & HD & H0 & Hd & -> & Hw).
    pose proof (NoDup_elements D) as Hnd. rewrite HY in Hnd.
    apply NoDup_app in Hnd as (Hnd & _ & _). split; [exact Hnd|]. split.
    + intros f Hf. assert (f ∈ elements D) as Hin by (rewrite HY; apply elem_of_app; auto).
      apply elem_of_elements, HD, elem_of_list_to_set in Hin. exact Hin.
    + split; [contradiction|discriminate].
  - destruct Hk as (D & Y2 & -> & HD & H0 & Hd & -> & Hw).
    destruct (watch_inv_handed _ _ _ _ _ Hw) as [Hnd Hsub].
    destruct (Hcore D Y2 Y2 HD Hnd Hsub ltac:(auto) Hnd) as [? ?].
    split; [assumption|]. split; [assumption|]. split; [eauto|discriminate].
  - destruct Hk as (D & Y2 & -> & HD & H0 & Hd & -> & Hw & _).
    destruct (watch_inv_handed _ _ _ _ _ Hw) as [Hnd Hsub].
    destruct (Hcore D Y2 Y2 HD Hnd Hsub ltac:(auto) Hnd) as [? ?].
    split; [assumption|]. split; [assumption|]. split; [eauto|discriminate].
  - destruct Hk as (D & Y2 & -> & HD & H0 & Hd & -> & Hw).
    destruct (watch_inv_handed _ _ _ _ _ Hw) as [Hnd Hsub].
    destruct (Hcore D Y2 Y2 HD Hnd Hsub ltac:(auto) Hnd) as [? ?].
    split; [assumption|]. split; [assumption|]. split; [eauto|discriminate].
  - destruct Hk as (D & Y2 & -> & HD & H0 & Hd & -> & Hw).
    destruct (watch_inv_handed _ _ _ _ _ Hw) as [Hnd Hsub].
    destruct (Hcore D Y2 (Y2 ++ rest) HD Hnd Hsub) as [? ?].
    { intros x Hx. apply elem_of_app. auto. }
    { apply NoDup_app in Hnd as (? & _ & _). assumption. }
    split; [assumption|]. split; [assumption|]. split; [eauto|discriminate].
  - destruct Hk as (D & Y2 & -> & HD & H0 & Hd & -> & Hw).
    destruct (watch_inv_handed _ _ _ _ _ Hw) as [Hnd Hsub].
    replace (Y2 ++ f :: rest) with ((Y2 ++ [f]) ++ rest) in *
      by (rewrite <- app_assoc; reflexivity).
    destruct (Hcore D (Y2 ++ [f]) ((Y2 ++ [f]) ++ rest) HD Hnd Hsub) as [? ?].
    { intros x Hx. apply elem_of_app. auto. }
    { apply NoDup_app in Hnd as (? & _ & _). assumption. }
    split; [assumption|]. split; [assumption|]. split; [eauto|discriminate].
  - destruct Hk as (D & Hperm & H0 & Y2 & ->).
    split; [rewrite Hperm; apply NoDup_elements|]. split.
    + intros f Hf. rewrite Hperm in Hf. apply elem_of_elements, elem_of_list_to_set in Hf.
      exact Hf.
    + split; [eauto|auto].
Qed.

Lemma ac_inv_reachable tid fs w0 c :
  (∀ f, f ∈ fs → is_Some (futures w0 !! f)) → no_dangling w0 →
  rtc (as_completed_system tid) (WEMDWorkManager.AC_start fs, w0, []) c →
  ac_inv tid fs w0 c.
Proof.
  intros Hex Hnd Hs. revert c Hs. apply rtc_ind_r.
  - split; [exact Hex|]. simpl. auto.
  - intros c1 c2 _ Hstep IH. destruct Hstep as [k w w' Y He|c].
    + eapply ac_inv_producer; eauto.
    + apply ac_inv_consumer. exact IH.
Qed.

Lemma ac_inv_run tid fs w0 n : ∀ c,
  ac_inv tid fs w0 c → ac_inv tid fs w0 (ac_run n tid c).
Proof.
  induction n as [|n IH]; intros c Hinv; simpl; [exact Hinv|].
  apply IH, ac_inv_consumer, Hinv.
Qed.

(** C7: in every interleaving of the generator [as_completed] over [fs]
    with the completions made by the producers, the futures yielded so far
    are members of [fs] and none is repeated; the generator never fails;
    once it has left its first loop, which is before it first calls
    [watcher.wait()], the futures yielded begin with the futures [D] the
    snapshot found Done, among them every member that was Done at the
    call, so that whenever it blocks in [wait] these have all been
    yielded; when it is exhausted it has yielded every member exactly once;
    and once every member is Done, the generator running alone is
    exhausted after [ac_measure] steps, none of them blocked. *)
Theorem as_completed_yields_each_once (tid : nat) (fs : list positive) (w0 : world)
    (k : WEMDWorkManager.as_completed_frame) (w : world) (Y : list positive) :
  (∀ f, f ∈ fs → is_Some (futures w0 !! f)) → no_dangling w0 →
  rtc (as_completed_system tid) (WEMDWorkManager.AC_start fs, w0, []) (k, w, Y) →
  NoDup Y ∧ (∀ f, f ∈ Y → f ∈ fs)
  ∧ (∀ e w', WEMDWorkManager.as_completed_step tid k w ≠ WEMDWorkManager.Fail e w')
  ∧ (past_first_loop k →
     ∃ (D : gset positive) Y2,
       Y = elements D ++ Y2 ∧ ∀ f, f ∈ fs → is_done f w0 → f ∈ D)
  ∧ (∀ k' w', WEMDWorkManager.as_completed_step tid k w = WEMDWorkManager.Wait k' w' →
       ∀ f, f ∈ fs → is_done f w0 → f ∈ Y)
  ∧ (k = WEMDWorkManager.AC_exhausted →
     Y ≡ₚ elements (list_to_set fs : gset positive) ∧ (NoDup fs → Y ≡ₚ fs))
  ∧ ((∀ f, f ∈ fs → is_done f w) →
     let c := ac_run (ac_measure (k, w, Y)) tid (k, w, Y) in
     fst (fst c) = WEMDWorkManager.AC_exhausted
     ∧ snd c ≡ₚ elements (list_to_set fs : gset positive)).
Proof.
  intros Hex Hnd Hrun.
  pose proof (ac_inv_reachable tid fs w0 _ Hex Hnd Hrun) as Hinv.
  destruct (ac_inv_facts tid fs w0 k w Y Hinv) as (HndY & Hmem & Hfirst & Hexh).
  split; [exact HndY|]. split; [exact Hmem|].
  split; [|split; [exact Hfirst|split; [|split]]].
  - apply (ac_inv_consumer tid fs w0 (k, w, Y) Hinv).
  - intros k' w' Hstep f Hf Hd0.
    assert (past_first_loop k) as Hp.
    { destruct k as [fs'|rest p wid| | | | | |]; simpl; auto.
      - pose proof Hinv as [_ (-> & -> & _)].
        destruct (ac_start_step tid fs w0 w Hinv) as (? & ? & ? & ? & Hs & _).
        rewrite Hs in Hstep. discriminate.
      - destruct rest; simpl in Hstep; discriminate. }
    destruct (Hfirst Hp) as (D & Y2 & -> & HD).
    apply elem_of_app. left. apply elem_of_elements. auto.
  - intros Hk. split; [auto|]. intros Hfs. rewrite (Hexh Hk).
    apply elements_list_to_set. exact Hfs.
  - intros Hall c.
    assert (fst (fst c) = WEMDWorkManager.AC_exhausted) as Hc.
    { apply (ac_run_exhausts tid fs w0 _ (k, w, Y) Hinv Hall). lia. }
    split; [exact Hc|].
    pose proof (ac_inv_run tid fs w0 (ac_measure (k, w, Y)) (k, w, Y) Hinv) as Hinv'.
    fold c in Hinv'. destruct c as [[k' w'] Y']. simpl in Hc. subst k'.
    apply (ac_inv_facts tid fs w0 _ w' Y' Hinv'). reflexivity.
Qed.

Lemma ac_run_reachable tid n : ∀ c, rtc (as_completed_system tid) c (ac_run n tid c).
Proof.
  induction n as [|n IH]; intros c; simpl; [apply rtc_refl|].
  eapply rtc_l; [apply ac_consumer|apply IH].
Qed.

Lemma after_completion_reachable tid f v c :
  is_pending f (snd (fst c)) →
  (∃ w', WMFuture._set_result f v (snd (fst c)) = Return tt w') →
  rtc (as_completed_system tid) c (after_completion f v c).
Proof.
  destruct c as [[k w] Y]. simpl. intros (F & HF & Hd) [w' Hc].
  apply rtc_once. unfold after_completion. simpl. rewrite Hc. simpl.
  constructor. exact (env_complete f F (Result v) w w' HF Hd Hc).
Qed.

(** The run of the example: the generator yields 1, waits, yields 3 once
    it is completed, waits, yields 2 once it is completed, and stops. *)
Lemma as_completed_example_run :
  rtc (as_completed_system 0) ac_example_start ac_example_end
  ∧ ac_example_end
    = (WEMDWorkManager.AC_exhausted, snd (fst ac_example_end), [1; 3; 2]%positive)
  ∧ fst (fst ac_example_waiting)
    = WEMDWorkManager.AC_in_wait {[2; 3]}%positive 1%positive
  ∧ snd ac_example_waiting = [1%positive].
Proof.
  split; [|vm_compute; repeat split; reflexivity].
  eapply rtc_trans; [apply (ac_run_reachable 0 4)|].
  eapply rtc_trans.
  { apply (after_completion_reachable 0 3 (PyInt 30)).
    - eexists. split; vm_compute; reflexivity.
    - eexists. vm_compute. reflexivity. }
  eapply rtc_trans; [apply (ac_run_reachable 0 6)|].
  eapply rtc_trans.
  { apply (after_completion_reachable 0 2 (PyInt 20)).
    - eexists. split; vm_compute; reflexivity.
    - eexists. vm_compute. reflexivity. }
  apply (ac_run_reachable 0 7).
Qed.

Lemma as_completed_yields_each_once_witness :
  [1; 3; 2]%positive ≡ₚ elements (list_to_set [1; 2; 3]%positive : gset positive)
  ∧ [1; 3; 2]%positive ≡ₚ [1; 2; 3]%positive.
Proof.
  pose proof as_completed_example_run as (Hrun & Hend & _).
  rewrite Hend in Hrun.
  refine (let H := as_completed_yields_each_once 0 [1; 2; 3]%positive w_three
                     WEMDWorkManager.AC_exhausted (snd (fst ac_example_end))
                     [1; 3; 2]%positive _ _ Hrun in _).
  - destruct H as (_ & _ & _ & _ & _ & Hexh & _).
    destruct (Hexh eq_refl) as [H1 H2]. split; [exact H1|].
    apply H2. refine (bool_decide_unpack _ _). vm_compute. exact I.
  Unshelve.
  + intros f Hf. apply elem_of_cons in Hf as [->|Hf]; [vm_compute; eauto|].
    apply elem_of_cons in Hf as [->|Hf]; [vm_compute; eauto|].
    apply list_elem_of_singleton in Hf as ->. vm_compute. eauto.
  + refine (bool_decide_unpack _ _). vm_compute. exact I.
Defined.

(** * Further properties of the module *)

(** ** [wait_all] is decided by the first future that is not Done with a
       result *)

Lemma wait_all_loop_prefix tid pre rest acc rs w :
  Forall2 (holds_result w) pre rs →
  WEMDWorkManager.wait_all_loop tid (pre ++ rest) acc w
  = WEMDWorkManager.wait_all_loop tid rest (acc ++ rs) w.
Proof.
  intros H. revert acc. induction H as [|f r pre rs (F & HF & Hd & He & Hr) _ IH];
    intros acc; simpl.
  - rewrite app_nil_r. reflexivity.
  - unfold mbind, M_bind. rewrite (get_result_eq tid f F w HF), Hd, He, Hr.
    rewrite IH, <- app_assoc. reflexivity.
Qed.

(** X1: [wait_all] over [pre ++ f :: post], where [get_result] returns on
    every future of [pre]: when [f] is Done and holds an exception that
    tests true, [wait_all] raises it at once, whatever the state of the
    futures of [post], and leaves the world as it is; when [f] is Done
    otherwise (it holds no exception, or one that tests false),
    [wait_all] takes its [_result] and goes on with [post]; when [f] is
    pending, [wait_all] suspends its thread on [f], even if a future of
    [post] has failed already. *)
Theorem wait_all_first_undecided (tid : nat) (pre post : list positive) (f : positive)
    (rs : list pyval) (F : future_obj) (w : world) :
  Forall2 (holds_result w) pre rs → futures w !! f = Some F →
  WEMDWorkManager.wait_all tid (pre ++ f :: post) w
  = if _done F then
      match _exception F with
      | Some e =>
          if exn_truth e then Raise e w
          else WEMDWorkManager.wait_all_loop tid post (rs ++ [_result F]) w
      | None => WEMDWorkManager.wait_all_loop tid post (rs ++ [_result F]) w
      end
    else Block (OnCondition f tid (S (Condition.depth (_condition F))))
               (upd_future f (set_condition (Condition.enqueue tid)) w).
Proof.
  intros Hpre HF. unfold WEMDWorkManager.wait_all.
  rewrite (wait_all_loop_prefix tid pre (f :: post) [] rs w Hpre). simpl.
  unfold mbind, M_bind. rewrite (get_result_eq tid f F w HF). unfold raised.
  destruct (_done F); [destruct (_exception F) as [e|]; [destruct (exn_truth e)|]|];
    reflexivity.
Qed.

(** Future 1 of [w_two] is pending and future 2 has failed: [wait_all]
    over both blocks on future 1. *)
Lemma wait_all_first_undecided_witness :
  WEMDWorkManager.wait_all 0 [1; 2]%positive
    (world_of (WMFuture._set_exception 2 (Exn "RuntimeError" FromException "boom") w_two))
  = Block (OnCondition 1 0 1)
      (upd_future 1 (set_condition (Condition.enqueue 0))
         (world_of (WMFuture._set_exception 2 (Exn "RuntimeError" FromException "boom")
                      w_two))).
Proof.
  set (w := world_of (WMFuture._set_exception 2 (Exn "RuntimeError" FromException "boom")
                        w_two)).
  assert (futures w !! 1%positive = Some (futures w !!! 1%positive)) as HF
    by (vm_compute; reflexivity).
  exact (wait_all_first_undecided 0 [] [2%positive] 1 [] _ w (Forall2_nil_2 _ _ _) HF).
Defined.

(** ** A completion ended by a callback *)

Lemma run_callbacks_abort f pre cb post inv log e :
  Forall (raises_only_Exception f) pre →
  cb_body cb f = Some e → isinstance_Exception e = false →
  run_callbacks f (pre ++ cb :: post) inv log
  = (inv ++ calls_of f (pre ++ [cb]), log ++ records_of f pre, Some e).
Proof.
  intros Hpre Hcb He. revert inv log.
  induction Hpre as [|c pre Hc _ IH]; intros inv log; simpl.
  - rewrite Hcb, He. unfold records_of. simpl. rewrite app_nil_r. reflexivity.
  - unfold records_of. simpl. destruct (cb_body c f) as [e'|] eqn:E; simpl.
    + rewrite (Hc e' E). rewrite IH. unfold records_of. rewrite <- !app_assoc. reflexivity.
    + rewrite IH. unfold records_of. rewrite <- !app_assoc. reflexivity.
Qed.

(** X2: when a callback of the list raises an exception that is not an
    instance of [Exception], [_set_result] and [_set_exception] raise it
    to their caller: the callbacks before it and it were called, the ones
    after it were not; the future is Done with the payload, keeps its
    callback list and its watcher set, and no watcher was signalled; the
    lock of the future is released. *)
Theorem completion_ended_by_callback (w : world) (self : positive) (F : future_obj)
    (pre post : list callback) (cb : callback) (e : exn) :
  futures w !! self = Some F →
  _update_callbacks F = pre ++ cb :: post →
  Forall (raises_only_Exception self) pre →
  cb_body cb self = Some e → isinstance_Exception e = false →
  (∀ v, WMFuture._set_result self v w
        = Raise e {| futures := <[self := aborted_future (Result v) F]> (futures w);
                     watchers := watchers w;
                     invoked := invoked w ++ calls_of self (pre ++ [cb]);
                     logged := logged w ++ records_of self pre |})
  ∧ (∀ x, WMFuture._set_exception self x w
          = Raise e {| futures := <[self := aborted_future (Failure x) F]> (futures w);
                       watchers := watchers w;
                       invoked := invoked w ++ calls_of self (pre ++ [cb]);
                       logged := logged w ++ records_of self pre |})
  ∧ (∀ o, _done (aborted_future o F) = true
          ∧ _watchers (aborted_future o F) = _watchers F
          ∧ _update_callbacks (aborted_future o F) = _update_callbacks F
          ∧ Condition.depth (_condition (aborted_future o F))
            = Condition.depth (_condition F)).
Proof.
  intros HF Hcbs Hpre Hcb He.
  assert (∀ o, complete o self w
               = Raise e {| futures := <[self := aborted_future o F]> (futures w);
                            watchers := watchers w;
                            invoked := invoked w ++ calls_of self (pre ++ [cb]);
                            logged := logged w ++ records_of self pre |}) as H.
  { intros o. rewrite (complete_eq o self F w HF), Hcbs.
    rewrite (run_callbacks_abort self pre cb post _ _ e Hpre Hcb He). reflexivity. }
  split; [intros v; apply (H (Result v))|].
  split; [intros x; apply (H (Failure x))|].
  intros o. destruct o; repeat split; reflexivity.
Qed.

Lemma completion_ended_by_callback_witness :
  WMFuture._set_result 1 (PyInt 5) (world_of (WMFuture._add_callback 1 cb_quiet
     (world_of (WMFuture._add_callback 1 cb_interrupt w_observed))))
  = Raise KeyboardInterrupt
      {| futures := <[1%positive := aborted_future (Result (PyInt 5))
                        (futures (world_of (WMFuture._add_callback 1 cb_quiet
                           (world_of (WMFuture._add_callback 1 cb_interrupt w_observed))))
                         !!! 1%positive)]>
                      (futures (world_of (WMFuture._add_callback 1 cb_quiet
                         (world_of (WMFuture._add_callback 1 cb_interrupt w_observed)))));
         watchers := watchers w_observed;
         invoked := calls_of 1 ([cb_boom; cb_quiet] ++ [cb_interrupt]);
         logged := records_of 1 [cb_boom; cb_quiet] |}.
Proof.
  refine (proj1 (completion_ended_by_callback _ 1 _ [cb_boom; cb_quiet] [cb_quiet]
                   cb_interrupt KeyboardInterrupt _ _ _ _ _) (PyInt 5)).
  - vm_compute. reflexivity.
  - vm_compute. reflexivity.
  - repeat constructor; intros e H; inversion H; reflexivity.
  - reflexivity.
  - reflexivity.
Defined.

(** ** Registering twice *)

(** X3: on a pending future, registering a watcher a second time changes
    nothing, the watchers being a set: the completion signals it once.
    Registering a callback a second time stores it a second time, the
    callbacks being a list: the completion calls it twice. *)
Theorem registering_twice (w : world) (self : positive) (F : future_obj)
    (watcher : positive) (cb : callback) :
  futures w !! self = Some F → _done F = false →
  let w1 := upd_future self (set_watchers ({[watcher]} ∪ _watchers F)) w in
  let w2 := upd_future self (set_update_callbacks (_update_callbacks F ++ [cb; cb])) w in
  WMFuture._add_watcher self watcher w = Return tt w1
  ∧ WMFuture._add_watcher self watcher w1 = Return tt w1
  ∧ (∀ o w', complete o self w1 = Return tt w' →
       watchers w' !! watcher = signalled self <$> watchers w !! watcher)
  ∧ (WMFuture._add_callback self cb ;; WMFuture._add_callback self cb) w = Return tt w2
  ∧ (∀ o w', complete o self w2 = Return tt w' →
       invoked w' = invoked w ++ calls_of self (_update_callbacks F)
                    ++ [(cb_name cb, self); (cb_name cb, self)]).
Proof.
  intros HF Hd w1 w2.
  assert (futures w1 !! self = Some (set_watchers ({[watcher]} ∪ _watchers F) F)) as HF1.
  { unfold w1. rewrite upd_future_lookup, HF. reflexivity. }
  split; [rewrite (add_watcher_eq self watcher F w HF), Hd; reflexivity|].
  split; [|split; [|split]].
  - rewrite (add_watcher_eq self watcher _ w1 HF1). simpl. rewrite Hd.
    f_equal. unfold w1. rewrite upd_future_upd_future. apply upd_future_ext.
    intros G HG. unfold compose. simpl.
    replace ({[watcher]} ∪ ({[watcher]} ∪ _watchers F)) with ({[watcher]} ∪ _watchers F);
      [reflexivity|].
    apply set_eq. intros x. rewrite !elem_of_union. tauto.
  - intros o w' Hc.
    destruct (complete_returned o self _ w1 w' HF1 Hc) as (_ & Hws & _).
    rewrite Hws, signal_all_lookup. simpl.
    rewrite decide_True by (apply elem_of_union_l, elem_of_singleton; reflexivity).
    reflexivity.
  - unfold mbind, M_bind. rewrite (add_callback_eq self cb F w HF), Hd.
    erewrite add_callback_eq by (rewrite upd_future_lookup, HF; reflexivity).
    simpl. rewrite Hd. f_equal. unfold w2. rewrite upd_future_upd_future.
    apply upd_future_ext. intros G HG. unfold compose. simpl.
    rewrite <- (app_assoc (_update_callbacks F) [cb] [cb]). reflexivity.
  - intros o w' Hc.
    assert (futures w2 !! self
            = Some (set_update_callbacks (_update_callbacks F ++ [cb; cb]) F)) as HF2.
    { unfold w2. rewrite upd_future_lookup, HF. reflexivity. }
    destruct (complete_returned o self _ w2 w' HF2 Hc) as (_ & _ & Hinv & _).
    rewrite Hinv. simpl. unfold calls_of. rewrite map_app. reflexivity.
Qed.

Lemma registering_twice_witness :
  WMFuture._add_watcher 1 7 (upd_future 1 (set_watchers ({[7%positive]} ∪ ∅)) w_one)
  = Return tt (upd_future 1 (set_watchers ({[7%positive]} ∪ ∅)) w_one).
Proof.
  set (F := futures w_one !!! 1%positive).
  assert (futures w_one !! 1%positive = Some F) as HF by (vm_compute; reflexivity).
  exact (proj1 (proj2 (registering_twice w_one 1 F 7 cb_quiet HF eq_refl))).
Defined.

(** ** Signals and resets of a watcher *)

Lemma signals_eq wid fs : ∀ w W,
  watchers w !! wid = Some W →
  ∃ w' W', for_each fs (fun future => FutureWatcher.signal wid future) w = Return tt w'
    ∧ watchers w' !! wid = Some W'
    ∧ completed W' = completed W ++ fs
    ∧ threshold W' = threshold W
    ∧ (Event.flag (event W) = (Z.of_nat (length (completed W)) >=? threshold W)%Z →
       Event.flag (event W') = (Z.of_nat (length (completed W')) >=? threshold W)%Z).
Proof.
  induction fs as [|f fs IH]; intros w W HW; simpl.
  - exists w, W. rewrite app_nil_r. repeat split; auto.
  - unfold mbind, M_bind. rewrite signal_eq.
    destruct (IH (upd_watcher wid (signalled f) w) (signalled f W))
      as (w' & W' & Hl & HW' & Hc & Ht & Hfl).
    { rewrite upd_watcher_lookup, HW. reflexivity. }
    exists w', W'. split; [exact Hl|]. split; [exact HW'|].
    split; [rewrite Hc; simpl; rewrite <- app_assoc; reflexivity|].
    split; [exact Ht|]. intros Hinv. apply Hfl.
    apply (signalled_flag f W (threshold W) eq_refl Hinv).
Qed.

(** X4: after any signals, [reset] returns the futures signalled since the
    last reset, in the order of the signals, after those the watcher held
    already, and leaves the watcher empty with its event cleared; a second
    [reset] returns the empty list and changes nothing.  Between resets
    the event is set exactly when the list has reached the threshold. *)
Theorem reset_returns_the_signals (w : world) (wid : positive) (W : watcher_obj)
    (fs : list positive) :
  watchers w !! wid = Some W →
  ∃ w1 W1, for_each fs (fun future => FutureWatcher.signal wid future) w = Return tt w1
    ∧ watchers w1 !! wid = Some W1
    ∧ (Event.flag (event W) = (Z.of_nat (length (completed W)) >=? threshold W)%Z →
       Event.flag (event W1)
       = (Z.of_nat (length (completed W ++ fs)) >=? threshold W)%Z)
    ∧ FutureWatcher.reset wid w1 = Return (completed W ++ fs) (upd_watcher wid cleared w1)
    ∧ FutureWatcher.reset wid (upd_watcher wid cleared w1)
      = Return [] (upd_watcher wid cleared w1)
    ∧ Event.flag (event (watchers (upd_watcher wid cleared w1) !!! wid)) = false.
Proof.
  intros HW. destruct (signals_eq wid fs w W HW) as (w1 & W1 & Hl & HW1 & Hc & Ht & Hfl).
  exists w1, W1. split; [exact Hl|]. split; [exact HW1|].
  split; [intros H; rewrite <- Hc; apply Hfl, H|].
  split; [rewrite (reset_eq wid w1 W1 HW1), Hc; reflexivity|].
  assert (watchers (upd_watcher wid cleared w1) !! wid = Some (cleared W1)) as HW2.
  { rewrite upd_watcher_lookup, HW1. reflexivity. }
  split.
  - rewrite (reset_eq wid _ _ HW2). simpl. f_equal.
    rewrite upd_watcher_upd_watcher. apply upd_watcher_ext. reflexivity.
  - rewrite (lookup_total_correct _ _ _ HW2). reflexivity.
Qed.

Lemma reset_returns_the_signals_witness :
  ∃ w1 W1,
    for_each [1; 2]%positive (fun future => FutureWatcher.signal 1 future) w_observed
    = Return tt w1
    ∧ watchers w1 !! 1%positive = Some W1
    ∧ FutureWatcher.reset 1 w1 = Return [1; 2]%positive (upd_watcher 1 cleared w1).
Proof.
  set (W := watchers w_observed !!! 1%positive).
  assert (watchers w_observed !! 1%positive = Some W) as HW by (vm_compute; reflexivity).
  destruct (reset_returns_the_signals w_observed 1 W [1; 2]%positive HW)
    as (w1 & W1 & Hl & HW1 & _ & Hr & _).
  exists w1, W1. split; [exact Hl|]. split; [exact HW1|exact Hr].
Defined.

(** ** Several readers of one future *)

Lemma readers_spec self tids : ∀ w F,
  futures w !! self = Some F → _done F = false →
  ∃ F1, futures (readers self tids w) !! self = Some F1
    ∧ Condition.waiters (_condition F1) = Condition.waiters (_condition F) ++ tids
    ∧ _done F1 = false ∧ _result F1 = _result F ∧ _exception F1 = _exception F.
Proof.
  induction tids as [|tid tids IH]; intros w F HF Hd; simpl.
  - exists F. rewrite app_nil_r. auto.
  - rewrite (get_result_eq tid self F w HF), Hd. simpl.
    destruct (IH (upd_future self (set_condition (Condition.enqueue tid)) w)
                (set_condition (Condition.enqueue tid) F))
      as (F1 & HF1 & Hw & Hd1 & Hr & He).
    { rewrite upd_future_lookup, HF. reflexivity. }
    { exact Hd. }
    exists F1. split; [exact HF1|]. split; [|auto].
    rewrite Hw. simpl. rewrite <- app_assoc. reflexivity.
Qed.

(** X5: any number of threads may be suspended in [get_result] on a pending
    future: each call adds its thread to the waiters of the condition.
    One completion wakes them all, and each of them, resumed, resolves in
    the same way: it returns the result of that completion, or raises its
    exception if the exception tests true, and returns [None] if it tests
    false. *)
Theorem completion_wakes_every_reader (w : world) (self : positive) (F : future_obj)
    (tids : list nat) :
  futures w !! self = Some F → _done F = false → future_ok F →
  Condition.waiters (_condition (futures (readers self tids w) !!! self))
  = Condition.waiters (_condition F) ++ tids
  ∧ (∀ tid, tid ∈ tids → suspended_on tid self (readers self tids w))
  ∧ ∀ o w2, complete o self (readers self tids w) = Return tt w2 →
      (∀ tid, ¬ suspended_on tid self w2)
      ∧ ∀ saved, WMFuture.get_result_resumed saved self w2
                 = resolution o (resumed saved self w2).
Proof.
  intros HF Hd Hok.
  destruct (readers_spec self tids w F HF Hd) as (F1 & HF1 & Hw & Hd1 & Hr & He).
  unfold future_ok in Hok. rewrite Hd in Hok. destruct Hok as [Hr0 He0].
  split; [rewrite (lookup_total_correct _ _ _ HF1); exact Hw|].
  split.
  - intros tid Hin. unfold suspended_on. rewrite (lookup_total_correct _ _ _ HF1), Hw.
    apply elem_of_app. auto.
  - intros o w2 Hc.
    destruct (complete_returned o self F1 _ w2 HF1 Hc) as (Hf & _).
    assert (futures w2 !! self = Some (completed_future o F1)) as HF2.
    { rewrite Hf. apply lookup_insert_eq. }
    split.
    + intros tid. unfold suspended_on. rewrite (lookup_total_correct _ _ _ HF2).
      destruct o; simpl; apply not_elem_of_nil.
    + intros saved. rewrite (get_result_resumed_eq saved self _ w2 HF2).
      destruct o as [v|e]; unfold raised; simpl; [rewrite He, He0; reflexivity|].
      destruct (exn_truth e); [reflexivity|rewrite Hr, Hr0; reflexivity].
Qed.

Lemma completion_wakes_every_reader_witness :
  Condition.waiters (_condition (futures (readers 1 [3; 4; 5] w_one) !!! 1%positive))
  = [] ++ [3; 4; 5].
Proof.
  set (F := futures w_one !!! 1%positive).
  assert (futures w_one !! 1%positive = Some F) as HF by (vm_compute; reflexivity).
  assert (future_ok F) as Hok by (vm_compute; split; reflexivity).
  exact (proj1 (completion_wakes_every_reader w_one 1 F [3; 4; 5] HF eq_refl Hok)).
Defined.

(** ** The locks *)

Lemma held_upd_condition g f h w F :
  futures w !! f = Some F →
  held g (upd_future f (set_condition h) w)
  = if decide (f = g) then Condition.depth (h (_condition F)) else held g w.
Proof.
  intros HF. unfold held. case_decide; subst.
  - rewrite (upd_future_total g _ w F HF). reflexivity.
  - simpl. rewrite lookup_total_alter_ne by assumption. reflexivity.
Qed.

Lemma held_upd_future_keep g f h w F :
  futures w !! f = Some F → _condition (h F) = _condition F →
  held g (upd_future f h w) = held g w.
Proof.
  intros HF Heq. unfold held. destruct (decide (f = g)); subst.
  - rewrite (upd_future_total g _ w F HF), Heq, (lookup_total_correct _ _ _ HF).
    reflexivity.
  - simpl. rewrite lookup_total_alter_ne by assumption. reflexivity.
Qed.

Lemma held_insert g f F' w ws inv log :
  held g {| futures := <[f := F']> (futures w); watchers := ws; invoked := inv;
            logged := log |}
  = if decide (f = g) then Condition.depth (_condition F') else held g w.
Proof.
  unfold held. simpl. case_decide; subst.
  - rewrite lookup_total_insert_eq. reflexivity.
  - rewrite lookup_total_insert_ne by assumption. reflexivity.
Qed.

(** X6: every method of a future that returns or raises leaves the lock of
    every future held as often as it found it, also a completion which the
    exception of a callback ends; a [get_result] that suspends its thread
    has given the lock of its future up. *)
Theorem methods_release_their_lock (w : world) (self : positive) (F : future_obj)
    (g : positive) :
  futures w !! self = Some F →
  (∀ v, held g (world_of (WMFuture._set_result self v w)) = held g w)
  ∧ (∀ e, held g (world_of (WMFuture._set_exception self e w)) = held g w)
  ∧ (∀ watcher, held g (world_of (WMFuture._add_watcher self watcher w)) = held g w)
  ∧ (∀ cb, held g (world_of (WMFuture._add_callback self cb w)) = held g w)
  ∧ held g (world_of (WMFuture.is_done self w)) = held g w
  ∧ (∀ tid, _done F = true → held g (world_of (WMFuture.get_result tid self w)) = held g w)
  ∧ (∀ tid, _done F = false → held self (world_of (WMFuture.get_result tid self w)) = 0).
Proof.
  intros HF.
  assert (held self w = Condition.depth (_condition F)) as Hself.
  { unfold held. rewrite (lookup_total_correct _ _ _ HF). reflexivity. }
  assert (∀ o, held g (world_of (complete o self w)) = held g w) as Hc.
  { intros o. rewrite (complete_eq o self F w HF).
    destruct (run_callbacks _ _ _ _) as [[inv log] [e|]]; simpl;
      rewrite held_insert; case_decide; subst; auto;
      rewrite Hself; destruct o; reflexivity. }
  split; [intros v; apply (Hc (Result v))|].
  split; [intros e; apply (Hc (Failure e))|].
  split; [|split; [|split; [|split]]].
  - intros watcher. rewrite (add_watcher_eq self watcher F w HF).
    destruct (_done F); simpl; [reflexivity|].
    rewrite (held_upd_future_keep g self _ w F HF); reflexivity.
  - intros cb. rewrite (add_callback_eq self cb F w HF).
    destruct (_done F); simpl.
    + destruct (cb_body cb self) as [e|]; [destruct (isinstance_Exception e)|]; reflexivity.
    + rewrite (held_upd_future_keep g self _ w F HF); reflexivity.
  - rewrite (is_done_eq self F w HF). reflexivity.
  - intros tid Hd. rewrite (get_result_eq tid self F w HF), Hd.
    destruct (raised F); reflexivity.
  - intros tid Hd. rewrite (get_result_eq tid self F w HF), Hd. simpl.
    rewrite (held_upd_condition self self _ w F HF), decide_True by reflexivity.
    reflexivity.
Qed.

Lemma methods_release_their_lock_witness :
  held 1 (world_of (WMFuture._set_result 1 (PyInt 5)
            (world_of (WMFuture._add_callback 1 cb_interrupt w_one))))
  = held 1 (world_of (WMFuture._add_callback 1 cb_interrupt w_one)).
Proof.
  set (w := world_of (WMFuture._add_callback 1 cb_interrupt w_one)).
  assert (futures w !! 1%positive = Some (futures w !!! 1%positive)) as HF
    by (vm_compute; reflexivity).
  exact (proj1 (methods_release_their_lock w 1 _ 1 HF) (PyInt 5)).
Defined.

Lemma occurrences_cons g f l :
  occurrences g (f :: l) = if decide (f = g) then S (occurrences g l) else occurrences g l.
Proof.
  unfold occurrences. rewrite filter_cons. repeat case_decide; try reflexivity; tauto.
Qed.

Lemma held_acquire_all g fs : ∀ w,
  (∀ x, x ∈ fs → is_Some (futures w !! x)) →
  held g (world_of (WMFuture.acquire_all fs w)) = held g w + occurrences g fs.
Proof.
  induction fs as [|f fs IH]; intros w Hex.
  - simpl. unfold occurrences. simpl. lia.
  - destruct (Hex f) as [F HF]; [left|].
    change (WMFuture.acquire_all (f :: fs) w)
      with (WMFuture.acquire_all fs (upd_future f (set_condition Condition.acquire) w)).
    rewrite IH.
    + rewrite (held_upd_condition g f _ w F HF), occurrences_cons.
      case_decide; subst; [|reflexivity].
      unfold held. rewrite (lookup_total_correct _ _ _ HF). simpl. lia.
    + intros x Hx. destruct (decide (x = f)) as [->|Hne].
      * rewrite upd_future_lookup, HF. eexists; reflexivity.
      * simpl. rewrite lookup_alter_ne by auto. apply Hex. right. exact Hx.
Qed.

Lemma held_release_all g fs : ∀ w,
  held g (world_of (WMFuture.release_all fs w)) = held g w - occurrences g fs.
Proof.
  induction fs as [|f fs IH]; intros w.
  - simpl. unfold occurrences. simpl. lia.
  - change (WMFuture.release_all (f :: fs) w)
      with (WMFuture.release_all fs (upd_future f (set_condition Condition.release) w)).
    rewrite IH, occurrences_cons.
    destruct (futures w !! f) as [F|] eqn:HF.
    + rewrite (held_upd_condition g f _ w F HF).
      case_decide; subst; [|reflexivity].
      unfold held. rewrite (lookup_total_correct _ _ _ HF). simpl. lia.
    + rewrite (upd_future_absent f _ w HF).
      case_decide; subst; [|reflexivity].
      unfold held. rewrite lookup_total_alt, HF. simpl. lia.
Qed.

(** X7: [all_acquired] takes the lock of a future once for each time the
    future is listed.  When the body returns having left the locks as it
    got them, every lock is held again exactly as often as before the
    scope; when the body raises, each listed future stays held once more
    for each time it is listed. *)
Theorem all_acquired_lock_depths {A} (fs : list positive) (body : M A) (w : world)
    (g : positive) :
  (∀ x, x ∈ fs → is_Some (futures w !! x)) →
  held g (world_of (body (world_of (WMFuture.acquire_all fs w))))
  = held g (world_of (WMFuture.acquire_all fs w)) →
  held g (world_of (WMFuture.acquire_all fs w)) = held g w + occurrences g fs
  ∧ match body (world_of (WMFuture.acquire_all fs w)) with
    | Return _ _ => held g (world_of (WMFuture.all_acquired fs body w)) = held g w
    | Raise _ _ =>
        held g (world_of (WMFuture.all_acquired fs body w)) = held g w + occurrences g fs
    | Block _ _ => True
    end.
Proof.
  intros Hex Hbody. pose proof (held_acquire_all g fs w Hex) as Hacq.
  split; [exact Hacq|].
  destruct (body _) as [a w'|e w'|s w'] eqn:Hb; [| |exact I].
  - rewrite (all_acquired_return fs body w a w' Hb). simpl in Hbody.
    simpl. rewrite held_release_all, Hbody, Hacq. lia.
  - rewrite (all_acquired_raise fs body w e w' Hb). simpl in Hbody.
    simpl. rewrite Hbody. exact Hacq.
Qed.

Lemma all_acquired_lock_depths_witness :
  held 1 (world_of (WMFuture.all_acquired [1; 2; 1]%positive (mret tt) w_two))
  = held 1 w_two.
Proof.
  refine (proj2 (all_acquired_lock_depths [1; 2; 1]%positive (mret tt) w_two 1 _ _)).
  - intros x Hx. apply elem_of_cons in Hx as [->|Hx]; [vm_compute; eauto|].
    apply elem_of_cons in Hx as [->|Hx]; [vm_compute; eauto|].
    apply elem_of_cons in Hx as [->|Hx]; [vm_compute; eauto|].
    apply elem_of_nil in Hx. destruct Hx.
  - reflexivity.
Defined.

(** ** Completing a future again and again *)

Lemma completion_call_complete self o : completion_call self o = complete o self.
Proof. destruct o; simpl; [apply set_result_complete|apply set_exception_complete]. Qed.

Lemma completions_spec self os : ∀ w F,
  futures w !! self = Some F → _done F = true → future_ok F →
  ∃ F', futures (completions self os w) !! self = Some F'
    ∧ _done F' = true
    ∧ (_result F', _exception F') = stored (_result F) (_exception F) os.
Proof.
  induction os as [|o os IH]; intros w F HF Hd Hok.
  - exists F. auto.
  - simpl. rewrite completion_call_complete, (complete_done_eq o self F w HF Hd Hok).
    simpl.
    destruct (IH (upd_future self (set_condition Condition.notify_all ∘ store o) w)
                ((set_condition Condition.notify_all ∘ store o) F))
      as (F' & HF' & Hd' & Hs).
    { rewrite upd_future_lookup, HF. reflexivity. }
    { destruct o; exact Hd. }
    { unfold future_ok in *. destruct o; simpl; rewrite Hd in *; exact Hok. }
    exists F'. split; [exact HF'|]. split; [exact Hd'|].
    rewrite Hs. destruct o; reflexivity.
Qed.

Lemma stored_app r x l1 l2 :
  stored r x (l1 ++ l2) = stored (stored r x l1).1 (stored r x l1).2 l2.
Proof.
  revert r x. induction l1 as [|[v|e] l1 IH]; intros r x; simpl; auto.
Qed.

Lemma stored_results r x rs : (stored r x (map Result rs)).2 = x.
Proof. revert r. induction rs as [|v rs IH]; intros r; simpl; auto. Qed.

Lemma first_completion_returns o self F w :
  futures w !! self = Some F →
  Forall (raises_only_Exception self) (_update_callbacks F) →
  ∃ w', complete o self w = Return tt w'
    ∧ futures w' !! self = Some (completed_future o F).
Proof.
  intros HF Hcbs. rewrite (complete_eq o self F w HF).
  rewrite run_callbacks_all by exact Hcbs.
  eexists. split; [reflexivity|]. simpl. apply lookup_insert_eq.
Qed.

(** X8: on a future whose callbacks raise only instances of [Exception]
    (so on every future that holds no callback, as after a completion
    that ran to its end), one or more completions all return, each
    assigning its payload over what is stored; [_set_result] leaves
    [_exception] as it is.  Afterwards [get_result] is decided by the last
    exception that was set: if it tests true, [get_result] raises it,
    whatever results were set after it; if none was set, or the last one
    tests false, [get_result] returns the last result that was set. *)
Theorem failure_is_never_cleared (w : world) (self : positive) (F : future_obj)
    (o : outcome) (os : list outcome) (tid : nat) :
  futures w !! self = Some F →
  Forall (raises_only_Exception self) (_update_callbacks F) →
  let w' := completions self (o :: os) w in
  WMFuture.get_result tid self w'
  = match stored (_result F) (_exception F) (o :: os) with
    | (r, Some e) => if exn_truth e then Raise e w' else Return r w'
    | (r, None) => Return r w'
    end
  ∧ (∀ pre e rs, o :: os = pre ++ Failure e :: map Result rs → exn_truth e = true →
       WMFuture.get_result tid self w' = Raise e w').
Proof.
  intros HF Hcbs w'.
  destruct (first_completion_returns o self F w HF Hcbs) as (w1 & Hc & HF1).
  destruct (completions_spec self os w1 (completed_future o F) HF1) as (F' & HF' & Hd' & Hs).
  { destruct o; reflexivity. }
  { unfold future_ok. destruct o; simpl; auto. }
  assert (w' = completions self os w1) as Hw'.
  { unfold w'. simpl. rewrite completion_call_complete, Hc. reflexivity. }
  assert (stored (_result (completed_future o F)) (_exception (completed_future o F)) os
          = stored (_result F) (_exception F) (o :: os)) as Hst
    by (destruct o; reflexivity).
  rewrite Hst in Hs.
  assert (WMFuture.get_result tid self w'
          = match stored (_result F) (_exception F) (o :: os) with
            | (r, Some e) => if exn_truth e then Raise e w' else Return r w'
            | (r, None) => Return r w'
            end) as Heq.
  { rewrite Hw'. rewrite (get_result_eq tid self F' _ HF'), Hd'. unfold raised.
    rewrite <- Hs. destruct (_exception F') as [e|]; [destruct (exn_truth e)|];
      reflexivity. }
  split; [exact Heq|].
  intros pre e rs Hlist He. rewrite Heq, Hlist, stored_app.
  pose proof (stored_results (stored (_result F) (_exception F) pre).1 (Some e) rs) as H2.
  simpl. destruct (stored _ (Some e) (map Result rs)) as [r x]. simpl in H2. subst x.
  rewrite He. reflexivity.
Qed.

Lemma failure_is_never_cleared_witness :
  WMFuture.get_result 0 1
    (completions 1 [Failure (Exn "ValueError" FromException "boom"); Result (PyInt 7)] w_one)
  = Raise (Exn "ValueError" FromException "boom")
      (completions 1 [Failure (Exn "ValueError" FromException "boom"); Result (PyInt 7)]
         w_one).
Proof.
  assert (futures w_one !! 1%positive = Some (futures w_one !!! 1%positive)) as HF
    by (vm_compute; reflexivity).
  refine (proj2 (failure_is_never_cleared w_one 1 _
                   (Failure (Exn "ValueError" FromException "boom")) [Result (PyInt 7)] 0
                   HF _)
            [] (Exn "ValueError" FromException "boom") [PyInt 7] eq_refl eq_refl).
  vm_compute. constructor.
Defined.

(** ** What no operation undoes *)

Section AssignmentInvariant.
Context (P : world → Prop) (HP : assignment_invariant P).

Lemma kept_by_signal wid f : preserves P (FutureWatcher.signal wid f).
Proof. intros w H. rewrite signal_eq. simpl. apply (ai_futures P HP w); auto. Qed.

Lemma kept_by_reset wid : preserves P (FutureWatcher.reset wid).
Proof.
  unfold FutureWatcher.reset. apply preserves_with_lock.
  - intros g w. apply (ai_futures P HP). reflexivity.
  - repeat (apply preserves_bind; intros); try apply preserves_ret;
      intros w H; simpl; apply (ai_futures P HP w); auto.
Qed.

Lemma kept_by_callback f cb :
  preserves P (try_except_Exception (call cb f) (log_exception callback_msg)).
Proof.
  apply preserves_try.
  - intros w H. unfold call. destruct (cb_body cb f); simpl;
      apply (ai_futures P HP w); auto.
  - intros e w H. simpl. apply (ai_futures P HP w); auto.
Qed.

Lemma kept_by_complete o f : preserves P (complete o f).
Proof.
  unfold complete, WMFuture._invoke_callbacks, WMFuture._notify_watchers.
  apply preserves_with_condition; [intros; apply (ai_condition P HP); auto|].
  apply preserves_bind.
  { intros w H. destruct o; [apply (ai_result P HP)|apply (ai_exception P HP)]; auto. }
  intros _. apply preserves_bind; [intros w H; apply (ai_done P HP); auto|intros _].
  apply preserves_bind; [intros w H; apply (ai_condition P HP); auto|intros _].
  apply preserves_bind; [|intros _].
  - apply preserves_with_condition; [intros; apply (ai_condition P HP); auto|].
    apply preserves_bind; [apply preserves_read_future|intros F].
    apply preserves_bind.
    + apply preserves_for_each. intros cb. apply kept_by_callback.
    + intros _ w H. apply (ai_callbacks P HP); auto.
  - apply preserves_with_condition; [intros; apply (ai_condition P HP); auto|].
    apply preserves_bind; [apply preserves_read_future|intros F].
    apply preserves_bind; [apply preserves_assert|intros _].
    apply preserves_bind.
    + apply preserves_for_each. intros wid. apply kept_by_signal.
    + intros _ w H. apply (ai_watchers P HP); auto.
Qed.

Lemma kept_by_add_watcher f wid : preserves P (WMFuture._add_watcher f wid).
Proof.
  unfold WMFuture._add_watcher.
  apply preserves_with_condition; [intros; apply (ai_condition P HP); auto|].
  apply preserves_bind; [apply preserves_read_future|intros F].
  apply preserves_if; [apply kept_by_signal|].
  intros w H. apply (ai_watchers P HP); auto.
Qed.

Lemma kept_by_add_callback f cb : preserves P (WMFuture._add_callback f cb).
Proof.
  unfold WMFuture._add_callback.
  apply preserves_with_condition; [intros; apply (ai_condition P HP); auto|].
  apply preserves_bind; [apply preserves_read_future|intros F].
  apply preserves_if; [apply kept_by_callback|].
  intros w H. apply (ai_callbacks P HP); auto.
Qed.

Lemma kept_by_payload F : preserves P (WMFuture.payload F).
Proof.
  unfold WMFuture.payload. destruct (_exception F) as [e|];
    [destruct (exn_truth e); [apply preserves_raise|apply preserves_ret]
    |apply preserves_ret].
Qed.

Lemma kept_by_get_result tid f : preserves P (WMFuture.get_result tid f).
Proof.
  unfold WMFuture.get_result.
  apply preserves_with_condition; [intros; apply (ai_condition P HP); auto|].
  apply preserves_bind; [apply preserves_read_future|intros F].
  apply preserves_if; [apply kept_by_payload|].
  apply preserves_bind; [intros w H; simpl; apply (ai_condition P HP); auto|intros _].
  apply preserves_bind; [apply preserves_read_future|intros F'].
  apply preserves_bind; [apply preserves_assert|intros _].
  apply kept_by_payload.
Qed.

Lemma kept_by_get_result_resumed saved f :
  preserves P (WMFuture.get_result_resumed saved f).
Proof.
  unfold WMFuture.get_result_resumed.
  apply preserves_with_exit; [intros; apply (ai_condition P HP); auto|].
  apply preserves_bind; [intros w H; apply (ai_condition P HP); auto|intros _].
  apply preserves_bind; [apply preserves_read_future|intros F'].
  apply preserves_bind; [apply preserves_assert|intros _].
  apply kept_by_payload.
Qed.

Lemma kept_by_is_done f : preserves P (WMFuture.is_done f).
Proof.
  unfold WMFuture.is_done.
  apply preserves_with_condition; [intros; apply (ai_condition P HP); auto|].
  apply preserves_bind; [apply preserves_read_future|intros F].
  apply preserves_ret.
Qed.

Lemma kept_by_get_exception tid f : preserves P (WMFuture.get_exception tid f).
Proof.
  unfold WMFuture.get_exception, WMFuture.getattr_returned.
  apply preserves_with_condition; [intros; apply (ai_condition P HP); auto|].
  apply preserves_bind; [apply preserves_read_future|intros F].
  apply preserves_bind.
  { destruct (_returned F); [apply preserves_raise|apply preserves_ret]. }
  intros r. apply preserves_if; [apply preserves_ret|].
  apply preserves_bind; [apply preserves_assert|intros _].
  apply preserves_bind; [intros w H; simpl; apply (ai_condition P HP); auto|intros _].
  apply preserves_bind; [apply preserves_read_future|intros F'].
  apply preserves_ret.
Qed.

Lemma kept_by_watcher_init fs t : preserves P (FutureWatcher__init__ fs t).
Proof.
  intros w H. unfold FutureWatcher__init__, new_watcher.
  eapply (preserves_bind P).
  - apply preserves_for_each. intros f. apply kept_by_add_watcher.
  - intros _. apply preserves_ret.
  - apply (ai_futures P HP w); auto.
Qed.

End AssignmentInvariant.

Lemma future_kept_upd f t r d g h w :
  (∀ F, task_id (h F) = task_id F ∧ _returned (h F) = _returned F
        ∧ (_done F = true → _done (h F) = true)) →
  future_kept f t r d w → future_kept f t r d (upd_future g h w).
Proof.
  intros Hh (F & HF & Ht & Hr & Hd). destruct (decide (g = f)) as [->|Hne].
  - exists (h F). rewrite upd_future_lookup, HF.
    destruct (Hh F) as (H1 & H2 & H3). repeat split; try congruence. auto.
  - exists F. simpl. rewrite lookup_alter_ne by exact Hne. auto.
Qed.

Lemma future_kept_assignments f t r d : assignment_invariant (future_kept f t r d).
Proof.
  split; intros; try (apply future_kept_upd; [intros F; simpl; auto|assumption]).
  unfold future_kept in *. rewrite <- H. assumption.
Qed.

Lemma future_kept_perform f t r d op w :
  future_kept f t r d w → future_kept f t r d (perform op w).
Proof.
  pose proof (future_kept_assignments f t r d) as HP.
  destruct op; simpl.
  - intros (F & HF & H). exists F. split; [|exact H]. simpl.
    rewrite lookup_insert_ne; [exact HF|].
    intros Heq. pose proof (is_fresh (dom (futures w))) as Hfresh.
    rewrite Heq in Hfresh. apply Hfresh. apply elem_of_dom. eauto.
  - apply (kept_by_complete _ HP (Result v)).
  - apply (kept_by_complete _ HP (Failure e)).
  - apply (kept_by_get_result _ HP).
  - apply (kept_by_get_result_resumed _ HP).
  - apply (kept_by_add_watcher _ HP).
  - apply (kept_by_add_callback _ HP).
  - apply (kept_by_is_done _ HP).
  - apply (kept_by_get_exception _ HP).
  - apply (kept_by_watcher_init _ HP).
  - apply (kept_by_reset _ HP).
Qed.

(** X9: whatever is done afterwards (futures and watchers created, futures
    completed any number of times, read, given watchers and callbacks,
    watchers reset, with calls that return, raise or suspend), a future
    stays in the store with the task id it was created with, and a future
    that is Done stays Done: nothing sets [_done] back. *)
Theorem done_is_never_undone (ops : list operation) (w : world) (f : positive)
    (F : future_obj) :
  futures w !! f = Some F →
  ∃ F', futures (perform_all ops w) !! f = Some F'
        ∧ task_id F' = task_id F
        ∧ (_done F = true → _done F' = true).
Proof.
  intros HF.
  assert (future_kept f (task_id F) (_returned F) (_done F) (perform_all ops w)) as H.
  { assert (future_kept f (task_id F) (_returned F) (_done F) w) as H0
      by (exists F; auto).
    clear HF. revert w H0. induction ops as [|op ops IH]; intros w H0; simpl;
      [exact H0|].
    apply IH, future_kept_perform, H0. }
  destruct H as (F' & HF' & Ht & _ & Hd). exists F'. auto.
Qed.

Lemma done_is_never_undone_witness :
  ∃ F', futures (perform_all [OpSetResult 1 (PyInt 6); OpInit PyNone (PyInt 2);
                              OpGetResult 0 1] w_one_done) !! 1%positive = Some F'
        ∧ task_id F' = PyStr "task-1".
Proof.
  assert (futures w_one_done !! 1%positive = Some (futures w_one_done !!! 1%positive))
    as HF by (vm_compute; reflexivity).
  destruct (done_is_never_undone
              [OpSetResult 1 (PyInt 6); OpInit PyNone (PyInt 2); OpGetResult 0 1]
              w_one_done 1 _ HF) as (F' & HF' & Ht & _).
  exists F'. split; [exact HF'|exact Ht].
Defined.

(** ** Taking and giving back the locks of several futures *)

Lemma locks_loop_lookup g l : ∀ w,
  let w' := world_of (for_each l (fun future => modify_future future (set_condition g)) w) in
  watchers w' = watchers w ∧ invoked w' = invoked w ∧ logged w' = logged w
  ∧ ∀ x, futures w' !! x
         = set_condition (Nat.iter (occurrences x l) g) <$> futures w !! x.
Proof.
  induction l as [|f l IH]; intros w.
  - simpl. repeat split. intros x. unfold occurrences. simpl.
    destruct (futures w !! x); reflexivity.
  - change (for_each (f :: l) (fun future => modify_future future (set_condition g)) w)
      with (for_each l (fun future => modify_future future (set_condition g))
              (upd_future f (set_condition g) w)).
    destruct (IH (upd_future f (set_condition g) w)) as (Hw & Hi & Hl & Hf).
    split; [exact Hw|]. split; [exact Hi|]. split; [exact Hl|].
    intros x. rewrite Hf, occurrences_cons.
    change (futures (upd_future f (set_condition g) w))
      with (alter (set_condition g) f (futures w)).
    destruct (decide (f = x)) as [->|Hne].
    + rewrite lookup_alter_eq.
      destruct (futures w !! x) as [F|]; [|reflexivity].
      unfold set_condition. simpl. rewrite <- Nat.iter_succ_r. reflexivity.
    + rewrite lookup_alter_ne by exact Hne. reflexivity.
Qed.

Lemma release_acquire c C :
  Nat.iter c Condition.release (Nat.iter c Condition.acquire C) = C.
Proof.
  revert C. induction c as [|c IH]; intros C; [reflexivity|].
  rewrite Nat.iter_succ_r. simpl. exact (IH C).
Qed.

Lemma release_acquire_all fs w :
  world_of (WMFuture.release_all fs (world_of (WMFuture.acquire_all fs w))) = w.
Proof.
  destruct (locks_loop_lookup Condition.acquire fs w) as (Hw1 & Hi1 & Hl1 & Hf1).
  destruct (locks_loop_lookup Condition.release fs
              (world_of (WMFuture.acquire_all fs w))) as (Hw2 & Hi2 & Hl2 & Hf2).
  unfold WMFuture.release_all, WMFuture.acquire_all in *.
  apply world_eq; [|congruence..].
  apply map_eq. intros x. rewrite Hf2, Hf1.
  destruct (futures w !! x) as [F|]; [|reflexivity]. simpl. f_equal.
  unfold set_condition. simpl. rewrite release_acquire. reflexivity.
Qed.

Lemma register_held wid g S : ∀ w,
  (∀ f, f ∈ S → is_Some (futures w !! f)) →
  held g (world_of (for_each S (fun future => WMFuture._add_watcher future wid) w))
  = held g w.
Proof.
  induction S as [|x S IH]; intros w Hex; [reflexivity|].
  destruct (Hex x) as [F HF]; [left|].
  simpl. unfold mbind, M_bind. rewrite (add_watcher_eq x wid F w HF).
  rewrite IH.
  - destruct (_done F); [reflexivity|].
    apply (held_upd_future_keep g x _ w F HF). reflexivity.
  - intros f Hf. destruct (Hex f) as [G HG]; [right; exact Hf|].
    destruct (_done F); simpl; [eauto|].
    rewrite lookup_alter. case_decide; subst; rewrite ?HF, ?HG; simpl; eauto.
Qed.

(** ** [wait_any] *)

Lemma wait_any_enters fs w :
  (∀ f, f ∈ fs → is_Some (futures w !! f)) →
  let w1 := world_of (WMFuture.acquire_all (elements (list_to_set fs : gset positive)) w) in
  (∀ f, view w1 f = view w f) ∧ watchers w1 = watchers w
  ∧ (∀ g, held g w1
          = held g w + occurrences g (elements (list_to_set fs : gset positive)))
  ∧ ∃ D : gset positive, WEMDWorkManager.done_set fs w1 = Return D w1
      ∧ ∀ f, f ∈ D ↔ f ∈ fs ∧ is_done f w.
Proof.
  intros Hex w1.
  destruct (condition_loop (elements (list_to_set fs : gset positive))
              Condition.acquire w) as (w1' & H1 & Hv & Hw).
  assert (w1 = w1') as Hw1.
  { unfold w1, WMFuture.acquire_all. rewrite H1. reflexivity. }
  rewrite Hw1. split; [exact Hv|]. split; [exact Hw|]. split.
  - intros g. rewrite <- Hw1. apply held_acquire_all.
    intros x Hx. apply Hex. apply elem_of_elements, elem_of_list_to_set in Hx. exact Hx.
  - destruct (done_set_spec fs w1') as (D & HD & Hmem).
    { intros f Hf. apply (view_is_Some w), Hex, Hf. apply Hv. }
    exists D. split; [exact HD|]. intros f. rewrite Hmem.
    split; intros [Hf Hd]; (split; [exact Hf|]).
    + apply (view_is_done w1'); [apply Hv|exact Hd].
    + apply (view_is_done w); [symmetry; apply Hv|exact Hd].
Qed.

(** X10: [wait_any] on futures one of which is Done returns at once a member
    of the collection that is Done; it makes no watcher and suspends
    nothing: the store is left exactly as it was, every lock given back. *)
Theorem wait_any_returns_a_done_member (tid : nat) (fs : list positive) (w : world) :
  (∀ f, f ∈ fs → is_Some (futures w !! f)) →
  (∃ f, f ∈ fs ∧ is_done f w) →
  ∃ f, WEMDWorkManager.wait_any tid fs w = Return f w ∧ f ∈ fs ∧ is_done f w.
Proof.
  intros Hex (f0 & Hf0 & Hd0).
  destruct (wait_any_enters fs w Hex) as (Hv & Hw & _ & D & HD & Hmem).
  destruct (elements D) as [|x rest] eqn:HE.
  { assert (f0 ∈ elements D) as Hin by (apply elem_of_elements, Hmem; auto).
    rewrite HE in Hin. inversion Hin. }
  assert (x ∈ D) as Hx by (apply elem_of_elements; rewrite HE; left).
  apply Hmem in Hx as [Hxf Hxd].
  exists x. split; [|auto].
  unfold WEMDWorkManager.wait_any. unfold mbind at 1. unfold M_bind.
  erewrite all_acquired_return.
  2:{ unfold WEMDWorkManager.wait_any_locked, mbind, M_bind. rewrite HD, HE. reflexivity. }
  rewrite release_acquire_all. reflexivity.
Qed.

Lemma wait_any_returns_a_done_member_witness :
  ∃ f, WEMDWorkManager.wait_any 0 [1; 2]%positive w_two_done = Return f w_two_done
       ∧ f ∈ [1; 2]%positive ∧ is_done f w_two_done.
Proof.
  apply wait_any_returns_a_done_member.
  - intros f Hf. apply elem_of_cons in Hf as [->|Hf]; [vm_compute; eauto|].
    apply elem_of_cons in Hf as [->|Hf]; [vm_compute; eauto|].
    apply elem_of_nil in Hf. destruct Hf.
  - exists 1%positive. split; [left|]. eexists. split; vm_compute; reflexivity.
Defined.

Lemma watcher_init_held fs t w g :
  (∀ f, f ∈ fs → is_Some (futures w !! f)) →
  held g (world_of (FutureWatcher__init__ fs t w)) = held g w.
Proof.
  intros Hex. unfold FutureWatcher__init__. rewrite new_watcher_eq.
  match goal with
  | |- held g (world_of ((for_each fs ?body ;; _) ?w0)) = _ =>
      pose proof (register_held (fresh (dom (watchers w))) g fs w0 Hex) as H;
      unfold mbind, M_bind; destruct (for_each fs body w0); exact H
  end.
Qed.

Lemma watch_inv_flag wid R w W :
  watch_inv wid 1 R [] w → watchers w !! wid = Some W →
  (Event.flag (event W) = true → Event.waiters (event W) = [])
  ∧ (∀ x, x ∈ completed W ↔ x ∈ R ∧ is_done x w)
  ∧ (Event.flag (event W) = false ↔ ∀ f, f ∈ R → is_pending f w).
Proof.
  intros (W' & HW' & Ht & Hfl & Hwt & Hnd & Hmem & Hreg & Hex) HW.
  assert (W' = W) as -> by congruence.
  split; [exact Hwt|]. split; [exact Hmem|].
  rewrite Hfl. split.
  - intros Hlen f Hf. destruct (Hex f Hf) as [F HF]. exists F. split; [exact HF|].
    destruct (_done F) eqn:Hd; [|reflexivity].
    assert (f ∈ completed W) as Hin by (apply Hmem; split; [exact Hf|exists F; auto]).
    destruct (completed W); [inversion Hin|].
    simpl in Hlen. rewrite Z.geb_leb in Hlen. apply Z.leb_gt in Hlen. lia.
  - intros Hp. destruct (completed W) as [|x l] eqn:HC; [reflexivity|].
    assert (x ∈ R ∧ is_done x w) as [Hx (F & HF & Hd)] by (apply Hmem; simpl; left).
    destruct (Hp x Hx) as (F' & HF' & Hd'). congruence.
Qed.

Lemma pending_of f w : is_Some (futures w !! f) → ¬ is_done f w → is_pending f w.
Proof.
  intros [F HF] Hn. exists F. split; [exact HF|].
  destruct (_done F) eqn:Hd; [|reflexivity]. destruct Hn. exists F. auto.
Qed.

Lemma wait_any_registers fs w :
  NoDup fs → no_dangling w → (∀ f, f ∈ fs → is_pending f w) →
  ∃ w3, WMFuture.all_acquired (elements (list_to_set fs : gset positive))
          (WEMDWorkManager.wait_any_locked fs) w
        = Return (inr (fresh (dom (watchers w)))) w3
    ∧ (∀ g, held g w3 = held g w)
    ∧ watch_inv (fresh (dom (watchers w))) 1 fs [] w3
    ∧ (∀ f, f ∈ fs → is_pending f w3).
Proof.
  intros Hnd Hdang Hpend.
  assert (∀ f, f ∈ fs → is_Some (futures w !! f)) as Hex.
  { intros f Hf. destruct (Hpend f Hf) as (F & HF & _). eauto. }
  destruct (wait_any_enters fs w Hex) as (Hv & Hw & Hheld & D & HD & Hmem).
  set (L := elements (list_to_set fs : gset positive)) in *.
  set (w1 := world_of (WMFuture.acquire_all L w)) in *.
  assert (elements D = []) as HE.
  { destruct (elements D) as [|x rest] eqn:HE; [reflexivity|].
    assert (x ∈ D) as Hx by (apply elem_of_elements; rewrite HE; left).
    apply Hmem in Hx as [Hxf (F & HF & Hd)].
    destruct (Hpend x Hxf) as (F' & HF' & Hd'). congruence. }
  assert (∀ f, f ∈ fs → is_Some (futures w1 !! f)) as Hex1.
  { intros f Hf. apply (view_is_Some w), Hex, Hf. apply Hv. }
  destruct (watcher_init_spec fs 1 w1) as (w2 & Hinit & Hinv & Hdone & Hsome & Hother);
    [lia| |exact Hnd|exact Hex1|].
  { apply (no_dangling_ext w); [exact Hv|rewrite Hw; reflexivity|exact Hdang]. }
  rewrite Hw in *. set (wid := fresh (dom (watchers w))) in *.
  destruct (condition_loop L Condition.release w2) as (w3 & Hrel & Hv3 & Hw3).
  exists w3. split; [|split; [|split]].
  - erewrite all_acquired_return.
    2:{ fold w1. unfold WEMDWorkManager.wait_any_locked, mbind, M_bind.
        rewrite HD, HE, Hinit. reflexivity. }
    unfold WMFuture.release_all. rewrite Hrel. reflexivity.
  - intros g.
    assert (w3 = world_of (WMFuture.release_all L w2)) as ->.
    { unfold WMFuture.release_all. rewrite Hrel. reflexivity. }
    rewrite held_release_all.
    assert (w2 = world_of (FutureWatcher__init__ fs 1 w1)) as ->
      by (rewrite Hinit; reflexivity).
    rewrite (watcher_init_held fs 1 w1 g Hex1), Hheld. lia.
  - apply (watch_inv_ext wid 1 fs [] w2); [rewrite Hw3; reflexivity|exact Hv3|exact Hinv].
  - intros f Hf. apply pending_of.
    + apply (view_is_Some w2); [apply Hv3|]. apply Hsome, Hex1, Hf.
    + intros Hd3. destruct (Hpend f Hf) as (F & HF & Hd).
      assert (is_done f w) as (F' & HF' & Hd'); [|congruence].
      apply (view_is_done w1); [apply Hv|]. apply Hdone.
      apply (view_is_done w3); [apply Hv3|exact Hd3].
Qed.

Lemma wait_any_suspends tid fs w :
  NoDup fs → no_dangling w → (∀ f, f ∈ fs → is_pending f w) →
  ∃ w1, WEMDWorkManager.wait_any tid fs w
        = Block (OnEvent (fresh (dom (watchers w))) tid) w1
    ∧ (∀ g, held g w1 = held g w)
    ∧ wait_any_inv tid (fresh (dom (watchers w))) fs w1.
Proof.
  intros Hnd Hdang Hpend.
  destruct (wait_any_registers fs w Hnd Hdang Hpend) as (w3 & Hall & Hheld & Hinv3 & Hp3).
  set (wid := fresh (dom (watchers w))) in *.
  destruct (watch_inv_wait wid 1 fs [] w3 tid Hinv3) as (W & HW & Hwait & Hinv4).
  assert (Event.flag (event W) = false) as Hflag
    by (apply (watch_inv_flag wid fs w3 W Hinv3 HW); exact Hp3).
  rewrite Hflag in Hwait.
  exists (upd_watcher wid (set_event (Event.enqueue tid)) w3).
  split; [|split; [|split]].
  - unfold WEMDWorkManager.wait_any. unfold mbind at 1. unfold M_bind.
    rewrite Hall. unfold mbind, M_bind. rewrite Hwait. reflexivity.
  - intros g. rewrite <- Hheld. reflexivity.
  - apply Hinv4, Hflag.
  - exists (set_event (Event.enqueue tid) W).
    rewrite upd_watcher_lookup, HW. split; [reflexivity|].
    intros _. simpl. apply elem_of_app. right. left.
Qed.

Lemma wait_any_resumed_returns wid fs w :
  watch_inv wid 1 fs [] w → (∃ f, f ∈ fs ∧ is_done f w) →
  ∃ f w', WEMDWorkManager.wait_any_resumed wid w = Return f w'
    ∧ f ∈ fs ∧ is_done f w' ∧ futures w' = futures w.
Proof.
  intros Hinv (f & Hf & Hd).
  pose proof Hinv as (W & HW & _).
  destruct (watch_inv_flag wid fs w W Hinv HW) as (_ & Hmem & _).
  assert (f ∈ completed W) as Hin by (apply Hmem; auto).
  unfold WEMDWorkManager.wait_any_resumed, mbind, M_bind.
  rewrite (reset_eq wid w W HW). unfold WEMDWorkManager.list_pop.
  destruct (last (completed W)) as [x|] eqn:HL.
  - exists x, (upd_watcher wid cleared w). split; [reflexivity|].
    apply last_Some in HL as [l' Hl'].
    assert (x ∈ completed W) as Hx by (rewrite Hl'; apply elem_of_app; right; left).
    apply Hmem in Hx as [Hxf Hxd]. auto.
  - apply last_None in HL. rewrite HL in Hin. inversion Hin.
Qed.

Lemma wait_any_inv_env_step tid wid fs w w' :
  env_step w w' → wait_any_inv tid wid fs w → wait_any_inv tid wid fs w'.
Proof.
  intros Hs [Hinv (W & HW & HJ)].
  split; [exact (watch_inv_env_step wid 1 fs [] w w' Hs Hinv)|].
  apply env_step_inv in Hs as (g & G & o & HG & Hgd & Hf & Hws).
  rewrite Hws, signal_all_lookup, HW.
  case_decide; [|eauto].
  exists (signalled g W). split; [reflexivity|]. unfold signalled. simpl.
  destruct (Z.of_nat (length (completed W ++ [g])) >=? threshold W)%Z;
    [discriminate|exact HJ].
Qed.

Lemma wait_any_inv_env_steps tid wid fs w w' :
  rtc env_step w w' → wait_any_inv tid wid fs w → wait_any_inv tid wid fs w'.
Proof. induction 1; eauto using wait_any_inv_env_step. Qed.

Lemma wait_any_inv_wakes tid wid fs w :
  wait_any_inv tid wid fs w →
  (waiting_on tid wid w ↔ ∀ f, f ∈ fs → is_pending f w)
  ∧ ((∃ f, f ∈ fs ∧ is_done f w) →
     ∃ f w', WEMDWorkManager.wait_any_resumed wid w = Return f w'
       ∧ f ∈ fs ∧ is_done f w' ∧ futures w' = futures w).
Proof.
  intros [Hinv (W & HW & HJ)].
  destruct (watch_inv_flag wid fs w W Hinv HW) as (Hwt & Hmem & Hfl).
  split; [|apply wait_any_resumed_returns, Hinv].
  unfold waiting_on. rewrite (lookup_total_correct _ _ _ HW), <- Hfl. split.
  - intros Hin. destruct (Event.flag (event W)); [|reflexivity].
    rewrite Hwt in Hin by reflexivity. inversion Hin.
  - exact HJ.
Qed.

(** X11: [wait_any] on distinct futures none of which is Done makes a watcher
    of threshold 1 and suspends its thread on the event of that watcher,
    holding no lock.  While other threads complete futures, the thread
    stays among the waiters exactly as long as every member is pending;
    and once a member is Done, the rest of [wait_any] returns a member of
    the collection that is Done. *)
Theorem wait_any_wakes_on_first_completion (tid : nat) (fs : list positive) (w : world) :
  NoDup fs → no_dangling w → (∀ f, f ∈ fs → is_pending f w) →
  ∃ w1, WEMDWorkManager.wait_any tid fs w
        = Block (OnEvent (fresh (dom (watchers w))) tid) w1
    ∧ (∀ g, held g w1 = held g w)
    ∧ ∀ w2, rtc env_step w1 w2 →
        (waiting_on tid (fresh (dom (watchers w))) w2 ↔ ∀ f, f ∈ fs → is_pending f w2)
        ∧ ((∃ f, f ∈ fs ∧ is_done f w2) →
           ∃ f w3, WEMDWorkManager.wait_any_resumed (fresh (dom (watchers w))) w2
                   = Return f w3
             ∧ f ∈ fs ∧ is_done f w3 ∧ futures w3 = futures w2).
Proof.
  intros Hnd Hdang Hpend.
  destruct (wait_any_suspends tid fs w Hnd Hdang Hpend) as (w1 & Hb & Hh & Hinv).
  exists w1. split; [exact Hb|]. split; [exact Hh|].
  intros w2 Hsteps. apply wait_any_inv_wakes.
  exact (wait_any_inv_env_steps tid _ fs w1 w2 Hsteps Hinv).
Qed.

(** X12: [wait_any] on an empty collection never returns: its watcher is
    registered with no future, so no completion signals it, and the
    thread stays suspended on its event whatever futures are completed. *)
Theorem wait_any_of_nothing_never_wakes (tid : nat) (w : world) :
  no_dangling w →
  ∃ w1, WEMDWorkManager.wait_any tid [] w
        = Block (OnEvent (fresh (dom (watchers w))) tid) w1
    ∧ ∀ w2, rtc env_step w1 w2 → waiting_on tid (fresh (dom (watchers w))) w2.
Proof.
  intros Hdang.
  destruct (wait_any_suspends tid [] w) as (w1 & Hb & Hh & Hinv);
    [apply NoDup_nil_2|exact Hdang|intros f Hf; inversion Hf|].
  exists w1. split; [exact Hb|].
  intros w2 Hsteps.
  apply (wait_any_inv_wakes tid _ [] w2).
  - exact (wait_any_inv_env_steps tid _ [] w1 w2 Hsteps Hinv).
  - intros f Hf. inversion Hf.
Qed.

Lemma wait_any_wakes_on_first_completion_witness :
  ∃ w1, WEMDWorkManager.wait_any 0 [1; 2]%positive w_two
        = Block (OnEvent (fresh (dom (watchers w_two))) 0) w1
    ∧ ∀ g, held g w1 = held g w_two.
Proof.
  destruct (wait_any_wakes_on_first_completion 0 [1; 2]%positive w_two)
    as (w1 & H1 & H2 & _).
  - refine (bool_decide_unpack _ _). vm_compute. exact I.
  - refine (bool_decide_unpack _ _). vm_compute. exact I.
  - intros f Hf. apply elem_of_cons in Hf as [->|Hf];
      [eexists; split; vm_compute; reflexivity|].
    apply list_elem_of_singleton in Hf as ->. eexists; split; vm_compute; reflexivity.
  - exists w1. split; [exact H1|exact H2].
Defined.

Lemma wait_any_of_nothing_never_wakes_witness :
  ∃ w1, WEMDWorkManager.wait_any 0 [] w_two
        = Block (OnEvent (fresh (dom (watchers w_two))) 0) w1
    ∧ ∀ w2, rtc env_step w1 w2 → waiting_on 0 (fresh (dom (watchers w_two))) w2.
Proof.
  apply wait_any_of_nothing_never_wakes.
  refine (bool_decide_unpack _ _). vm_compute. exact I.
Defined.

(** ** What [as_completed] yields *)

Lemma ac_next_done tid fs w0 c :
  ac_inv tid fs w0 c →
  (∀ f, f ∈ snd c → is_done f (snd (fst c))) →
  ∀ f, f ∈ snd (ac_next tid c) → is_done f (snd (fst (ac_next tid c))).
Proof.
  destruct c as [[k w] Y]. intros Hinv HQ. simpl in HQ.
  destruct k as [fs'|rest p wid|p wid|p wid|p wid|rest p wid|g rest p wid|].
  - pose proof Hinv as [_ (-> & -> & _)].
    destruct (ac_start_step tid fs w0 w Hinv) as (rest & p & wid & w' & Hs & _ & Hd).
    unfold ac_next. rewrite Hs. simpl. intros f Hf. apply Hd, HQ, Hf.
  - destruct rest as [|g rest]; [exact HQ|].
    destruct Hinv as [_ (D & HE & _ & _ & HD & _)].
    simpl. intros f Hf. apply elem_of_app in Hf as [Hf|Hf]; [apply HQ, Hf|].
    apply list_elem_of_singleton in Hf as ->. apply HD, elem_of_elements.
    rewrite HE. apply elem_of_app. right. left.
  - unfold ac_next. simpl. case_decide; [exact HQ|].
    unfold FutureWatcher.wait, mbind, M_bind, read_watcher.
    destruct (Event.flag _); exact HQ.
  - unfold ac_next. simpl. case_decide; exact HQ.
  - destruct Hinv as [_ (D & Y2 & _ & _ & _ & _ & _ & (W & HW & _))].
    unfold ac_next, WEMDWorkManager.as_completed_step.
    rewrite (reset_eq wid w W HW). exact HQ.
  - destruct rest as [|g rest]; [exact HQ|].
    destruct Hinv as [_ (D & Y2 & _ & _ & _ & _ & _ & (W & _ & _ & _ & _ & _ & Hmem & _))].
    simpl. intros f Hf. apply elem_of_app in Hf as [Hf|Hf]; [apply HQ, Hf|].
    apply list_elem_of_singleton in Hf as ->.
    apply (Hmem g). rewrite <- app_assoc. apply elem_of_app. right.
    apply elem_of_app. left. left.
  - unfold ac_next. simpl. case_decide; exact HQ.
  - exact HQ.
Qed.

(** X13: in every interleaving of the generator [as_completed] with the
    completions made by the producers, every future yielded so far is
    Done: whoever receives it reads its result, or gets its exception
    raised, without being suspended. *)
Theorem as_completed_yields_only_done (tid : nat) (fs : list positive) (w0 : world)
    (k : WEMDWorkManager.as_completed_frame) (w : world) (Y : list positive) :
  (∀ f, f ∈ fs → is_Some (futures w0 !! f)) → no_dangling w0 →
  rtc (as_completed_system tid) (WEMDWorkManager.AC_start fs, w0, []) (k, w, Y) →
  ∀ f, f ∈ Y →
    is_done f w
    ∧ ∀ reader s w', WMFuture.get_result reader f w ≠ Block s w'.
Proof.
  intros Hex Hnd Hrun.
  assert (∀ c, rtc (as_completed_system tid) (WEMDWorkManager.AC_start fs, w0, []) c →
               ∀ f, f ∈ snd c → is_done f (snd (fst c))) as HQ.
  { apply (rtc_ind_r (λ c, ∀ f, f ∈ snd c → is_done f (snd (fst c)))).
    - simpl. intros f Hf. inversion Hf.
    - intros c c' Hpre Hstep IH.
      pose proof (ac_inv_reachable tid fs w0 c Hex Hnd Hpre) as Hinv.
      inversion Hstep as [k1 w1 w1' Y1 Henv|c1]; subst.
      + simpl in *. intros f Hf. apply (is_done_env_step w1 w1' f Henv), IH, Hf.
      + apply (ac_next_done tid fs w0 c Hinv IH). }
  intros f Hf. pose proof (HQ _ Hrun f Hf) as Hd. split; [exact Hd|].
  destruct Hd as (F & HF & Hd). intros reader s w'.
  rewrite (get_result_eq reader f F w HF), Hd. destruct (raised F); discriminate.
Qed.

Lemma as_completed_yields_only_done_witness :
  is_done 3 (snd (fst ac_example_end)).
Proof.
  pose proof as_completed_example_run as (Hrun & Hend & _).
  rewrite Hend in Hrun.
  refine (proj1 (as_completed_yields_only_done 0 [1; 2; 3]%positive w_three
                   WEMDWorkManager.AC_exhausted (snd (fst ac_example_end))
                   [1; 3; 2]%positive _ _ Hrun 3%positive _)).
  - intros f Hf. apply elem_of_cons in Hf as [->|Hf]; [vm_compute; eauto|].
    apply elem_of_cons in Hf as [->|Hf]; [vm_compute; eauto|].
    apply list_elem_of_singleton in Hf as ->. vm_compute. eauto.
  - refine (bool_decide_unpack _ _). vm_compute. exact I.
  - right. left.
Defined.

(** ** [WMFuture.wait] *)

(** X14: [wait] is [get_result] with the result dropped, not with the
    failure dropped: on a future that holds an exception which tests true
    it raises that exception instead of returning [None]; on a future
    Done otherwise it returns [None] and changes nothing; on a pending
    future it suspends its thread as [get_result] does. *)
Theorem wait_raises_the_stored_exception (w : world) (self : positive) (F : future_obj)
    (tid : nat) :
  futures w !! self = Some F →
  WMFuture.wait tid self w
  = if _done F then
      match _exception F with
      | Some e => if exn_truth e then Raise e w else Return PyNone w
      | None => Return PyNone w
      end
    else Block (OnCondition self tid (S (Condition.depth (_condition F))))
               (upd_future self (set_condition (Condition.enqueue tid)) w).
Proof.
  intros HF. unfold WMFuture.wait, mbind, M_bind.
  rewrite (get_result_eq tid self F w HF). unfold raised.
  destruct (_done F); [destruct (_exception F) as [e|]; [destruct (exn_truth e)|]|];
    reflexivity.
Qed.

Lemma wait_raises_the_stored_exception_witness :
  WMFuture.wait 0 1 (world_of (WMFuture._set_exception 1 KeyboardInterrupt w_one))
  = Raise KeyboardInterrupt
      (world_of (WMFuture._set_exception 1 KeyboardInterrupt w_one)).
Proof.
  set (w := world_of (WMFuture._set_exception 1 KeyboardInterrupt w_one)).
  assert (futures w !! 1%positive = Some (futures w !!! 1%positive)) as HF
    by (vm_compute; reflexivity).
  exact (wait_raises_the_stored_exception w 1 _ 0 HF).
Defined.

(** ** A completion between the registration and the wait *)

Lemma watch_inv_env_steps wid t R H w w' :
  rtc env_step w w' → watch_inv wid t R H w → watch_inv wid t R H w'.
Proof. induction 1; eauto using watch_inv_env_step. Qed.

(** X16: [wait_any] loses no completion that falls between its locked
    block and its [watcher.wait()].  The block, entered with distinct
    futures that are all pending, gives the locks back with the watcher
    registered; whatever completions other threads make from then on, the
    rest of [wait_any] suspends its thread if every member is still
    pending, and otherwise returns, without suspending, a member that is
    Done. *)
Theorem wait_any_misses_no_completion (tid : nat) (fs : list positive) (w : world) :
  NoDup fs → no_dangling w → (∀ f, f ∈ fs → is_pending f w) →
  let wid := fresh (dom (watchers w)) in
  ∃ w1, WMFuture.all_acquired (elements (list_to_set fs : gset positive))
          (WEMDWorkManager.wait_any_locked fs) w
        = Return (inr wid) w1
    ∧ ∀ w2, rtc env_step w1 w2 →
        ((∀ f, f ∈ fs → is_pending f w2) →
         (FutureWatcher.wait tid wid ;; WEMDWorkManager.wait_any_resumed wid) w2
         = Block (OnEvent wid tid) (upd_watcher wid (set_event (Event.enqueue tid)) w2))
        ∧ ((∃ f, f ∈ fs ∧ is_done f w2) →
           ∃ f w3,
             (FutureWatcher.wait tid wid ;; WEMDWorkManager.wait_any_resumed wid) w2
             = Return f w3
             ∧ f ∈ fs ∧ is_done f w3).
Proof.
  intros Hnd Hdang Hpend wid.
  destruct (wait_any_registers fs w Hnd Hdang Hpend) as (w1 & Hall & _ & Hinv & _).
  exists w1. split; [exact Hall|]. intros w2 Hsteps.
  pose proof (watch_inv_env_steps _ 1 fs [] w1 w2 Hsteps Hinv) as Hinv2.
  fold wid in Hinv2.
  destruct (watch_inv_wait wid 1 fs [] w2 tid Hinv2) as (W & HW & Hwait & _).
  destruct (watch_inv_flag wid fs w2 W Hinv2 HW) as (_ & _ & Hfl).
  unfold mbind, M_bind. rewrite Hwait. split.
  - intros Hp. rewrite (proj2 Hfl Hp). reflexivity.
  - intros (f & Hf & Hd).
    destruct (Event.flag (event W)) eqn:Hflag.
    + destruct (wait_any_resumed_returns wid fs w2 Hinv2) as (x & w3 & Hr & Hx & Hxd & _);
        [eauto|].
      exists x, w3. auto.
    + destruct (proj1 Hfl eq_refl f Hf) as (F & HF & Hdf).
      destruct Hd as (F' & HF' & Hd'). congruence.
Qed.

Lemma wait_any_misses_no_completion_witness :
  ∃ w1, WMFuture.all_acquired (elements (list_to_set [1; 2]%positive : gset positive))
          (WEMDWorkManager.wait_any_locked [1; 2]%positive) w_two
        = Return (inr (fresh (dom (watchers w_two)))) w1.
Proof.
  destruct (wait_any_misses_no_completion 0 [1; 2]%positive w_two) as (w1 & H1 & _).
  - refine (bool_decide_unpack _ _). vm_compute. exact I.
  - refine (bool_decide_unpack _ _). vm_compute. exact I.
  - intros f Hf. apply elem_of_cons in Hf as [->|Hf];
      [eexists; split; vm_compute; reflexivity|].
    apply list_elem_of_singleton in Hf as ->. eexists; split; vm_compute; reflexivity.
  - exists w1. exact H1.
Defined.
